(** * usa-spending-sankey: the aggregation and layout logic of [graph.js]

    A shallow embedding of the data-handling functions of [src/graph.js]
    ([download_categories], [download_amounts], [remove_ids],
    [consolidate_agencies], [create_graph], [justify_vertically] and
    [color]) together with the properties that the specification states
    about them.

    Conventions of the embedding.
    - A JavaScript number is an IEEE 754 binary64 value.  The amounts, the
      sums that [create_graph] takes of them and the ordinates of the
      layout in the module [Binary64] are primitive floats, which are
      binary64 values with the operations of the standard: [+], [-] and
      [/] round to nearest, ties to even, and the comparisons are those of
      the standard ([-0] equals [0]; [NaN] equals nothing and is neither
      above nor below anything).
    - The specification states its laws of the layout over exact
      arithmetic.  [justify_vertically] is therefore embedded twice: over
      the rationals [Qc], where those laws are proved, and in the module
      [Binary64] over the numbers of the code, where the rounding shows.
    - An object made by [{}] and used as a map ([ids] in [gen_ids]) has
      [Object.prototype] behind it: the map of its own properties comes
      with a read and a write that follow the prototype chain.
    - The two globals [categories] and [amounts] are the two fields of
      [State]; a function that mutates them maps a state to a state.
    - [categories] is an object with the three fixed keys that
      [download_categories] creates; it is a record with three fields and
      a by-name lookup for the one dynamic access [categories[result.type]].
    - Objects mutated through references that are shared (the links of the
      laid-out graph, reached through [sourceLinks] and [targetLinks]) live
      in a store and are referred to by their index in it. *)

From Stdlib Require Import ZArith QArith Qcanon Floats.
From stdpp Require Import base option list strings gmap numbers.

Local Open Scope Qc_scope.

(* ================================================================= *)
(** ** Constants *)

Definition YEAR : string := "2019".

(** The canvas height, as a rational; [Binary64.HEIGHT] is the number. *)
Definition HEIGHT : Qc := Qc_of_Z 1440.

(* ================================================================= *)
(** ** Numbers *)

(** [x != 0] on numbers. *)
Definition nonzero (x : float) : Prop := (x =? 0)%float = false.

(** [x > 0] on numbers. *)
Definition positive (x : float) : Prop := (0 <? x)%float = true.

#[global] Instance nonzero_dec (x : float) : Decision (nonzero x).
Proof. unfold nonzero. apply _. Defined.

#[global] Instance positive_dec (x : float) : Decision (positive x).
Proof. unfold positive. apply _. Defined.

(** The rational that a finite number denotes; [0] for the two infinities
    and for [NaN], which denote none. *)
Definition rational_of (x : float) : Qc :=
  match Prim2SF x with
  | S754_finite negative m e =>
      let magnitude := (inject_Z (Z.pos m) * 2 ^ e)%Q in
      Q2Qc (if negative then - magnitude else magnitude)
  | _ => 0
  end.

Definition sum_Qc (xs : list Qc) : Qc := foldr Qcplus 0 xs.

(** The sum of a list of numbers as a loop [total += x] takes it: from
    [0], from left to right, every addition rounded.  [exact_sum] is the
    sum of the rationals that the numbers denote. *)
Definition float_sum (xs : list float) : float :=
  fold_left PrimFloat.add xs 0%float.

Definition exact_sum (xs : list float) : Qc := sum_Qc (rational_of <$> xs).

(* ================================================================= *)
(** ** Data model *)

(** One item of [response.data.results]. *)
Record ApiResult := {
  r_id : Z;
  r_type : string;
  r_name : string;
  r_amount : float
}.

(** The global [categories]: one array per category type.  The entries
    are [[id, name]] pairs until [remove_ids] has run and names after. *)
Record Categories (A : Type) := {
  object_class : list A;
  budget_function : list A;
  agency : list A
}.
Arguments object_class {A} _.
Arguments budget_function {A} _.
Arguments agency {A} _.

(** An element of the global [amounts]. *)
Record AmountRecord := {
  a_object_class : string;
  a_budget_function : string;
  a_agency : string;
  a_amount : float
}.

(** The two globals after [remove_ids]. *)
Record State := {
  categories : Categories string;
  amounts : list AmountRecord
}.

(* ================================================================= *)
(** ** Failure

    [download_categories] can fail in two ways: an awaited request is
    rejected, or [categories[result.type]] is [undefined] and the call of
    [push] on it throws. *)

Inductive Error := RequestFailed | TypeError.

Inductive Result (A : Type) :=
| Ok (a : A)
| Err (e : Error).
Arguments Ok {A} a.
Arguments Err {A} e.

#[local] Instance Result_bind : MBind Result :=
  λ A B f m, match m with Ok a => f a | Err e => Err e end.

(* ================================================================= *)
(** ** Category Loader: [download_categories] *)

Definition category_types : list string :=
  ["object_class"; "budget_function"; "agency"].

(** [categories] once the first loop has stored an empty array under each
    of the three keys. *)
Definition empty_categories {A} : Categories A :=
  {| object_class := []; budget_function := []; agency := [] |}.

(** [categories[key]]; [None] is [undefined]. *)
Definition get_category {A} (key : string) (c : Categories A) : option (list A) :=
  if decide (key = "object_class") then Some (object_class c)
  else if decide (key = "budget_function") then Some (budget_function c)
  else if decide (key = "agency") then Some (agency c)
  else None.

(** [categories[key].push(x)]. *)
Definition push_category {A} (key : string) (x : A) (c : Categories A)
  : Result (Categories A) :=
  if decide (key = "object_class") then
    Ok {| object_class := object_class c ++ [x];
          budget_function := budget_function c;
          agency := agency c |}
  else if decide (key = "budget_function") then
    Ok {| object_class := object_class c;
          budget_function := budget_function c ++ [x];
          agency := agency c |}
  else if decide (key = "agency") then
    Ok {| object_class := object_class c;
          budget_function := budget_function c;
          agency := agency c ++ [x] |}
  else Err TypeError.

(** The inner loop over [response.data.results]. *)
Fixpoint collect_results (results : list ApiResult) (c : Categories (Z * string))
  : Result (Categories (Z * string)) :=
  match results with
  | [] => Ok c
  | result :: rest =>
      if decide (nonzero (r_amount result)) then
        c' ← push_category (r_type result) (r_id result, r_name result) c;
        collect_results rest c'
      else collect_results rest c
  end.

(** The outer loop over [requests]; a request is the outcome of its
    [axios.post]. *)
Fixpoint await_requests (requests : list (Result (list ApiResult)))
    (c : Categories (Z * string)) : Result (Categories (Z * string)) :=
  match requests with
  | [] => Ok c
  | request :: rest =>
      response ← request;
      c' ← collect_results response c;
      await_requests rest c'
  end.

(** [post category] is the outcome of the aggregate query for [category]. *)
Definition download_categories (post : string → Result (list ApiResult))
  : Result (Categories (Z * string)) :=
  await_requests (post <$> category_types) empty_categories.

(* ================================================================= *)
(** ** Data Cleaner: [remove_ids], [consolidate_agencies], [clean_data] *)

Definition remove_ids (l : list (Z * string)) : list string :=
  (λ entry, entry.2) <$> l.

(** [Array.prototype.indexOf]: the first index holding [x], or [-1]. *)
Fixpoint indexOf_from (l : list string) (x : string) (i : Z) : Z :=
  match l with
  | [] => (-1)%Z
  | y :: l' => if decide (y = x) then i else indexOf_from l' x (i + 1)%Z
  end.

Definition indexOf (l : list string) (x : string) : Z := indexOf_from l x 0.

(** What [l.splice(start)] leaves in [l]: the elements before the actual
    start, which counts from the end when [start] is negative and is
    clamped to the bounds of the array. *)
Definition splice {A} (l : list A) (start : Z) : list A :=
  let len := Z.of_nat (length l) in
  let actual_start :=
    if (start <? 0)%Z then Z.max (len + start) 0 else Z.min start len in
  take (Z.to_nat actual_start) l.

Definition set_agency (a : AmountRecord) (name : string) : AmountRecord :=
  {| a_object_class := a_object_class a;
     a_budget_function := a_budget_function a;
     a_agency := name;
     a_amount := a_amount a |}.

Definition consolidate_agencies (n_agencies : Z) (st : State) : State :=
  let cats := categories st in
  {| categories :=
       {| object_class := object_class cats;
          budget_function := budget_function cats;
          agency := splice (agency cats) n_agencies ++ ["Other"] |};
     amounts :=
       (λ amount,
          if (indexOf (agency cats) (a_agency amount) >=? n_agencies)%Z
          then set_agency amount "Other"
          else amount) <$> amounts st |}.

Definition clean_data (raw : Categories (Z * string)) (amounts : list AmountRecord)
  : State :=
  consolidate_agencies 18
    {| categories :=
         {| object_class := remove_ids (object_class raw);
            budget_function := remove_ids (budget_function raw);
            agency := remove_ids (agency raw) |};
       amounts := amounts |}.

(* ================================================================= *)
(** ** Graph Builder: [create_graph] *)

Record GraphNode := { name : string }.

(** What a read of [ids[key]] gives: a node index that [gen_ids] has
    stored, [undefined] when neither the object nor [Object.prototype]
    has the property, and otherwise the value that [Object.prototype]
    holds under [key] (a function, and for ["__proto__"] the prototype
    itself). *)
Inductive Ref :=
| Index (i : nat)
| Undefined
| Inherited (key : string).

#[global] Instance Ref_eq_dec : EqDecision Ref.
Proof. solve_decision. Defined.

(** [source] and [target] hold [0] or what a read of an [ids] object has
    given. *)
Record GraphLink := {
  source : Ref;
  target : Ref;
  names : list string;
  value : float
}.

Record Graph := {
  nodes : list GraphNode;
  links : list GraphLink
}.

(** The property names of [Object.prototype]. *)
Definition object_prototype : list string :=
  [ "constructor"; "__defineGetter__"; "__defineSetter__"; "hasOwnProperty";
    "__lookupGetter__"; "__lookupSetter__"; "isPrototypeOf";
    "propertyIsEnumerable"; "toString"; "valueOf"; "__proto__";
    "toLocaleString" ].

(** [ids[key] = i] on an object made by [{}], given by the map of its own
    properties.  Under ["__proto__"] the assignment reaches the setter of
    [Object.prototype], which ignores a number: nothing is stored.  Under
    any other key it makes or updates an own property. *)
Definition set_property (ids : gmap string nat) (key : string) (i : nat)
  : gmap string nat :=
  if decide (key = "__proto__") then ids else <[key := i]> ids.

(** [ids[key]]: the own property when there is one, and otherwise what
    [Object.prototype] holds under [key]. *)
Definition get_property (ids : gmap string nat) (key : string) : Ref :=
  match ids !! key with
  | Some i => Index i
  | None => if decide (key ∈ object_prototype) then Inherited key else Undefined
  end.

(** [gen_ids] appends one node per category to [nodes] and returns the
    object [ids], used as a map from each name to the index of its node;
    a name listed twice is mapped to the index of its last node, and the
    name ["__proto__"] to none. *)
Definition gen_ids (cats : list string) (nodes : list GraphNode)
  : gmap string nat * list GraphNode :=
  fold_left
    (λ acc category,
       (set_property acc.1 category (length acc.2),
        acc.2 ++ [{| name := category |}]))
    cats (∅, nodes).

(** The keys that occur in the [constraints] objects. *)
Inductive Key := Kobject_class | Kbudget_function | Kagency.

(** [amount[key]]. *)
Definition get_field (amount : AmountRecord) (key : Key) : string :=
  match key with
  | Kobject_class => a_object_class amount
  | Kbudget_function => a_budget_function amount
  | Kagency => a_agency amount
  end.

(** The loop over the keys of [constraints]: [false] is [continue loop]. *)
Fixpoint satisfies (amount : AmountRecord) (constraints : list (Key * string)) : bool :=
  match constraints with
  | [] => true
  | (key, wanted) :: rest =>
      if decide (get_field amount key ≠ wanted) then false
      else satisfies amount rest
  end.

Definition sum_filter (amounts : list AmountRecord) (constraints : list (Key * string))
  : float :=
  fold_left
    (λ total amount,
       if satisfies amount constraints then (total + a_amount amount)%float
       else total)
    amounts 0%float.

(** [sum_filter] over exact arithmetic: the same loop, with every amount
    read as the rational that it denotes and added without rounding. *)
Definition exact_sum_filter (amounts : list AmountRecord)
    (constraints : list (Key * string)) : Qc :=
  fold_left
    (λ total amount,
       if satisfies amount constraints
       then total + rational_of (a_amount amount)
       else total)
    amounts 0.

Section create_graph.
Variable amounts : list AmountRecord.
Variable cats : Categories string.
Variables object_class_ids budget_function_ids agency_ids : gmap string nat.

(** Body of the loop over [categories.agency]. *)
Definition agency_step (oc bf : string) (links : list GraphLink) (ag : string)
  : list GraphLink :=
  let total :=
    sum_filter amounts [(Kobject_class, oc); (Kbudget_function, bf); (Kagency, ag)] in
  if decide (positive total) then
    links ++ [{| source := get_property budget_function_ids bf;
                 target := get_property agency_ids ag;
                 names := [oc; bf; ag];
                 value := total |}]
  else links.

(** Body of the loop over [categories.budget_function]. *)
Definition budget_function_step (oc : string) (links : list GraphLink) (bf : string)
  : list GraphLink :=
  let total := sum_filter amounts [(Kobject_class, oc); (Kbudget_function, bf)] in
  let links :=
    if decide (positive total) then
      links ++ [{| source := get_property object_class_ids oc;
                   target := get_property budget_function_ids bf;
                   names := [oc; bf];
                   value := total |}]
    else links in
  fold_left (agency_step oc bf) (agency cats) links.

(** Body of the loop over [categories.object_class]. *)
Definition object_class_step (links : list GraphLink) (oc : string)
  : list GraphLink :=
  let links :=
    links ++ [{| source := Index 0;
                 target := get_property object_class_ids oc;
                 names := [oc];
                 value := sum_filter amounts [(Kobject_class, oc)] |}] in
  fold_left (budget_function_step oc) (budget_function cats) links.
End create_graph.

Definition root_node : GraphNode := {| name := "USA FY " +:+ YEAR +:+ " Spending" |}.

Definition create_graph (st : State) : Graph :=
  let cats := categories st in
  let nodes := [root_node] in
  let oc := gen_ids (object_class cats) nodes in
  let bf := gen_ids (budget_function cats) oc.2 in
  let ag := gen_ids (agency cats) bf.2 in
  {| nodes := ag.2;
     links :=
       fold_left (object_class_step (amounts st) cats oc.1 bf.1 ag.1)
         (object_class cats) [] |}.

(* ================================================================= *)
(** ** Layout Adjuster: [justify_vertically]

    The argument of [justify_vertically] is the node array of the graph
    laid out by d3-sankey.  Its nodes are distinct objects, addressed here
    by their index in the array; the link objects that the nodes share
    are addressed by their index in [layout_links].

    The definitions that follow are the adjuster over the rationals, the
    arithmetic over which the specification states its laws; the module
    [Binary64] after them is the same code over the numbers on which it
    runs. *)

Record LaidLink := {
  link_y0 : Qc;
  link_y1 : Qc
}.

Record LaidNode := {
  layer : Z;
  y0 : Qc;
  y1 : Qc;
  sourceLinks : list nat;
  targetLinks : list nat
}.

Record Layout := {
  layout_nodes : list LaidNode;
  layout_links : list LaidLink
}.

(** The first inner loop: [i] is the index of the head of [nodes]. *)
Fixpoint collect_layer (l : Z) (nodes : list LaidNode) (i : nat)
    (layer_nodes : list nat) (node_height : Qc) : list nat * Qc :=
  match nodes with
  | [] => (layer_nodes, node_height)
  | node :: rest =>
      if decide (layer node = l) then
        collect_layer l rest (S i) (layer_nodes ++ [i])
          (node_height + (y1 node - y0 node))
      else collect_layer l rest (S i) layer_nodes node_height
  end.

Definition shift_node (offset : Qc) (node : LaidNode) : LaidNode :=
  {| layer := layer node;
     y0 := y0 node + offset;
     y1 := y1 node + offset;
     sourceLinks := sourceLinks node;
     targetLinks := targetLinks node |}.

Definition shift_link_y0 (offset : Qc) (link : LaidLink) : LaidLink :=
  {| link_y0 := link_y0 link + offset; link_y1 := link_y1 link |}.

Definition shift_link_y1 (offset : Qc) (link : LaidLink) : LaidLink :=
  {| link_y0 := link_y0 link; link_y1 := link_y1 link + offset |}.

(** [for (var link of node.sourceLinks) link.y0 += offset]. *)
Definition shift_sources (offset : Qc) (refs : list nat) (links : list LaidLink)
  : list LaidLink :=
  fold_left (λ links j, alter (shift_link_y0 offset) j links) refs links.

(** [for (var link of node.targetLinks) link.y1 += offset]. *)
Definition shift_targets (offset : Qc) (refs : list nat) (links : list LaidLink)
  : list LaidLink :=
  fold_left (λ links j, alter (shift_link_y1 offset) j links) refs links.

(** The divisor of the spacing: [layer_nodes.length + 1]. *)
Definition spacing_divisor (layer_nodes : list nat) : Qc :=
  Qc_of_Z (Z.of_nat (length layer_nodes + 1)).

(** The second inner loop, over the references in [layer_nodes]. *)
Fixpoint place_layer (spacing : Qc) (layer_nodes : list nat) (y : Qc) (g : Layout)
  : Layout :=
  match layer_nodes with
  | [] => g
  | i :: rest =>
      match layout_nodes g !! i with
      | None => place_layer spacing rest y g (* no such reference is collected *)
      | Some node =>
          let offset := y - y0 node in
          let y := y + (y1 node - y0 node) in
          let y := y + spacing in
          place_layer spacing rest y
            {| layout_nodes := <[i := shift_node offset node]> (layout_nodes g);
               layout_links :=
                 shift_targets offset (targetLinks node)
                   (shift_sources offset (sourceLinks node) (layout_links g)) |}
      end
  end.

(** One iteration of the loop over [layer]. *)
Definition justify_layer (l : Z) (g : Layout) : Layout :=
  let collected := collect_layer l (layout_nodes g) 0 [] 0 in
  let layer_nodes := collected.1 in
  let node_height := collected.2 in
  let spacing := (HEIGHT - node_height) / spacing_divisor layer_nodes in
  place_layer spacing layer_nodes spacing g.

Definition justify_vertically (g : Layout) : Layout :=
  fold_left (λ g l, justify_layer l g) [0; 1; 2; 3]%Z g.

(** *** The adjuster on the numbers of the code *)

Module Binary64.

Definition HEIGHT : float := 1440.

Record LaidLink := {
  link_y0 : float;
  link_y1 : float
}.

Record LaidNode := {
  layer : Z;
  y0 : float;
  y1 : float;
  sourceLinks : list nat;
  targetLinks : list nat
}.

Record Layout := {
  layout_nodes : list LaidNode;
  layout_links : list LaidLink
}.

(** The first inner loop: [i] is the index of the head of [nodes]. *)
Fixpoint collect_layer (l : Z) (nodes : list LaidNode) (i : nat)
    (layer_nodes : list nat) (node_height : float) : list nat * float :=
  match nodes with
  | [] => (layer_nodes, node_height)
  | node :: rest =>
      if decide (layer node = l) then
        collect_layer l rest (S i) (layer_nodes ++ [i])
          (node_height + (y1 node - y0 node))%float
      else collect_layer l rest (S i) layer_nodes node_height
  end.

(** [node.y0 += offset; node.y1 += offset]: two additions, each rounded. *)
Definition shift_node (offset : float) (node : LaidNode) : LaidNode :=
  {| layer := layer node;
     y0 := (y0 node + offset)%float;
     y1 := (y1 node + offset)%float;
     sourceLinks := sourceLinks node;
     targetLinks := targetLinks node |}.

Definition shift_link_y0 (offset : float) (link : LaidLink) : LaidLink :=
  {| link_y0 := (link_y0 link + offset)%float; link_y1 := link_y1 link |}.

Definition shift_link_y1 (offset : float) (link : LaidLink) : LaidLink :=
  {| link_y0 := link_y0 link; link_y1 := (link_y1 link + offset)%float |}.

(** [for (var link of node.sourceLinks) link.y0 += offset]. *)
Definition shift_sources (offset : float) (refs : list nat) (links : list LaidLink)
  : list LaidLink :=
  fold_left (λ links j, alter (shift_link_y0 offset) j links) refs links.

(** [for (var link of node.targetLinks) link.y1 += offset]. *)
Definition shift_targets (offset : float) (refs : list nat) (links : list LaidLink)
  : list LaidLink :=
  fold_left (λ links j, alter (shift_link_y1 offset) j links) refs links.

(** The divisor of the spacing: [layer_nodes.length + 1].  The length of
    an array is below [2^32], so that the number is the integer itself. *)
Definition spacing_divisor (layer_nodes : list nat) : float :=
  PrimFloat.of_uint63 (Uint63.of_Z (Z.of_nat (length layer_nodes + 1))).

(** The second inner loop, over the references in [layer_nodes]. *)
Fixpoint place_layer (spacing : float) (layer_nodes : list nat) (y : float)
    (g : Layout) : Layout :=
  match layer_nodes with
  | [] => g
  | i :: rest =>
      match layout_nodes g !! i with
      | None => place_layer spacing rest y g (* no such reference is collected *)
      | Some node =>
          let offset := (y - y0 node)%float in
          let y := (y + (y1 node - y0 node))%float in
          let y := (y + spacing)%float in
          place_layer spacing rest y
            {| layout_nodes := <[i := shift_node offset node]> (layout_nodes g);
               layout_links :=
                 shift_targets offset (targetLinks node)
                   (shift_sources offset (sourceLinks node) (layout_links g)) |}
      end
  end.

(** One iteration of the loop over [layer]. *)
Definition justify_layer (l : Z) (g : Layout) : Layout :=
  let collected := collect_layer l (layout_nodes g) 0 [] 0%float in
  let layer_nodes := collected.1 in
  let node_height := collected.2 in
  let spacing := ((HEIGHT - node_height) / spacing_divisor layer_nodes)%float in
  place_layer spacing layer_nodes spacing g.

Definition justify_vertically (g : Layout) : Layout :=
  fold_left (λ g l, justify_layer l g) [0; 1; 2; 3]%Z g.

(** **** Vocabulary of the specification, read on the numbers *)

(** The height of a node and the gaps of a layer are differences of
    ordinates; they are taken of the rationals that the ordinates denote,
    so that no rounding of the measurement itself enters. *)
Definition height (node : LaidNode) : Qc :=
  rational_of (y1 node) - rational_of (y0 node).

Definition layer_of (l : Z) (nodes : list LaidNode) : list LaidNode :=
  filter (λ node, layer node = l) nodes.

Fixpoint gaps_from (prev : Qc) (layer_nodes : list LaidNode) : list Qc :=
  match layer_nodes with
  | [] => [rational_of HEIGHT - prev]
  | node :: rest =>
      (rational_of (y0 node) - prev) :: gaps_from (rational_of (y1 node)) rest
  end.

Definition gaps (layer_nodes : list LaidNode) : list Qc := gaps_from 0 layer_nodes.

(** The claim of the specification that all gaps of an adjusted layer are
    equal, read literally on the numbers of the code. *)
Definition equal_gaps_claim (g : Layout) : Prop :=
  ∀ l, (0 ≤ l < 4)%Z →
    ∀ gap gap', gap ∈ gaps (layer_of l (layout_nodes (justify_vertically g))) →
      gap' ∈ gaps (layer_of l (layout_nodes (justify_vertically g))) →
      gap = gap'.

(** The claim that the adjuster keeps the height of every node, read
    literally on the numbers of the code. *)
Definition heights_claim (g : Layout) : Prop :=
  ∀ (i : nat) node node',
    layout_nodes g !! i = Some node →
    layout_nodes (justify_vertically g) !! i = Some node' →
    height node' = height node.

(** What the loop over the layers [ls] keeps of a node whatever the
    arithmetic: its layer and its link references, and the whole node
    when its layer is not in [ls]; [framed] is the case of the layers 0
    to 3. *)
Definition framed_in (ls : list Z) (node node' : LaidNode) : Prop :=
  layer node' = layer node ∧
  sourceLinks node' = sourceLinks node ∧
  targetLinks node' = targetLinks node ∧
  (layer node ∉ ls → node' = node).

Definition framed (node node' : LaidNode) : Prop :=
  layer node' = layer node ∧
  sourceLinks node' = sourceLinks node ∧
  targetLinks node' = targetLinks node ∧
  (¬ (0 ≤ layer node < 4)%Z → node' = node).

End Binary64.

(* ================================================================= *)
(** ** Vocabulary of the specification *)

(** The (identifier, name) pairs of the results whose amount is not zero,
    in the order of the response. *)
Definition retained (results : list ApiResult) : list (Z * string) :=
  (λ r, (r_id r, r_name r)) <$> filter (λ r, nonzero (r_amount r)) results.

(** The retained pairs of the results that carry the type [c]: what the
    loader stores under [categories[c]]. *)
Definition retained_of (c : string) (results : list ApiResult) : list (Z * string) :=
  retained (filter (λ r, r_type r = c) results).

(** The claim of the specification about agency consolidation, read
    literally: [n + 1] entries afterwards, and every record's agency among
    the first [n] original names or equal to ["Other"]. *)
Definition consolidation_claim (n : nat) (st : State) : Prop :=
  let st' := consolidate_agencies (Z.of_nat n) st in
  length (agency (categories st')) = (n + 1)%nat ∧
  ∀ amount, amount ∈ amounts st' →
    a_agency amount ∈ take n (agency (categories st)) ∨ a_agency amount = "Other".


(** The sum of the amounts of the records that satisfy [P], as the code
    takes it: the amounts are added in the order of the records, from [0],
    and every addition is rounded.  [exact_total_where] is the sum of the
    same amounts without rounding. *)
Definition total_where (P : AmountRecord → Prop) `{!∀ a, Decision (P a)}
    (amounts : list AmountRecord) : float :=
  float_sum (a_amount <$> filter P amounts).

Definition exact_total_where (P : AmountRecord → Prop) `{!∀ a, Decision (P a)}
    (amounts : list AmountRecord) : Qc :=
  exact_sum (a_amount <$> filter P amounts).

(** The three [ids] objects of [create_graph], by their own properties. *)
Definition object_class_ids (st : State) : gmap string nat :=
  (gen_ids (object_class (categories st)) [root_node]).1.

Definition budget_function_ids (st : State) : gmap string nat :=
  (gen_ids (budget_function (categories st))
     (gen_ids (object_class (categories st)) [root_node]).2).1.

Definition agency_ids (st : State) : gmap string nat :=
  (gen_ids (agency (categories st))
     (gen_ids (budget_function (categories st))
        (gen_ids (object_class (categories st)) [root_node]).2).2).1.

(** The links that [create_graph] pushes, by the loop that pushes them. *)
Section links_pushed.
Variable st : State.

Definition root_link (oc : string) : GraphLink :=
  {| source := Index 0;
     target := get_property (object_class_ids st) oc;
     names := [oc];
     value := sum_filter (amounts st) [(Kobject_class, oc)] |}.

Definition budget_function_link (oc bf : string) : GraphLink :=
  {| source := get_property (object_class_ids st) oc;
     target := get_property (budget_function_ids st) bf;
     names := [oc; bf];
     value := sum_filter (amounts st)
                [(Kobject_class, oc); (Kbudget_function, bf)] |}.

Definition agency_link (oc bf ag : string) : GraphLink :=
  {| source := get_property (budget_function_ids st) bf;
     target := get_property (agency_ids st) ag;
     names := [oc; bf; ag];
     value := sum_filter (amounts st)
                [(Kobject_class, oc); (Kbudget_function, bf); (Kagency, ag)] |}.

Definition agency_links (oc bf ag : string) : list GraphLink :=
  if decide (positive (value (agency_link oc bf ag)))
  then [agency_link oc bf ag] else [].

Definition budget_function_links (oc bf : string) : list GraphLink :=
  (if decide (positive (value (budget_function_link oc bf)))
   then [budget_function_link oc bf] else [])
  ++ (agency (categories st) ≫= agency_links oc bf).

Definition object_class_links (oc : string) : list GraphLink :=
  root_link oc :: (budget_function (categories st) ≫= budget_function_links oc).
End links_pushed.

(** The claim of the specification that every edge has a strictly
    positive amount, read literally. *)
Definition positive_edges_claim (st : State) : Prop :=
  ∀ e, e ∈ links (create_graph st) → positive (value e).

(** The aggregated amount of a path of one, two or three names: the sum,
    as the code takes it, of the records that match every name of the
    path. *)
Definition path_total (amounts : list AmountRecord) (path : list string) : float :=
  match path with
  | [oc] => total_where (λ a, a_object_class a = oc) amounts
  | [oc; bf] =>
      total_where (λ a, a_object_class a = oc ∧ a_budget_function a = bf) amounts
  | [oc; bf; ag] =>
      total_where
        (λ a, a_object_class a = oc ∧ a_budget_function a = bf ∧ a_agency a = ag)
        amounts
  | _ => 0%float
  end.

(** The same amount without rounding. *)
Definition exact_path_total (amounts : list AmountRecord) (path : list string) : Qc :=
  match path with
  | [oc] => exact_total_where (λ a, a_object_class a = oc) amounts
  | [oc; bf] =>
      exact_total_where
        (λ a, a_object_class a = oc ∧ a_budget_function a = bf) amounts
  | [oc; bf; ag] =>
      exact_total_where
        (λ a, a_object_class a = oc ∧ a_budget_function a = bf ∧ a_agency a = ag)
        amounts
  | _ => 0
  end.

(** The claim of the specification about the root edges, read literally:
    the node of every entry of the object class list, which is node
    [i + 1] for entry [i], is the target of exactly one edge that leaves
    the root. *)
Definition root_edges_claim (st : State) : Prop :=
  ∀ (i : nat) oc, object_class (categories st) !! i = Some oc →
    length (filter (λ e, source e = Index 0 ∧ target e = Index (S i))
              (links (create_graph st))) = 1%nat.

(** The claim of the specification about the deeper edges, read
    literally: an edge of a listed pair, or of a listed triple, exists
    exactly when the sum of the matching amounts is above 0. *)
Definition deeper_edges_claim (st : State) : Prop :=
  let cats := categories st in
  (∀ oc bf, oc ∈ object_class cats → bf ∈ budget_function cats →
     (∃ e, e ∈ links (create_graph st) ∧ names e = [oc; bf]) ↔
     0 < exact_path_total (amounts st) [oc; bf]) ∧
  (∀ oc bf ag, oc ∈ object_class cats → bf ∈ budget_function cats →
     ag ∈ agency cats →
     (∃ e, e ∈ links (create_graph st) ∧ names e = [oc; bf; ag]) ↔
     0 < exact_path_total (amounts st) [oc; bf; ag]).

(** *** Layers, heights and gaps *)

Definition height (node : LaidNode) : Qc := y1 node - y0 node.

(** The nodes of a layer, in the order of the node array. *)
Definition layer_of (l : Z) (nodes : list LaidNode) : list LaidNode :=
  filter (λ node, layer node = l) nodes.

(** The indices in the node array of the nodes of a layer; [i] is the
    index of the head of [nodes]. *)
Fixpoint layer_indices (l : Z) (nodes : list LaidNode) (i : nat) : list nat :=
  match nodes with
  | [] => []
  | node :: rest =>
      if decide (layer node = l) then i :: layer_indices l rest (S i)
      else layer_indices l rest (S i)
  end.

(** The occupied height of a layer. *)
Definition occupied (layer_nodes : list LaidNode) : Qc :=
  sum_Qc (height <$> layer_nodes).

(** (canvas height − occupied height) / (count + 1). *)
Definition uniform_spacing (layer_nodes : list LaidNode) : Qc :=
  (HEIGHT - occupied layer_nodes)
  / Qc_of_Z (Z.of_nat (length layer_nodes + 1)).

(** The vertical gaps of a layer below the ordinate [prev]: from [prev] to
    the first node, between consecutive nodes, and from the last node to
    the canvas height. *)
Fixpoint gaps_from (prev : Qc) (layer_nodes : list LaidNode) : list Qc :=
  match layer_nodes with
  | [] => [HEIGHT - prev]
  | node :: rest => (y0 node - prev) :: gaps_from (y1 node) rest
  end.

Definition gaps (layer_nodes : list LaidNode) : list Qc := gaps_from 0 layer_nodes.

(** A layer is placed with spacing [s] below [prev] when its first node
    starts [s] below [prev] and every next node [s] below the end of the
    node before it. *)
Fixpoint placed (s prev : Qc) (layer_nodes : list LaidNode) : Prop :=
  match layer_nodes with
  | [] => True
  | node :: rest => y0 node = prev + s ∧ placed s (y1 node) rest
  end.

(** The second inner loop of [justify_vertically] as one walk over the
    node array: the nodes of layer [l] are moved, the others are passed
    over. *)
Fixpoint walk_layer (l : Z) (spacing y : Qc) (nodes : list LaidNode)
    (links : list LaidLink) : list LaidNode * list LaidLink :=
  match nodes with
  | [] => ([], links)
  | node :: rest =>
      if decide (layer node = l) then
        let offset := y - y0 node in
        let moved :=
          walk_layer l spacing (y + (y1 node - y0 node) + spacing) rest
            (shift_targets offset (targetLinks node)
               (shift_sources offset (sourceLinks node) links)) in
        (shift_node offset node :: moved.1, moved.2)
      else
        let moved := walk_layer l spacing y rest links in
        (node :: moved.1, moved.2)
  end.

(** What the loop over the layers [ls] keeps of a node: its layer, its
    height and its link references, and the whole node when its layer is
    not in [ls]. *)
Definition kept (ls : list Z) (node node' : LaidNode) : Prop :=
  layer node' = layer node ∧
  height node' = height node ∧
  sourceLinks node' = sourceLinks node ∧
  targetLinks node' = targetLinks node ∧
  (layer node ∉ ls → node' = node).

(** A layer is balanced when it is placed with its own uniform spacing
    below the top of the canvas. *)
Definition balanced (l : Z) (g : Layout) : Prop :=
  placed (uniform_spacing (layer_of l (layout_nodes g))) 0
    (layer_of l (layout_nodes g)).
(* ================================================================= *)
(** ** Sample inputs *)

(** A state with three listed agencies and a record of an unlisted one. *)
Definition three_agencies : State :=
  {| categories :=
       {| object_class := ["Pay"]; budget_function := ["Health"];
          agency := ["Defense"; "Energy"; "Labor"] |};
     amounts :=
       [ {| a_object_class := "Pay"; a_budget_function := "Health";
            a_agency := "Defense"; a_amount := 50%float |};
         {| a_object_class := "Pay"; a_budget_function := "Health";
            a_agency := "Labor"; a_amount := 30%float |};
         {| a_object_class := "Pay"; a_budget_function := "Health";
            a_agency := "Treasury"; a_amount := 7%float |} ] |}.

(** A state with a single listed agency and a record of an unlisted one. *)
Definition one_agency : State :=
  {| categories :=
       {| object_class := ["Pay"]; budget_function := ["Health"];
          agency := ["Defense"] |};
     amounts :=
       [ {| a_object_class := "Pay"; a_budget_function := "Health";
            a_agency := "Treasury"; a_amount := 7%float |} ] |}.

(** A response of results and its outcome [Ok]. *)
Definition personnel_and_ghost : list ApiResult :=
  [ {| r_id := 1; r_type := "object_class"; r_name := "Personnel";
       r_amount := 100%float |};
    {| r_id := 2; r_type := "object_class"; r_name := "Ghost";
       r_amount := 0%float |} ].

Definition post_personnel_and_ghost (category : string) : Result (list ApiResult) :=
  if decide (category = "object_class") then Ok personnel_and_ghost else Ok [].


(** The two records of the end-to-end scenario of the Graph Builder. *)
Definition two_records : State :=
  {| categories :=
       {| object_class := ["A"]; budget_function := ["B"]; agency := ["X"; "Y"] |};
     amounts :=
       [ {| a_object_class := "A"; a_budget_function := "B";
            a_agency := "X"; a_amount := 50%float |};
         {| a_object_class := "A"; a_budget_function := "B";
            a_agency := "Y"; a_amount := 30%float |} ] |}.

(** An object class without any record. *)
Definition no_records : State :=
  {| categories :=
       {| object_class := ["Pay"]; budget_function := ["Health"];
          agency := ["Defense"] |};
     amounts := [] |}.

(** A laid-out graph: the root in layer 0, two nodes of height 100 in
    layer 1, and one node in a layer that the adjuster does not visit.
    Link 0 runs from the root to the first node of layer 1, link 1 from
    the root to the second. *)
Definition two_nodes : Layout :=
  {| layout_nodes :=
       [ {| layer := 0; y0 := Qc_of_Z 5; y1 := Qc_of_Z 205;
            sourceLinks := [0; 1]%nat; targetLinks := [] |};
         {| layer := 1; y0 := Qc_of_Z 5; y1 := Qc_of_Z 105;
            sourceLinks := []; targetLinks := [0%nat] |};
         {| layer := 1; y0 := Qc_of_Z 120; y1 := Qc_of_Z 220;
            sourceLinks := []; targetLinks := [1%nat] |};
         {| layer := 7; y0 := Qc_of_Z 1; y1 := Qc_of_Z 2;
            sourceLinks := []; targetLinks := [] |} ];
     layout_links :=
       [ {| link_y0 := Qc_of_Z 55; link_y1 := Qc_of_Z 55 |};
         {| link_y0 := Qc_of_Z 155; link_y1 := Qc_of_Z 170 |} ] |}.

(** An agency list in which the name ["Other"] itself is listed. *)
Definition other_listed : State :=
  {| categories :=
       {| object_class := ["Pay"]; budget_function := ["Health"];
          agency := ["Defense"; "Other"] |};
     amounts :=
       [ {| a_object_class := "Pay"; a_budget_function := "Health";
            a_agency := "Other"; a_amount := 3%float |} ] |}.

(* ================================================================= *)
(** ** Amount Loader: [download_amounts] *)

(** An element of [requests]: the two category entries and the outcome of
    the query for their identifiers. *)
Record AmountRequest := {
  q_object_class : Z * string;
  q_budget_function : Z * string;
  q_request : Result (list ApiResult)
}.

(** The first pair of loops: one request per object class and budget
    function; [post oc bf] is the outcome of the query filtered by the
    identifiers [oc] and [bf]. *)
Definition amount_requests (post : Z → Z → Result (list ApiResult))
    (cats : Categories (Z * string)) : list AmountRequest :=
  fold_left
    (λ requests object_class,
       fold_left
         (λ requests budget_function,
            requests ++ [{| q_object_class := object_class;
                            q_budget_function := budget_function;
                            q_request := post object_class.1 budget_function.1 |}])
         (budget_function cats) requests)
    (object_class cats) [].

(** The record pushed for one result of the response to [request]. *)
Definition amount_record (request : AmountRequest) (result : ApiResult)
  : AmountRecord :=
  {| a_object_class := (q_object_class request).2;
     a_budget_function := (q_budget_function request).2;
     a_agency := r_name result;
     a_amount := r_amount result |}.

(** The second loop, over [requests]. *)
Fixpoint await_amounts (requests : list AmountRequest) (amounts : list AmountRecord)
  : Result (list AmountRecord) :=
  match requests with
  | [] => Ok amounts
  | request :: rest =>
      response ← q_request request;
      await_amounts rest
        (fold_left (λ amounts result, amounts ++ [amount_record request result])
           response amounts)
  end.

Definition download_amounts (post : Z → Z → Result (list ApiResult))
    (cats : Categories (Z * string)) (amounts : list AmountRecord)
  : Result (list AmountRecord) :=
  await_amounts (amount_requests post cats) amounts.

(** [main] up to the call of [create_graph] in [visualize]: the globals
    start as [{}] and [[]]. *)
Definition main_graph (post : string → Result (list ApiResult))
    (post_amounts : Z → Z → Result (list ApiResult)) : Result Graph :=
  raw ← download_categories post;
  amounts ← download_amounts post_amounts raw [];
  Ok (create_graph (clean_data raw amounts)).

(* ================================================================= *)
(** ** Renderer: [color] *)

Definition palette : list string :=
  ["#4285f4"; "#db4437"; "#f4b400"; "#0f9d58"; "#ff6d00"; "#ab30c4"].

(** [color(node)] for a link [node] with the label [names]; [None] is
    [undefined], the element of the palette at an index that is [-1] or
    past its end.  An empty label has [names[0]] undefined, which
    [indexOf] does not find. *)
Definition color (cats : Categories string) (node : GraphLink) : option string :=
  let index :=
    match names node with
    | [] => (-1)%Z
    | first :: _ => indexOf (object_class cats) first
    end in
  if (index <? 0)%Z then None else palette !! Z.to_nat index.

(* ================================================================= *)
(** ** Further vocabulary *)

(** The records that the Amount Loader makes of the response for one
    pair of entries. *)
Definition records_of (oc bf : Z * string) (response : list ApiResult)
  : list AmountRecord :=
  (λ result,
     {| a_object_class := oc.2; a_budget_function := bf.2;
        a_agency := r_name result; a_amount := r_amount result |}) <$> response.

(** Every non-zero result of the responses carries a known type. *)
Definition well_typed (results : list ApiResult) : Prop :=
  ∀ r, r ∈ results → nonzero (r_amount r) → r_type r ∈ category_types.

(** *** The ends of the links *)

(** The links that a node refers to by one of its two arrays, and the
    ordinate of a link at the matching end: [sourceLinks] goes with
    [link.y0], [targetLinks] with [link.y1]. *)
Definition link_refs (source_side : bool) (node : LaidNode) : list nat :=
  if source_side then sourceLinks node else targetLinks node.

Definition link_end (source_side : bool) (link : LaidLink) : Qc :=
  if source_side then link_y0 link else link_y1 link.

(** Link [j] is referred to at that end by node [i], once, and by no
    other node. *)
Definition sole_end (source_side : bool) (g : Layout) (i j : nat) : Prop :=
  (∃ node, layout_nodes g !! i = Some node ∧
     j ∈ link_refs source_side node ∧ NoDup (link_refs source_side node)) ∧
  ∀ (i' : nat) node', layout_nodes g !! i' = Some node' → i' ≠ i →
    j ∉ link_refs source_side node'.

(* ================================================================= *)
(** ** More sample inputs *)

(** A response with a non-zero result of a type that is no category. *)
Definition post_unknown_type (category : string) : Result (list ApiResult) :=
  if decide (category = "object_class") then
    Ok [ {| r_id := 3; r_type := "award"; r_name := "Grant";
            r_amount := 5%float |} ]
  else Ok [].

(** A table with one object class, one budget function and two agencies,
    the responses that give it, and the response for its one pair. *)
Definition raw_ab : Categories (Z * string) :=
  {| object_class := [(10%Z, "A")];
     budget_function := [(20%Z, "B")];
     agency := [(1%Z, "X"); (2%Z, "Y")] |}.

Definition xy_results : list ApiResult :=
  [ {| r_id := 1; r_type := "agency"; r_name := "X"; r_amount := 50%float |};
    {| r_id := 2; r_type := "agency"; r_name := "Y"; r_amount := 30%float |} ].

Definition post_ab (category : string) : Result (list ApiResult) :=
  if decide (category = "object_class") then
    Ok [ {| r_id := 10; r_type := "object_class"; r_name := "A";
            r_amount := 80%float |} ]
  else if decide (category = "budget_function") then
    Ok [ {| r_id := 20; r_type := "budget_function"; r_name := "B";
            r_amount := 80%float |} ]
  else Ok xy_results.

Definition post_amounts_ab (oc bf : Z) : Result (list ApiResult) :=
  if decide (oc = 10%Z ∧ bf = 20%Z) then Ok xy_results else Err RequestFailed.

(** A laid-out graph of one node and one link that ends at the node and
    starts at no node. *)
Definition one_node_one_link : Layout :=
  {| layout_nodes :=
       [ {| layer := 0; y0 := Qc_of_Z 5; y1 := Qc_of_Z 105;
            sourceLinks := []; targetLinks := [0%nat] |} ];
     layout_links :=
       [ {| link_y0 := Qc_of_Z 40; link_y1 := Qc_of_Z 55 |} ] |}.

(** An object class list that names ["A"] twice. *)
Definition same_name_twice : State :=
  {| categories :=
       {| object_class := ["A"; "A"]; budget_function := ["B"]; agency := ["X"] |};
     amounts :=
       [ {| a_object_class := "A"; a_budget_function := "B";
            a_agency := "X"; a_amount := 50%float |} ] |}.

(** An object class that bears the name ["__proto__"]. *)
Definition proto_listed : State :=
  {| categories :=
       {| object_class := ["__proto__"]; budget_function := ["B"];
          agency := ["X"] |};
     amounts :=
       [ {| a_object_class := "__proto__"; a_budget_function := "B";
            a_agency := "X"; a_amount := 50%float |} ] |}.

(** Four amounts of one pair, two of them negative.  A decimal literal
    is the number nearest to it, as [JSON.parse] reads it.  The four
    numbers add up to 0 exactly, and to a number above 0 when they are
    added one by one with rounding. *)
#[warnings="-inexact-float"] Definition cancelling_amounts : list float :=
  [92696.64; 20844.68; -57763.77; -55777.55]%float.

Definition cancelling_records : State :=
  {| categories :=
       {| object_class := ["A"]; budget_function := ["B"];
          agency := ["W"; "X"; "Y"; "Z"] |};
     amounts :=
       zip_with
         (λ ag x, {| a_object_class := "A"; a_budget_function := "B";
                     a_agency := ag; a_amount := x |})
         ["W"; "X"; "Y"; "Z"] cancelling_amounts |}.

(** The layout [two_nodes] on the numbers of the code. *)
Definition two_nodes_binary64 : Binary64.Layout :=
  {| Binary64.layout_nodes :=
       [ {| Binary64.layer := 0; Binary64.y0 := 5; Binary64.y1 := 205;
            Binary64.sourceLinks := [0; 1]%nat; Binary64.targetLinks := [] |};
         {| Binary64.layer := 1; Binary64.y0 := 5; Binary64.y1 := 105;
            Binary64.sourceLinks := []; Binary64.targetLinks := [0%nat] |};
         {| Binary64.layer := 1; Binary64.y0 := 120; Binary64.y1 := 220;
            Binary64.sourceLinks := []; Binary64.targetLinks := [1%nat] |};
         {| Binary64.layer := 7; Binary64.y0 := 1; Binary64.y1 := 2;
            Binary64.sourceLinks := []; Binary64.targetLinks := [] |} ];
     Binary64.layout_links :=
       [ {| Binary64.link_y0 := 55; Binary64.link_y1 := 55 |};
         {| Binary64.link_y0 := 155; Binary64.link_y1 := 170 |} ] |}.

(** Three amounts of one pair, the first of one agency and the others of
    a second, whose sum depends on the order of the additions. *)
#[warnings="-inexact-float"] Definition order_records : State :=
  {| categories :=
       {| object_class := ["A"]; budget_function := ["B"]; agency := ["X"; "Y"] |};
     amounts :=
       [ {| a_object_class := "A"; a_budget_function := "B";
            a_agency := "X"; a_amount := 719.68 |};
         {| a_object_class := "A"; a_budget_function := "B";
            a_agency := "Y"; a_amount := 479.97 |};
         {| a_object_class := "A"; a_budget_function := "B";
            a_agency := "Y"; a_amount := 758.28 |} ] |}.
(* ================================================================= *)
(** * Properties *)

(* ================================================================= *)
(** ** Data Cleaner *)

Lemma indexOf_from_absent (l : list string) (x : string) (i : Z) :
  x ∉ l → indexOf_from l x i = (-1)%Z.
Proof.
  revert i. induction l as [|y l IH]; intros i Hx; simpl; [done|].
  apply not_elem_of_cons in Hx as [Hne Hx].
  case_decide; [congruence | by apply IH].
Qed.

Lemma indexOf_from_present (l : list string) (x : string) (i : Z) :
  x ∈ l →
  ∃ k : nat, indexOf_from l x i = (i + Z.of_nat k)%Z ∧ l !! k = Some x.
Proof.
  revert i. induction l as [|y l IH]; intros i Hx; simpl.
  - by apply elem_of_nil in Hx.
  - case_decide as Hy.
    + exists 0%nat. split; [lia | by subst].
    + apply elem_of_cons in Hx as [->|Hx]; [done|].
      destruct (IH (i + 1)%Z Hx) as (k & Hk & Hl).
      exists (S k). split; [lia | done].
Qed.

Lemma indexOf_absent (l : list string) (x : string) :
  x ∉ l → indexOf l x = (-1)%Z.
Proof. apply indexOf_from_absent. Qed.

Lemma splice_nonneg {A} (l : list A) (n : Z) :
  (0 ≤ n)%Z → splice l n = take (Z.to_nat n) l.
Proof.
  intros Hn. unfold splice.
  destruct (Z.ltb_spec n 0) as [?|_]; [lia|].
  destruct (decide (n ≤ Z.of_nat (length l))%Z) as [Hle|Hgt].
  - by rewrite Z.min_l.
  - rewrite Z.min_r, Nat2Z.id by lia.
    rewrite !firstn_all2; [done | lia | lia].
Qed.

(** What consolidation does to one record, by the place of its agency in
    the agency list. *)
Lemma consolidated_agency_cases (n : Z) (l : list string) (amount : AmountRecord) :
  (0 ≤ n)%Z →
  let amount' :=
    if (indexOf l (a_agency amount) >=? n)%Z then set_agency amount "Other"
    else amount in
  a_agency amount' ∈ take (Z.to_nat n) l ∨
  a_agency amount' = "Other" ∨
  ((a_agency amount ∉ l) ∧ amount' = amount).
Proof.
  intros Hn. simpl.
  destruct (decide (a_agency amount ∈ l)) as [Hin|Hout].
  - destruct (indexOf_from_present l _ 0 Hin) as (k & Hk & Hl).
    unfold indexOf. rewrite Hk.
    destruct (Z.geb_spec (0 + Z.of_nat k) n) as [Hge|Hlt]; [by right; left|].
    left. apply list_elem_of_lookup. exists k.
    rewrite lookup_take_lt by lia. done.
  - rewrite (indexOf_absent _ _ Hout).
    destruct (Z.geb_spec (-1) n) as [?|_]; [lia|]. by right; right.
Qed.

(** C1, as the code has it.  For a cutoff [n ≥ 0], consolidation leaves in
    the agency list its first [n] names (all of them when there are fewer
    than [n]) followed by ["Other"], so [min n len + 1] entries, which is
    [n + 1] when at least [n] agencies were listed.  Every record keeps its
    other fields; a record whose agency occurs in the agency list has
    afterwards an agency that is one of the first [n] original names or
    ["Other"]; and when the listed names are pairwise distinct and
    ["Other"] is not one of the excluded names, no record has afterwards
    one of the excluded names as its agency. *)
Theorem consolidate_agencies_spec (n : Z) (st : State) :
  (0 ≤ n)%Z →
  let st' := consolidate_agencies n st in
  let old := agency (categories st) in
  agency (categories st') = take (Z.to_nat n) old ++ ["Other"] ∧
  length (agency (categories st')) = (Z.to_nat n `min` length old + 1)%nat ∧
  ((Z.to_nat n ≤ length old)%nat →
   length (agency (categories st')) = (Z.to_nat n + 1)%nat) ∧
  length (amounts st') = length (amounts st) ∧
  ∀ (i : nat) (amount : AmountRecord), amounts st !! i = Some amount →
    ∃ amount', amounts st' !! i = Some amount' ∧
      a_object_class amount' = a_object_class amount ∧
      a_budget_function amount' = a_budget_function amount ∧
      a_amount amount' = a_amount amount ∧
      (a_agency amount ∈ old →
       a_agency amount' ∈ take (Z.to_nat n) old ∨ a_agency amount' = "Other") ∧
      (NoDup old → "Other" ∉ drop (Z.to_nat n) old →
       a_agency amount' ∉ drop (Z.to_nat n) old).
Proof.
  intros Hn st' old.
  assert (agency (categories st') = take (Z.to_nat n) old ++ ["Other"]) as Hag.
  { subst st' old. simpl. by rewrite splice_nonneg. }
  assert (length (agency (categories st')) = (Z.to_nat n `min` length old + 1)%nat)
    as Hlen.
  { rewrite Hag, length_app, length_take. done. }
  split; [done|]. split; [done|]. split; [lia|].
  split; [apply length_fmap|].
  clear Hag Hlen. intros i amount Hi. subst st' old. simpl.
  rewrite list_lookup_fmap, Hi. simpl. eexists. split; [done|].
  pose proof (consolidated_agency_cases n (agency (categories st)) amount Hn)
    as Hcases. simpl in Hcases.
  split_and!; try by (destruct (_ >=? _)%Z).
  - intros Hin. destruct Hcases as [H|[H|[H _]]]; [by left | by right | done].
  - intros Hnodup Hother. destruct Hcases as [H|[H|[H Heq]]].
    + rewrite <- (take_drop (Z.to_nat n) (agency (categories st))) in Hnodup.
      apply list.NoDup_app in Hnodup as (_ & Hdisjoint & _). by apply Hdisjoint.
    + by rewrite H.
    + rewrite Heq. intros Hin. apply H.
      rewrite <- (take_drop (Z.to_nat n) (agency (categories st))).
      apply elem_of_app. by right.
Qed.

Lemma consolidate_agencies_spec_witness :
  (0 ≤ 2)%Z ∧
  agency (categories (consolidate_agencies 2 three_agencies))
  = ["Defense"; "Energy"; "Other"].
Proof.
  split; [lia | apply (consolidate_agencies_spec 2 three_agencies); lia].
Defined.

(** C1 as stated fails at the cutoff of [clean_data] when fewer agencies
    are listed than the cutoff, and for a record of an unlisted agency. *)
Lemma consolidation_claim_counterexample :
  let st' := consolidate_agencies 18 one_agency in
  length (agency (categories st')) = 2%nat ∧
  (∃ amount, amount ∈ amounts st' ∧
     ¬ (a_agency amount ∈ take 18 (agency (categories one_agency)) ∨
        a_agency amount = "Other")) ∧
  ¬ consolidation_claim 18 one_agency.
Proof.
  split; [reflexivity|]. split.
  - eexists. split; [by apply list_elem_of_here|].
    simpl. intros [Hin|Heq]; [|discriminate Heq].
    apply list_elem_of_singleton in Hin. discriminate Hin.
  - intros [Hlen _]. vm_compute in Hlen. discriminate Hlen.
Qed.

(** Why the last part of C1 needs ["Other"] not to be an excluded name:
    a record of a listed agency ["Other"] beyond the cutoff is rewritten
    to the excluded name itself. *)
Example consolidate_agencies_other_excluded :
  let st' := consolidate_agencies 1 other_listed in
  a_agency <$> amounts st' = ["Other"] ∧
  "Other" ∈ drop 1 (agency (categories other_listed)).
Proof. split; [reflexivity | by left]. Qed.

(** C9.  For a cutoff [n ≥ 0], a record whose agency does not occur in the
    agency list is looked up at index [-1], below the cutoff, and is left
    as it was. *)
Theorem consolidate_agencies_unlisted (n : Z) (st : State)
    (i : nat) (amount : AmountRecord) :
  (0 ≤ n)%Z →
  amounts st !! i = Some amount →
  a_agency amount ∉ agency (categories st) →
  indexOf (agency (categories st)) (a_agency amount) = (-1)%Z ∧
  amounts (consolidate_agencies n st) !! i = Some amount.
Proof.
  intros Hn Hi Hout. split; [by apply indexOf_absent|].
  simpl. rewrite list_lookup_fmap, Hi. simpl.
  rewrite (indexOf_absent _ _ Hout).
  destruct (Z.geb_spec (-1) n) as [?|_]; [lia | done].
Qed.

Lemma consolidate_agencies_unlisted_witness :
  (0 ≤ 2)%Z ∧
  amounts (consolidate_agencies 2 three_agencies) !! 2%nat
  = Some {| a_object_class := "Pay"; a_budget_function := "Health";
            a_agency := "Treasury"; a_amount := 7%float |}.
Proof.
  split; [lia|].
  apply (consolidate_agencies_unlisted 2 three_agencies 2);
    [lia | reflexivity |].
  apply (bool_decide_unpack _). vm_compute. exact I.
Defined.

(* ================================================================= *)
(** ** Category Loader *)

Lemma retained_of_cons (c : string) (r : ApiResult) (rs : list ApiResult) :
  retained_of c (r :: rs) =
  if decide (r_type r = c ∧ nonzero (r_amount r))
  then (r_id r, r_name r) :: retained_of c rs
  else retained_of c rs.
Proof.
  unfold retained_of, retained. rewrite filter_cons.
  destruct (decide (r_type r = c)) as [Hc|Hc].
  - rewrite filter_cons.
    destruct (decide (nonzero (r_amount r))) as [Ha|Ha].
    + rewrite decide_True by done. done.
    + rewrite decide_False by tauto. done.
  - rewrite decide_False by tauto. done.
Qed.

Lemma retained_of_app (c : string) (rs1 rs2 : list ApiResult) :
  retained_of c (rs1 ++ rs2) = retained_of c rs1 ++ retained_of c rs2.
Proof. unfold retained_of, retained. by rewrite !list.filter_app, fmap_app. Qed.

Lemma retained_of_same_type (c : string) (rs : list ApiResult) :
  (∀ r, r ∈ rs → r_type r = c) → retained_of c rs = retained rs.
Proof.
  intros Hty. unfold retained_of. f_equal.
  induction rs as [|r rs IH]; [done|].
  rewrite filter_cons, decide_True by (apply Hty; left).
  f_equal. apply IH. intros r' Hr'. apply Hty. by right.
Qed.

Lemma retained_of_other_type (c : string) (rs : list ApiResult) :
  (∀ r, r ∈ rs → r_type r ≠ c) → retained_of c rs = [].
Proof.
  intros Hty. induction rs as [|r rs IH]; [done|].
  rewrite retained_of_cons, decide_False.
  - apply IH. intros r' Hr'. apply Hty. by right.
  - intros [Hc _]. by apply (Hty r); [left|].
Qed.

(** The inner loop appends to each array the retained pairs of its type;
    it throws only on a non-zero result of an unknown type. *)
Lemma collect_results_ok (results : list ApiResult) (c : Categories (Z * string)) :
  (∀ r, r ∈ results → nonzero (r_amount r) → r_type r ∈ category_types) →
  collect_results results c =
  Ok {| object_class := object_class c ++ retained_of "object_class" results;
        budget_function := budget_function c ++ retained_of "budget_function" results;
        agency := agency c ++ retained_of "agency" results |}.
Proof.
  revert c. induction results as [|r rs IH]; intros c Hty; simpl.
  - unfold retained_of, retained. simpl. rewrite !app_nil_r. by destruct c.
  - assert (∀ r', r' ∈ rs → nonzero (r_amount r') → r_type r' ∈ category_types) as Hrs.
    { intros r' Hr'. apply Hty. by right. }
    rewrite !retained_of_cons.
    destruct (decide (nonzero (r_amount r))) as [Ha|Ha].
    + pose proof (Hty r ltac:(left) Ha) as Hin.
      unfold category_types in Hin.
      rewrite !elem_of_cons, elem_of_nil in Hin.
      unfold push_category.
      destruct Hin as [Hc|[Hc|[Hc|[]]]]; rewrite Hc; simpl;
        rewrite IH by done; simpl;
        repeat (rewrite decide_True by done);
        repeat (rewrite decide_False by (intros [? ?]; done));
        by rewrite <- ?app_assoc.
    + rewrite IH by done.
      by repeat (rewrite decide_False by tauto).
Qed.

(** C7.  When the three requests succeed and every result with a non-zero
    amount carries one of the three category types, the loader returns a
    table; under each type it holds, in the order of the responses, the
    (identifier, name) pairs of exactly the results of that type whose
    amount is not zero.  When each response carries only results of the
    requested type, the array of a type is the retained part of its own
    response. *)
Theorem download_categories_retains (post : string → Result (list ApiResult))
    (oc bf ag : list ApiResult) :
  post "object_class" = Ok oc →
  post "budget_function" = Ok bf →
  post "agency" = Ok ag →
  (∀ r, r ∈ oc ++ bf ++ ag → nonzero (r_amount r) → r_type r ∈ category_types) →
  download_categories post =
  Ok {| object_class := retained_of "object_class" (oc ++ bf ++ ag);
        budget_function := retained_of "budget_function" (oc ++ bf ++ ag);
        agency := retained_of "agency" (oc ++ bf ++ ag) |} ∧
  ((∀ r, r ∈ oc → r_type r = "object_class") →
   (∀ r, r ∈ bf → r_type r = "budget_function") →
   (∀ r, r ∈ ag → r_type r = "agency") →
   download_categories post =
   Ok {| object_class := retained oc;
         budget_function := retained bf;
         agency := retained ag |}).
Proof.
  intros Hoc Hbf Hag Hty.
  assert (download_categories post =
    Ok {| object_class := retained_of "object_class" (oc ++ bf ++ ag);
          budget_function := retained_of "budget_function" (oc ++ bf ++ ag);
          agency := retained_of "agency" (oc ++ bf ++ ag) |}) as Hgen.
  { unfold download_categories. simpl. rewrite Hoc, Hbf, Hag. simpl.
    rewrite collect_results_ok by (intros; apply Hty; set_solver). simpl.
    rewrite collect_results_ok by (intros; apply Hty; set_solver). simpl.
    rewrite collect_results_ok by (intros; apply Hty; set_solver). simpl.
    by rewrite !retained_of_app, !app_assoc. }
  split; [done|]. intros Toc Tbf Tag. rewrite Hgen. clear Hgen.
  rewrite !retained_of_app.
  rewrite (retained_of_same_type "object_class" oc),
    (retained_of_same_type "budget_function" bf),
    (retained_of_same_type "agency" ag) by done.
  rewrite (retained_of_other_type "object_class" bf),
    (retained_of_other_type "object_class" ag),
    (retained_of_other_type "budget_function" oc),
    (retained_of_other_type "budget_function" ag),
    (retained_of_other_type "agency" oc),
    (retained_of_other_type "agency" bf);
    try (intros r Hr;
         first [rewrite (Toc r Hr) | rewrite (Tbf r Hr) | rewrite (Tag r Hr)];
         done).
  by rewrite !app_nil_r.
Qed.

Lemma personnel_and_ghost_types (r : ApiResult) :
  r ∈ personnel_and_ghost → r_type r = "object_class".
Proof.
  unfold personnel_and_ghost. rewrite !elem_of_cons, elem_of_nil.
  intros [->|[->|[]]]; reflexivity.
Qed.

Lemma download_categories_retains_witness :
  download_categories post_personnel_and_ghost =
  Ok {| object_class := [(1%Z, "Personnel")]; budget_function := []; agency := [] |}.
Proof.
  apply (download_categories_retains post_personnel_and_ghost
           personnel_and_ghost [] [] eq_refl eq_refl eq_refl).
  - intros r Hr _. rewrite !app_nil_r in Hr.
    rewrite (personnel_and_ghost_types r Hr). by left.
  - apply personnel_and_ghost_types.
  - intros r Hr. by apply elem_of_nil in Hr.
  - intros r Hr. by apply elem_of_nil in Hr.
Defined.
(* ================================================================= *)
(** ** Graph Builder *)

(** *** [sum_filter] *)

Lemma sum_filter_acc (amounts : list AmountRecord) (cs : list (Key * string))
    (acc : float) :
  fold_left
    (λ total amount,
       if satisfies amount cs then (total + a_amount amount)%float else total)
    amounts acc
  = fold_left PrimFloat.add
      (a_amount <$> filter (λ a, satisfies a cs = true) amounts) acc.
Proof.
  revert acc. induction amounts as [|a amounts IH]; intros acc; [done|].
  rewrite filter_cons. cbn [fold_left].
  destruct (satisfies a cs) eqn:Ha.
  - rewrite decide_True by done. rewrite fmap_cons. cbn [fold_left]. apply IH.
  - rewrite decide_False by done. apply IH.
Qed.

Lemma total_where_ext (P Q : AmountRecord → Prop)
    `{!∀ a, Decision (P a)} `{!∀ a, Decision (Q a)} (amounts : list AmountRecord) :
  (∀ a, P a ↔ Q a) → total_where P amounts = total_where Q amounts.
Proof.
  intros HPQ. unfold total_where. f_equal. f_equal.
  by apply list_filter_iff.
Qed.

(** [sum_filter] adds, in their order, the amounts of the records that
    satisfy the constraints. *)
Lemma sum_filter_total (amounts : list AmountRecord) (cs : list (Key * string)) :
  sum_filter amounts cs = total_where (λ a, satisfies a cs = true) amounts.
Proof. unfold sum_filter, total_where, float_sum. apply sum_filter_acc. Qed.

Lemma satisfies_cons (a : AmountRecord) (k : Key) (v : string) (cs : list (Key * string)) :
  satisfies a ((k, v) :: cs) = true ↔ get_field a k = v ∧ satisfies a cs = true.
Proof.
  simpl. destruct (decide (get_field a k ≠ v)) as [Hne|Heq].
  - split; [done | intros [? _]; done].
  - apply dec_stable in Heq. tauto.
Qed.

Lemma sum_filter_1 (amounts : list AmountRecord) (oc : string) :
  sum_filter amounts [(Kobject_class, oc)]
  = total_where (λ a, a_object_class a = oc) amounts.
Proof.
  rewrite sum_filter_total. apply total_where_ext. intros a.
  rewrite satisfies_cons. simpl. tauto.
Qed.

Lemma sum_filter_2 (amounts : list AmountRecord) (oc bf : string) :
  sum_filter amounts [(Kobject_class, oc); (Kbudget_function, bf)]
  = total_where (λ a, a_object_class a = oc ∧ a_budget_function a = bf) amounts.
Proof.
  rewrite sum_filter_total. apply total_where_ext. intros a.
  rewrite !satisfies_cons. simpl. tauto.
Qed.

Lemma sum_filter_3 (amounts : list AmountRecord) (oc bf ag : string) :
  sum_filter amounts [(Kobject_class, oc); (Kbudget_function, bf); (Kagency, ag)]
  = total_where
      (λ a, a_object_class a = oc ∧ a_budget_function a = bf ∧ a_agency a = ag)
      amounts.
Proof.
  rewrite sum_filter_total. apply total_where_ext. intros a.
  rewrite !satisfies_cons. simpl. tauto.
Qed.

(** *** Reads and writes of an [ids] object *)

Lemma lookup_set_property_eq (ids : gmap string nat) (c : string) (i : nat) :
  c ≠ "__proto__" → set_property ids c i !! c = Some i.
Proof.
  intros Hc. unfold set_property. rewrite decide_False by done.
  apply lookup_insert_eq.
Qed.

Lemma lookup_set_property_ne (ids : gmap string nat) (c' c : string) (i : nat) :
  c' ≠ c → set_property ids c' i !! c = ids !! c.
Proof.
  intros Hne. unfold set_property. case_decide; [done|].
  by apply lookup_insert_ne.
Qed.

Lemma proto_inherited : "__proto__" ∈ object_prototype.
Proof. apply (bool_decide_unpack _). by vm_compute. Qed.

Lemma get_property_Index (ids : gmap string nat) (c : string) (i : nat) :
  get_property ids c = Index i ↔ ids !! c = Some i.
Proof.
  unfold get_property. destruct (ids !! c) as [j|].
  - split; congruence.
  - case_decide; split; congruence.
Qed.

(** *** [gen_ids] *)

Lemma gen_ids_snoc (cats : list string) (c : string) (nodes : list GraphNode) :
  gen_ids (cats ++ [c]) nodes =
  (set_property (gen_ids cats nodes).1 c (length (gen_ids cats nodes).2),
   (gen_ids cats nodes).2 ++ [{| name := c |}]).
Proof. unfold gen_ids. by rewrite fold_left_app. Qed.

Lemma gen_ids_nodes (cats : list string) (nodes : list GraphNode) :
  (gen_ids cats nodes).2 = nodes ++ (Build_GraphNode <$> cats).
Proof.
  induction cats as [|c cats IH] using rev_ind.
  - simpl. by rewrite app_nil_r.
  - rewrite gen_ids_snoc. simpl. by rewrite IH, fmap_app, app_assoc.
Qed.

(** The name ["__proto__"] never becomes an own property. *)
Lemma gen_ids_own_proto (cats : list string) (nodes : list GraphNode) :
  (gen_ids cats nodes).1 !! "__proto__" = None.
Proof.
  induction cats as [|c cats IH] using rev_ind; [done|].
  rewrite gen_ids_snoc. simpl. unfold set_property.
  case_decide as Hc; [done|]. by rewrite lookup_insert_ne.
Qed.

(** A name that is not listed does not become an own property. *)
Lemma gen_ids_own_unlisted (cats : list string) (nodes : list GraphNode) (c : string) :
  c ∉ cats → (gen_ids cats nodes).1 !! c = None.
Proof.
  induction cats as [|c' cats IH] using rev_ind; intros Hout; [done|].
  apply not_elem_of_app in Hout as [Hout Hne].
  rewrite list_elem_of_singleton in Hne.
  rewrite gen_ids_snoc. simpl. rewrite lookup_set_property_ne by done.
  by apply IH.
Qed.

(** A listed name other than ["__proto__"] has as own property the index
    of the node appended for its last occurrence. *)
Lemma gen_ids_own_last (cats : list string) (nodes : list GraphNode)
    (c : string) (k : nat) :
  c ≠ "__proto__" →
  cats !! k = Some c →
  (∀ k' : nat, (k < k')%nat → cats !! k' ≠ Some c) →
  (gen_ids cats nodes).1 !! c = Some (length nodes + k)%nat.
Proof.
  intros Hc. revert k.
  induction cats as [|c' cats IH] using rev_ind; intros k Hk Hlast.
  - by rewrite lookup_nil in Hk.
  - rewrite gen_ids_snoc. simpl.
    destruct (decide (c' = c)) as [->|Hne].
    + rewrite lookup_set_property_eq by done.
      rewrite gen_ids_nodes, length_app, length_fmap.
      destruct (decide (k = length cats)) as [->|Hk']; [done|].
      exfalso. apply (Hlast (length cats)).
      * apply lookup_lt_Some in Hk. rewrite length_app in Hk. simpl in Hk. lia.
      * by rewrite list_lookup_middle.
    + rewrite lookup_set_property_ne by done.
      assert (k < length cats)%nat as Hlt.
      { destruct (decide (k < length cats)%nat) as [|Hge]; [done|].
        apply lookup_lt_Some in Hk as Hk'. rewrite length_app in Hk'. simpl in Hk'.
        assert (k = length cats) as -> by lia.
        rewrite list_lookup_middle in Hk by done. congruence. }
      rewrite lookup_app_l in Hk by done.
      apply IH; [done|]. intros k' Hk' Hc'.
      apply (Hlast k' Hk'). rewrite lookup_app_l; [done|].
      by eapply lookup_lt_Some.
Qed.

(** No own property is below the number of nodes before the call. *)
Lemma gen_ids_own_ge (cats : list string) (nodes : list GraphNode)
    (c : string) (i : nat) :
  (gen_ids cats nodes).1 !! c = Some i → (length nodes ≤ i)%nat.
Proof.
  revert i. induction cats as [|c' cats IH] using rev_ind; intros i; [done|].
  rewrite gen_ids_snoc. simpl. unfold set_property.
  case_decide as Hp; [apply IH|].
  destruct (decide (c' = c)) as [->|Hne].
  - rewrite lookup_insert_eq. intros [= <-].
    rewrite gen_ids_nodes, length_app. lia.
  - rewrite lookup_insert_ne by done. apply IH.
Qed.

Lemma last_occurrence (l : list string) (c : string) :
  c ∈ l →
  ∃ k : nat, l !! k = Some c ∧ ∀ k' : nat, (k < k')%nat → l !! k' ≠ Some c.
Proof.
  induction l as [|x l IH] using rev_ind; intros Hc.
  - by apply elem_of_nil in Hc.
  - destruct (decide (x = c)) as [->|Hne].
    + exists (length l). split; [by rewrite list_lookup_middle|].
      intros k' Hk' Hl. apply lookup_lt_Some in Hl.
      rewrite length_app in Hl. simpl in Hl. lia.
    + apply elem_of_app in Hc as [Hc|Hc];
        [|apply list_elem_of_singleton in Hc; done].
      destruct (IH Hc) as (k & Hk & Hlast).
      exists k. split; [by apply lookup_app_l_Some|].
      intros k' Hk' Hl.
      destruct (decide (k' < length l)%nat) as [Hlt|Hge].
      * rewrite lookup_app_l in Hl by done. by apply (Hlast k').
      * apply lookup_lt_Some in Hl as Hl'. rewrite length_app in Hl'. simpl in Hl'.
        assert (k' = length l) as -> by lia.
        rewrite list_lookup_middle in Hl by done. congruence.
Qed.

(** A read of a listed name other than ["__proto__"] gives the index of a
    node of that name that [gen_ids] has appended. *)
Lemma gen_ids_lookup (cats : list string) (nodes : list GraphNode) (c : string) :
  c ∈ cats → c ≠ "__proto__" →
  ∃ i : nat, get_property (gen_ids cats nodes).1 c = Index i ∧
    (length nodes ≤ i < length nodes + length cats)%nat ∧
    (gen_ids cats nodes).2 !! i = Some {| name := c |}.
Proof.
  intros Hin Hc. destruct (last_occurrence cats c Hin) as (k & Hk & Hlast).
  exists (length nodes + k)%nat. split_and!.
  - apply get_property_Index. by apply gen_ids_own_last.
  - lia.
  - apply lookup_lt_Some in Hk. lia.
  - rewrite gen_ids_nodes, lookup_app_r by lia.
    replace (length nodes + k - length nodes)%nat with k by lia.
    by rewrite list_lookup_fmap, Hk.
Qed.

(** A read of ["__proto__"] gives the prototype, listed or not. *)
Lemma gen_ids_proto (cats : list string) (nodes : list GraphNode) :
  get_property (gen_ids cats nodes).1 "__proto__" = Inherited "__proto__".
Proof.
  unfold get_property. rewrite gen_ids_own_proto.
  by rewrite decide_True by apply proto_inherited.
Qed.

(** No read gives the index of one of the nodes before the call. *)
Lemma gen_ids_not_before (cats : list string) (nodes : list GraphNode)
    (c : string) (i : nat) :
  (i < length nodes)%nat → get_property (gen_ids cats nodes).1 c ≠ Index i.
Proof.
  intros Hi Hget. apply get_property_Index, gen_ids_own_ge in Hget. lia.
Qed.

(** *** The links, in the order in which they are pushed *)

Lemma fold_left_push {A B} (step : list B → A → list B) (f : A → list B) :
  (∀ acc x, step acc x = acc ++ f x) →
  ∀ l acc, fold_left step l acc = acc ++ (l ≫= f).
Proof.
  intros Hstep. induction l as [|x l IH]; intros acc; simpl.
  - by rewrite app_nil_r.
  - by rewrite IH, Hstep, app_assoc.
Qed.

Lemma agency_step_links (st : State) (oc bf : string) (acc : list GraphLink) (ag : string) :
  agency_step (amounts st) (budget_function_ids st) (agency_ids st) oc bf acc ag
  = acc ++ agency_links st oc bf ag.
Proof.
  unfold agency_step, agency_links. simpl.
  case_decide; [done | by rewrite app_nil_r].
Qed.

Lemma budget_function_step_links (st : State) (oc : string)
    (acc : list GraphLink) (bf : string) :
  budget_function_step (amounts st) (categories st) (object_class_ids st)
    (budget_function_ids st) (agency_ids st) oc acc bf
  = acc ++ budget_function_links st oc bf.
Proof.
  unfold budget_function_step, budget_function_links.
  rewrite (fold_left_push _ _ (agency_step_links st oc bf)). simpl.
  case_decide; simpl; by rewrite <- ?app_assoc.
Qed.

Lemma object_class_step_links (st : State) (acc : list GraphLink) (oc : string) :
  object_class_step (amounts st) (categories st) (object_class_ids st)
    (budget_function_ids st) (agency_ids st) acc oc
  = acc ++ object_class_links st oc.
Proof.
  unfold object_class_step, object_class_links.
  rewrite (fold_left_push _ _ (budget_function_step_links st oc)).
  by rewrite <- app_assoc.
Qed.

Lemma create_graph_links (st : State) :
  links (create_graph st) = object_class (categories st) ≫= object_class_links st.
Proof.
  unfold create_graph. simpl.
  apply (fold_left_push _ _ (object_class_step_links st)).
Qed.

Lemma create_graph_nodes (st : State) :
  nodes (create_graph st) =
  root_node :: (Build_GraphNode <$> object_class (categories st))
    ++ (Build_GraphNode <$> budget_function (categories st))
    ++ (Build_GraphNode <$> agency (categories st)).
Proof.
  unfold create_graph. simpl. rewrite !gen_ids_nodes. simpl.
  by rewrite <- !app_assoc.
Qed.

Lemma elem_of_agency_links (st : State) (oc bf ag : string) (e : GraphLink) :
  e ∈ agency_links st oc bf ag ↔
  positive (value (agency_link st oc bf ag)) ∧ e = agency_link st oc bf ag.
Proof.
  unfold agency_links. case_decide.
  - rewrite list_elem_of_singleton. tauto.
  - rewrite elem_of_nil. tauto.
Qed.

Lemma elem_of_budget_function_links (st : State) (oc bf : string) (e : GraphLink) :
  e ∈ budget_function_links st oc bf ↔
  (positive (value (budget_function_link st oc bf)) ∧
   e = budget_function_link st oc bf) ∨
  (∃ ag, ag ∈ agency (categories st) ∧
     positive (value (agency_link st oc bf ag)) ∧ e = agency_link st oc bf ag).
Proof.
  unfold budget_function_links. rewrite elem_of_app, list_elem_of_bind.
  setoid_rewrite elem_of_agency_links.
  assert (e ∈ (if decide (positive (value (budget_function_link st oc bf)))
               then [budget_function_link st oc bf] else [])
          ↔ positive (value (budget_function_link st oc bf)) ∧
            e = budget_function_link st oc bf) as ->.
  { case_decide; [rewrite list_elem_of_singleton | rewrite elem_of_nil]; tauto. }
  split.
  - intros [H|(ag & H & Hag)]; [by left|]. right. by exists ag.
  - intros [H|(ag & Hag & H)]; [by left|]. right. by exists ag.
Qed.

(** Every link of the graph is a root link, or a link of a positive
    amount for a listed pair or triple. *)
Lemma elem_of_links (st : State) (e : GraphLink) :
  e ∈ links (create_graph st) ↔
  ∃ oc, oc ∈ object_class (categories st) ∧
    (e = root_link st oc ∨
     ∃ bf, bf ∈ budget_function (categories st) ∧
       ((positive (value (budget_function_link st oc bf)) ∧
         e = budget_function_link st oc bf) ∨
        (∃ ag, ag ∈ agency (categories st) ∧
           positive (value (agency_link st oc bf ag)) ∧
           e = agency_link st oc bf ag))).
Proof.
  rewrite create_graph_links, list_elem_of_bind.
  unfold object_class_links.
  setoid_rewrite elem_of_cons. setoid_rewrite list_elem_of_bind.
  setoid_rewrite elem_of_budget_function_links.
  split.
  - intros (oc & [H|(bf & H & Hbf)] & Hoc); exists oc; (split; [done|]);
      [by left|]. right. by exists bf.
  - intros (oc & Hoc & [H|(bf & Hbf & H)]); exists oc; (split; [|done]);
      [by left|]. right. by exists bf.
Qed.

(** *** The ends of the links *)

Lemma object_class_ids_lookup (st : State) (oc : string) :
  oc ∈ object_class (categories st) → oc ≠ "__proto__" →
  ∃ i : nat, get_property (object_class_ids st) oc = Index i ∧ (1 ≤ i)%nat ∧
    nodes (create_graph st) !! i = Some {| name := oc |}.
Proof.
  intros Hoc Hp.
  destruct (gen_ids_lookup _ [root_node] oc Hoc Hp) as (i & Hi & [Hlo Hhi] & Hnode).
  exists i. split; [done|]. split; [done|].
  unfold create_graph. simpl. rewrite !gen_ids_nodes.
  rewrite gen_ids_nodes in Hnode.
  rewrite <- !app_assoc. rewrite app_assoc. by apply lookup_app_l_Some.
Qed.

Lemma budget_function_ids_lookup (st : State) (bf : string) :
  bf ∈ budget_function (categories st) → bf ≠ "__proto__" →
  ∃ i : nat, get_property (budget_function_ids st) bf = Index i ∧ (1 ≤ i)%nat ∧
    nodes (create_graph st) !! i = Some {| name := bf |}.
Proof.
  intros Hbf Hp.
  destruct (gen_ids_lookup _
              (gen_ids (object_class (categories st)) [root_node]).2 bf Hbf Hp)
    as (i & Hi & [Hlo Hhi] & Hnode).
  exists i. split; [done|]. split.
  - rewrite gen_ids_nodes, length_app in Hlo. simpl in Hlo. lia.
  - unfold create_graph. simpl. rewrite (gen_ids_nodes (agency _)).
    by apply lookup_app_l_Some.
Qed.

Lemma agency_ids_lookup (st : State) (ag : string) :
  ag ∈ agency (categories st) → ag ≠ "__proto__" →
  ∃ i : nat, get_property (agency_ids st) ag = Index i ∧ (1 ≤ i)%nat ∧
    nodes (create_graph st) !! i = Some {| name := ag |}.
Proof.
  intros Hag Hp.
  destruct (gen_ids_lookup _
              (gen_ids (budget_function (categories st))
                 (gen_ids (object_class (categories st)) [root_node]).2).2 ag Hag Hp)
    as (i & Hi & [Hlo Hhi] & Hnode).
  exists i. split; [done|]. split; [|done].
  rewrite !gen_ids_nodes, !length_app in Hlo. simpl in Hlo. lia.
Qed.

(** No read of one of the [ids] objects gives the root. *)
Lemma object_class_ids_not_root (st : State) (c : string) :
  get_property (object_class_ids st) c ≠ Index 0.
Proof. apply gen_ids_not_before. simpl. lia. Qed.

Lemma budget_function_ids_not_root (st : State) (c : string) :
  get_property (budget_function_ids st) c ≠ Index 0.
Proof.
  apply gen_ids_not_before. rewrite gen_ids_nodes, length_app. simpl. lia.
Qed.

(** The links pushed after the root link of an object class do not leave
    the root. *)
Lemma deeper_links_source (st : State) (oc : string) (e : GraphLink) :
  e ∈ budget_function (categories st) ≫= budget_function_links st oc →
  source e ≠ Index 0.
Proof.
  intros He. apply list_elem_of_bind in He as (bf & He & Hbf).
  apply elem_of_budget_function_links in He as [[_ ->]|(ag & _ & _ & ->)]; simpl.
  - apply object_class_ids_not_root.
  - apply budget_function_ids_not_root.
Qed.

Lemma filter_none {A} (P : A → Prop) `{!∀ x, Decision (P x)} (l : list A) :
  (∀ x, x ∈ l → ¬ P x) → filter P l = [].
Proof.
  induction l as [|x l IH]; intros Hl; [done|].
  rewrite filter_cons_False by (apply Hl; left).
  apply IH. intros y Hy. apply Hl. by right.
Qed.

Lemma root_links_of (st : State) (l : list string) :
  filter (λ e, source e = Index 0) (l ≫= object_class_links st)
  = root_link st <$> l.
Proof.
  induction l as [|oc l IH]; [done|].
  rewrite bind_cons, list.filter_app, fmap_cons, IH.
  unfold object_class_links at 1.
  rewrite filter_cons_True by done.
  rewrite filter_none; [done|].
  intros e He. by apply (deeper_links_source st oc).
Qed.

(** In a duplicate-free list, the root link of the entry at position [k],
    when its name is not ["__proto__"], ends at node [k + 1], the node of
    the entry. *)
Lemma root_link_target (st : State) (k : nat) (oc : string) :
  NoDup (object_class (categories st)) →
  object_class (categories st) !! k = Some oc → oc ≠ "__proto__" →
  target (root_link st oc) = Index (S k).
Proof.
  intros Hnd Hk Hp. simpl. apply get_property_Index.
  unfold object_class_ids.
  rewrite (gen_ids_own_last _ _ oc k Hp Hk); [done|].
  intros k' Hlt Hk'. pose proof (NoDup_lookup _ _ _ _ Hnd Hk Hk'). lia.
Qed.

(** Of the root links of a duplicate-free list of names, one ends at the
    node of each entry. *)
Lemma one_root_link_each (st : State) (l : list string) (i : nat) (oc : string) :
  NoDup l →
  (∀ (k : nat) c, l !! k = Some c → target (root_link st c) = Index (S k)) →
  l !! i = Some oc →
  length (filter (λ e, target e = Index (S i)) (root_link st <$> l)) = 1%nat.
Proof.
  intros Hnd Htarget Hi.
  assert (filter (λ e, target e = Index (S i)) (root_link st <$> l)
          = [root_link st oc]) as ->; [|done].
  assert (∀ (k : nat) c, l !! k = Some c → k ≠ i →
            target (root_link st c) ≠ Index (S i)) as Hother.
  { intros k c Hk Hne Ht. rewrite (Htarget k c Hk) in Ht. congruence. }
  rewrite <- (take_drop_middle l i oc Hi).
  rewrite fmap_app, fmap_cons, list.filter_app, filter_cons_True
    by (by apply (Htarget i)).
  apply lookup_lt_Some in Hi as Hlen.
  rewrite !filter_none; [done| |].
  - intros e He. apply list_elem_of_fmap in He as (c & -> & Hc).
    apply list_elem_of_lookup in Hc as [k Hk].
    rewrite lookup_drop in Hk. apply (Hother _ _ Hk). lia.
  - intros e He. apply list_elem_of_fmap in He as (c & -> & Hc).
    apply list_elem_of_lookup in Hc as [k Hk].
    apply lookup_lt_Some in Hk as Hlt. rewrite length_take in Hlt.
    rewrite lookup_take_lt in Hk by lia. apply (Hother _ _ Hk). lia.
Qed.

(** *** The claims about the links *)

(** C2, as the code has it.  The links that leave the root are, in the
    order of the object class list, one link per entry of that list,
    pushed whatever its amount: its label is the one-element path of the
    object class, its value the sum, as the code takes it, of the amounts
    of all records of that object class, and its target what
    [ids[object class]] gives.  No other link leaves the root or has a
    one-element label.  For a name other than ["__proto__"] the target is
    the node of the last entry of that name; so, when the names are
    pairwise distinct and none is ["__proto__"], the node of each entry is
    the target of exactly one link from the root. *)
Theorem root_edges (st : State) :
  let g := create_graph st in
  let listed := object_class (categories st) in
  filter (λ e, source e = Index 0) (links g) =
    (λ oc, {| source := Index 0;
              target := get_property (object_class_ids st) oc;
              names := [oc];
              value := total_where (λ a, a_object_class a = oc) (amounts st) |})
    <$> listed ∧
  (∀ e, e ∈ links g → source e = Index 0 ↔ length (names e) = 1%nat) ∧
  (∀ (k : nat) oc, listed !! k = Some oc → oc ≠ "__proto__" →
     (∀ k' : nat, (k < k')%nat → listed !! k' ≠ Some oc) →
     get_property (object_class_ids st) oc = Index (S k) ∧
     nodes g !! S k = Some {| name := oc |}) ∧
  (NoDup listed → ("__proto__" ∉ listed) → root_edges_claim st) ∧
  nodes g !! 0%nat = Some root_node.
Proof.
  intros g listed. subst listed. split_and!.
  - subst g. rewrite create_graph_links, root_links_of.
    apply list_fmap_ext. intros _ oc _. unfold root_link.
    by rewrite sum_filter_1.
  - intros e He. apply elem_of_links in He as (oc & Hoc & He).
    destruct He as [->|(bf & Hbf & [[_ ->]|(ag & _ & _ & ->)])]; simpl.
    + done.
    + pose proof (object_class_ids_not_root st oc). split; done.
    + pose proof (budget_function_ids_not_root st bf). split; done.
  - intros k oc Hk Hp Hlast. split.
    + apply get_property_Index. unfold object_class_ids.
      by rewrite (gen_ids_own_last _ _ oc k Hp Hk Hlast).
    + subst g. rewrite create_graph_nodes. simpl.
      apply lookup_app_l_Some. by rewrite list_lookup_fmap, Hk.
  - intros Hnd Hp i oc Hi. subst g.
    rewrite (list_filter_iff _
               (λ e, target e = Index (S i) ∧ source e = Index 0))
      by (intros e; tauto).
    rewrite <- list_filter_filter, create_graph_links, root_links_of.
    apply (one_root_link_each st _ i oc Hnd); [|done].
    intros k c Hk. apply root_link_target; [done|done|].
    intros ->. apply Hp. by eapply list_elem_of_lookup_2.
  - subst g. by rewrite create_graph_nodes.
Qed.

Lemma root_edges_witness :
  NoDup (object_class (categories two_records)) ∧
  ("__proto__" ∉ object_class (categories two_records)) ∧
  root_edges_claim two_records.
Proof.
  assert (NoDup (object_class (categories two_records))) as Hnd.
  { apply (bool_decide_unpack _). vm_compute. exact I. }
  assert ("__proto__" ∉ object_class (categories two_records)) as Hp.
  { apply (bool_decide_unpack _). vm_compute. exact I. }
  split; [exact Hnd|]. split; [exact Hp|].
  exact (proj1 (proj2 (proj2 (proj2 (root_edges two_records)))) Hnd Hp).
Defined.

(** C2 as stated fails for an object class list that names ["A"] twice:
    both root links end at node 2, the node of the second entry, and none
    at node 1, the node of the first. *)
Lemma root_edges_claim_counterexample :
  filter (λ e, source e = Index 0) (links (create_graph same_name_twice)) =
    [ {| source := Index 0; target := Index 2; names := ["A"]; value := 50 |};
      {| source := Index 0; target := Index 2; names := ["A"]; value := 50 |} ] ∧
  ¬ root_edges_claim same_name_twice.
Proof.
  split; [by vm_compute|].
  intros Hclaim. specialize (Hclaim 0%nat "A" eq_refl).
  vm_compute in Hclaim. discriminate.
Qed.

(** A root link is pushed for an object class named ["__proto__"] as for
    any other, but its target is no node: the assignment in [gen_ids] has
    stored nothing, and the read gives the prototype. *)
Example create_graph_proto_listed :
  links (create_graph proto_listed) =
  [ {| source := Index 0; target := Inherited "__proto__";
       names := ["__proto__"]; value := 50 |};
    {| source := Inherited "__proto__"; target := Index 2;
       names := ["__proto__"; "B"]; value := 50 |};
    {| source := Index 2; target := Index 3;
       names := ["__proto__"; "B"; "X"]; value := 50 |} ].
Proof. by vm_compute. Qed.

(** C3, as the code has it.  A link labelled with the pair of an object
    class and a budget function is in the graph exactly when both are
    listed and the sum of the records that match both, as the code takes
    it, is above 0, and a link labelled with a triple exactly when the
    three are listed and the sum of the records that match the three is
    above 0; the link then carries that sum, and its ends are what the
    [ids] objects give for the names: for a listed name other than
    ["__proto__"], a node that bears the name. *)
Theorem deeper_edges (st : State) :
  let g := create_graph st in
  let cats := categories st in
  (∀ oc bf e,
     e ∈ links g ∧ names e = [oc; bf] ↔
     oc ∈ object_class cats ∧ bf ∈ budget_function cats ∧
     positive (path_total (amounts st) [oc; bf]) ∧
     e = {| source := get_property (object_class_ids st) oc;
            target := get_property (budget_function_ids st) bf;
            names := [oc; bf];
            value := path_total (amounts st) [oc; bf] |}) ∧
  (∀ oc bf ag e,
     e ∈ links g ∧ names e = [oc; bf; ag] ↔
     oc ∈ object_class cats ∧ bf ∈ budget_function cats ∧ ag ∈ agency cats ∧
     positive (path_total (amounts st) [oc; bf; ag]) ∧
     e = {| source := get_property (budget_function_ids st) bf;
            target := get_property (agency_ids st) ag;
            names := [oc; bf; ag];
            value := path_total (amounts st) [oc; bf; ag] |}) ∧
  (∀ oc, oc ∈ object_class cats → oc ≠ "__proto__" →
     ∃ i : nat, get_property (object_class_ids st) oc = Index i ∧
       nodes g !! i = Some {| name := oc |}) ∧
  (∀ bf, bf ∈ budget_function cats → bf ≠ "__proto__" →
     ∃ i : nat, get_property (budget_function_ids st) bf = Index i ∧
       nodes g !! i = Some {| name := bf |}) ∧
  (∀ ag, ag ∈ agency cats → ag ≠ "__proto__" →
     ∃ i : nat, get_property (agency_ids st) ag = Index i ∧
       nodes g !! i = Some {| name := ag |}).
Proof.
  intros g cats. subst g cats. unfold path_total. split_and!.
  - intros oc bf e. rewrite <- sum_filter_2, elem_of_links. split.
    + intros [(oc' & Hoc & He) Hn].
      destruct He as [->|(bf' & Hbf & [[Hpos ->]|(ag & _ & _ & ->)])];
        simpl in Hn; [done| |done].
      injection Hn as -> ->. done.
    + intros (Hoc & Hbf & Hpos & ->). split; [|done].
      exists oc. split; [done|]. right. exists bf. split; [done|]. by left.
  - intros oc bf ag e. rewrite <- sum_filter_3, elem_of_links. split.
    + intros [(oc' & Hoc & He) Hn].
      destruct He as [->|(bf' & Hbf & [[Hpos ->]|(ag' & Hag & Hpos & ->)])];
        simpl in Hn; [done|done|].
      injection Hn as -> -> ->. done.
    + intros (Hoc & Hbf & Hag & Hpos & ->). split; [|done].
      exists oc. split; [done|]. right. exists bf. split; [done|].
      right. exists ag. done.
  - intros oc Hoc Hp.
    destruct (object_class_ids_lookup st oc Hoc Hp) as (i & Hi & _ & Hn). eauto.
  - intros bf Hbf Hp.
    destruct (budget_function_ids_lookup st bf Hbf Hp) as (i & Hi & _ & Hn). eauto.
  - intros ag Hag Hp.
    destruct (agency_ids_lookup st ag Hag Hp) as (i & Hi & _ & Hn). eauto.
Qed.

Lemma deeper_edges_witness :
  ∃ i : nat, get_property (budget_function_ids two_records) "B" = Index i ∧
    nodes (create_graph two_records) !! i = Some {| name := "B" |}.
Proof.
  apply (deeper_edges two_records).
  - apply (bool_decide_unpack _). vm_compute. exact I.
  - discriminate.
Defined.

(** C3 as stated, with the sum of the amounts taken exactly, fails for
    four amounts that cancel: their sum is 0, but added one by one with
    rounding they leave a number above 0, and the code pushes the pair
    link with that number as its value. *)
Lemma deeper_edges_claim_counterexample :
  exact_path_total (amounts cancelling_records) ["A"; "B"] = 0 ∧
  (∃ e, e ∈ links (create_graph cancelling_records) ∧ names e = ["A"; "B"] ∧
     positive (value e)) ∧
  ¬ deeper_edges_claim cancelling_records.
Proof.
  assert (exact_path_total (amounts cancelling_records) ["A"; "B"] = 0) as Hsum.
  { apply Qc_is_canon. by vm_compute. }
  assert (∃ e, e ∈ links (create_graph cancelling_records) ∧
            names e = ["A"; "B"] ∧ positive (value e)) as Hlink.
  { exists (budget_function_link cancelling_records "A" "B").
    split; [|split; [done | by vm_compute]].
    apply elem_of_links. exists "A". split; [by left|].
    right. exists "B". split; [by left|]. left. split; [by vm_compute | done]. }
  split; [done|]. split; [done|].
  intros [Hpair _].
  destruct Hlink as (e & He & Hn & _).
  assert ("A" ∈ object_class (categories cancelling_records)) as HA
    by (by left).
  assert ("B" ∈ budget_function (categories cancelling_records)) as HB
    by (by left).
  pose proof (proj1 (Hpair "A" "B" HA HB) (ex_intro _ e (conj He Hn))) as Hpos.
  rewrite Hsum in Hpos. exact (Qclt_not_eq 0 0 Hpos eq_refl).
Qed.

(** C4, as the code has it.  The value of every link is the aggregated
    amount of its label, as the code takes it.  A link that does not
    leave the root has a value above 0; a link that leaves the root is
    the root link of a listed object class, whatever its value. *)
Theorem edges_positive_below_root (st : State) (e : GraphLink) :
  e ∈ links (create_graph st) →
  value e = path_total (amounts st) (names e) ∧
  (source e ≠ Index 0 → positive (value e)) ∧
  (source e = Index 0 →
   ∃ oc, oc ∈ object_class (categories st) ∧ names e = [oc]).
Proof.
  intros He. apply elem_of_links in He as (oc & Hoc & He).
  destruct He as [->|(bf & Hbf & [[Hpos ->]|(ag & _ & Hpos & ->)])]; simpl.
  - split; [apply sum_filter_1|]. split; [done | by exists oc].
  - split; [apply sum_filter_2|]. split; [done|].
    intros Hroot. by apply object_class_ids_not_root in Hroot.
  - split; [apply sum_filter_3|]. split; [done|].
    intros Hroot. by apply budget_function_ids_not_root in Hroot.
Qed.

Lemma edges_positive_below_root_witness :
  positive (value (agency_link two_records "A" "B" "X")).
Proof.
  apply (edges_positive_below_root two_records); [|discriminate].
  apply elem_of_links. exists "A". split; [by left|].
  right. exists "B". split; [by left|].
  right. exists "X". split; [by left|]. split; reflexivity.
Defined.

(** C4 as stated fails for the root link of an object class that no
    record mentions: it is pushed with the value 0. *)
Lemma positive_edges_claim_counterexample :
  links (create_graph no_records) =
  [ {| source := Index 0; target := Index 1; names := ["Pay"]; value := 0 |} ] ∧
  ¬ positive_edges_claim no_records.
Proof.
  split; [reflexivity|].
  intros Hclaim.
  assert (positive 0) as Hpos; [|by vm_compute in Hpos].
  apply (Hclaim {| source := Index 0; target := Index 1;
                   names := ["Pay"]; value := 0 |}).
  by left.
Qed.

(** The end-to-end scenario of the specification: four links of the
    weights 80, 80, 50 and 30. *)
Example create_graph_two_records :
  links (create_graph two_records) =
  [ {| source := Index 0; target := Index 1; names := ["A"]; value := 80 |};
    {| source := Index 1; target := Index 2; names := ["A"; "B"]; value := 80 |};
    {| source := Index 2; target := Index 3; names := ["A"; "B"; "X"];
       value := 50 |};
    {| source := Index 2; target := Index 4; names := ["A"; "B"; "Y"];
       value := 30 |} ].
Proof. by vm_compute. Qed.

(* ================================================================= *)
(** ** Layout Adjuster *)

(** *** The loops over references and the walk over the node array *)

Lemma length_layer_indices (l : Z) (nodes : list LaidNode) (i : nat) :
  length (layer_indices l nodes i) = length (layer_of l nodes).
Proof.
  revert i. induction nodes as [|node rest IH]; intros i; [done|].
  unfold layer_of. rewrite filter_cons. simpl.
  case_decide; simpl; by rewrite IH.
Qed.

Lemma occupied_cons (node : LaidNode) (rest : list LaidNode) :
  occupied (node :: rest) = (y1 node - y0 node) + occupied rest.
Proof. done. Qed.

Lemma collect_layer_spec (l : Z) (nodes : list LaidNode) (i : nat)
    (layer_nodes : list nat) (node_height : Qc) :
  collect_layer l nodes i layer_nodes node_height =
  (layer_nodes ++ layer_indices l nodes i,
   node_height + occupied (layer_of l nodes)).
Proof.
  revert i layer_nodes node_height.
  induction nodes as [|node rest IH]; intros i layer_nodes node_height; simpl.
  - rewrite app_nil_r. f_equal. unfold occupied, sum_Qc. simpl. ring.
  - unfold layer_of. rewrite filter_cons.
    case_decide.
    + rewrite IH, <- app_assoc. simpl. f_equal.
      fold (layer_of l rest). rewrite occupied_cons. ring.
    + by rewrite IH.
Qed.

Lemma place_layer_walk (l : Z) (s : Qc) (nodes pre : list LaidNode)
    (links : list LaidLink) (y : Qc) :
  place_layer s (layer_indices l nodes (length pre)) y
    {| layout_nodes := pre ++ nodes; layout_links := links |} =
  {| layout_nodes := pre ++ (walk_layer l s y nodes links).1;
     layout_links := (walk_layer l s y nodes links).2 |}.
Proof.
  revert pre links y.
  induction nodes as [|node rest IH]; intros pre links y; simpl; [done|].
  case_decide as Hl; simpl.
  - rewrite list_lookup_middle by done.
    replace (<[length pre := shift_node (y - y0 node) node]> (pre ++ node :: rest))
      with ((pre ++ [shift_node (y - y0 node) node]) ++ rest).
    2:{ rewrite <- app_assoc. simpl.
        by rewrite insert_app_r_alt, Nat.sub_diag. }
    replace (S (length pre))
      with (length (pre ++ [shift_node (y - y0 node) node]))
      by (rewrite length_app; simpl; lia).
    rewrite IH. by rewrite <- app_assoc.
  - replace (pre ++ node :: rest) with ((pre ++ [node]) ++ rest)
      by (by rewrite <- app_assoc).
    replace (S (length pre)) with (length (pre ++ [node]))
      by (rewrite length_app; simpl; lia).
    rewrite IH. by rewrite <- !app_assoc.
Qed.

(** One iteration of the loop over the layers is the walk with the
    uniform spacing of the layer. *)
Lemma justify_layer_walk (l : Z) (g : Layout) :
  let s := uniform_spacing (layer_of l (layout_nodes g)) in
  justify_layer l g =
  {| layout_nodes := (walk_layer l s s (layout_nodes g) (layout_links g)).1;
     layout_links := (walk_layer l s s (layout_nodes g) (layout_links g)).2 |}.
Proof.
  intros s. unfold justify_layer. rewrite collect_layer_spec. simpl.
  assert ((HEIGHT - (0 + occupied (layer_of l (layout_nodes g))))
          / spacing_divisor (layer_indices l (layout_nodes g) 0) = s) as ->.
  { subst s. unfold uniform_spacing, spacing_divisor.
    rewrite length_layer_indices. f_equal. ring. }
  destruct g as [nodes links]. simpl.
  apply (place_layer_walk l s nodes [] links s).
Qed.

(** *** What a walk keeps *)

Lemma shift_node_kept (l : Z) (offset : Qc) (node : LaidNode) :
  layer node = l → kept [l] node (shift_node offset node).
Proof.
  intros Hl. unfold kept, height. simpl. split_and!; try done.
  - ring.
  - intros Hout. exfalso. apply Hout. rewrite Hl. by left.
Qed.

Lemma kept_refl (ls : list Z) (node : LaidNode) : kept ls node node.
Proof. by unfold kept. Qed.

Lemma kept_trans (l : Z) (ls : list Z) (n1 n2 n3 : LaidNode) :
  kept [l] n1 n2 → kept ls n2 n3 → kept (l :: ls) n1 n3.
Proof.
  intros (Hl1 & Hh1 & Hs1 & Ht1 & Hid1) (Hl2 & Hh2 & Hs2 & Ht2 & Hid2).
  unfold kept. split_and!; try congruence.
  intros Hout. apply not_elem_of_cons in Hout as [Hne Hout].
  rewrite Hid2 by congruence. apply Hid1.
  by rewrite list_elem_of_singleton.
Qed.

Lemma walk_layer_kept (l : Z) (s y : Qc) (nodes : list LaidNode)
    (links : list LaidLink) :
  Forall2 (kept [l]) nodes (walk_layer l s y nodes links).1.
Proof.
  revert y links. induction nodes as [|node rest IH]; intros y links; simpl.
  - constructor.
  - case_decide; simpl; constructor;
      auto using shift_node_kept, kept_refl.
Qed.

Lemma justify_layer_kept (l : Z) (g : Layout) :
  Forall2 (kept [l]) (layout_nodes g) (layout_nodes (justify_layer l g)).
Proof. rewrite justify_layer_walk. simpl. apply walk_layer_kept. Qed.

Lemma justify_layers_kept (ls : list Z) (g : Layout) :
  Forall2 (kept ls) (layout_nodes g)
    (layout_nodes (fold_left (λ g l, justify_layer l g) ls g)).
Proof.
  revert g. induction ls as [|l ls IH]; intros g; simpl.
  - apply Forall_Forall2_diag, Forall_forall. intros. apply kept_refl.
  - eapply Forall2_trans;
      [apply kept_trans | apply justify_layer_kept | apply IH].
Qed.

(** The nodes of a layer keep their heights; the nodes of the layers that
    are not walked stay as they are. *)
Lemma kept_layer_of (ls : list Z) (l : Z) (nodes nodes' : list LaidNode) :
  Forall2 (kept ls) nodes nodes' →
  Forall2 (kept ls) (layer_of l nodes) (layer_of l nodes').
Proof.
  intros Hk. apply Forall2_filter; [|done].
  intros n n' (Hl & _). by rewrite Hl.
Qed.

Lemma kept_heights (ls : list Z) (nodes nodes' : list LaidNode) :
  Forall2 (kept ls) nodes nodes' → height <$> nodes' = height <$> nodes.
Proof.
  induction 1 as [|n n' nodes nodes' (_ & Hh & _) _ IH]; [done|].
  rewrite !fmap_cons. by rewrite Hh, IH.
Qed.

Lemma kept_layer_heights (ls : list Z) (l : Z) (nodes nodes' : list LaidNode) :
  Forall2 (kept ls) nodes nodes' →
  height <$> layer_of l nodes' = height <$> layer_of l nodes.
Proof. intros Hk. eapply kept_heights, kept_layer_of, Hk. Qed.

Lemma kept_layer_other (ls : list Z) (l : Z) (nodes nodes' : list LaidNode) :
  l ∉ ls →
  Forall2 (kept ls) nodes nodes' →
  layer_of l nodes' = layer_of l nodes.
Proof.
  intros Hl Hk. apply (kept_layer_of ls l) in Hk.
  assert (Forall (λ n, layer n = l) (layer_of l nodes)) as Hall.
  { apply list.Forall_forall. intros n Hn.
    by apply list_elem_of_filter in Hn as [? _]. }
  induction Hk as [|n n' L L' (_ & _ & _ & _ & Hid) _ IH]; [done|].
  apply Forall_cons_1 in Hall as [Hn Hall].
  rewrite Hid by (by rewrite Hn). f_equal. by apply IH.
Qed.

(** *** Placement *)

Lemma layer_of_cons (l : Z) (node : LaidNode) (rest : list LaidNode) :
  layer_of l (node :: rest) =
  if decide (layer node = l) then node :: layer_of l rest else layer_of l rest.
Proof. unfold layer_of. by rewrite filter_cons. Qed.

(** After the walk the nodes of the layer are placed with the spacing of
    the walk. *)
Lemma walk_layer_placed (l : Z) (s prev : Qc) (nodes : list LaidNode)
    (links : list LaidLink) :
  placed s prev (layer_of l (walk_layer l s (prev + s) nodes links).1).
Proof.
  revert prev links. induction nodes as [|node rest IH]; intros prev links; simpl.
  - done.
  - case_decide as Hl; simpl; rewrite layer_of_cons; simpl.
    + rewrite decide_True by done. simpl. split; [ring|].
      replace (prev + s + (y1 node - y0 node) + s)
        with (y1 node + (prev + s - y0 node) + s) by ring.
      apply IH.
    + rewrite decide_False by done. apply IH.
Qed.

Lemma shift_node_0 (node : LaidNode) : shift_node 0 node = node.
Proof.
  destruct node as [l a b srcs tgts]. unfold shift_node. simpl.
  f_equal; ring.
Qed.

Lemma shift_sources_0 (refs : list nat) (links : list LaidLink) :
  shift_sources 0 refs links = links.
Proof.
  unfold shift_sources. revert links.
  induction refs as [|j refs IH]; intros links; simpl; [done|].
  rewrite list_alter_id; [apply IH|].
  intros [a b]. unfold shift_link_y0. simpl. f_equal. ring.
Qed.

Lemma shift_targets_0 (refs : list nat) (links : list LaidLink) :
  shift_targets 0 refs links = links.
Proof.
  unfold shift_targets. revert links.
  induction refs as [|j refs IH]; intros links; simpl; [done|].
  rewrite list_alter_id; [apply IH|].
  intros [a b]. unfold shift_link_y1. simpl. f_equal. ring.
Qed.

(** The walk over a layer that is already placed with the spacing of the
    walk changes neither a node nor a link. *)
Lemma walk_layer_placed_id (l : Z) (s prev : Qc) (nodes : list LaidNode)
    (links : list LaidLink) :
  placed s prev (layer_of l nodes) →
  walk_layer l s (prev + s) nodes links = (nodes, links).
Proof.
  revert prev. induction nodes as [|node rest IH]; intros prev; simpl; [done|].
  rewrite layer_of_cons. case_decide as Hl; simpl.
  - intros [Hy0 Hrest].
    replace (prev + s - y0 node) with (Q2Qc 0) by (rewrite Hy0; ring).
    rewrite shift_node_0, shift_sources_0, shift_targets_0.
    replace (prev + s + (y1 node - y0 node) + s) with (y1 node + s)
      by (rewrite Hy0; ring).
    by rewrite (IH _ Hrest).
  - intros Hrest. by rewrite (IH _ Hrest).
Qed.

(** *** Spacing and gaps *)

Lemma spacing_divisor_succ (n : nat) :
  Qc_of_Z (Z.of_nat (n + 1)) = Qc_of_Z (Z.of_nat n) + 1.
Proof. by rewrite Nat2Z.inj_add, Z2Qc_inj_add. Qed.

Lemma spacing_divisor_pos (n : nat) : 0 < Qc_of_Z (Z.of_nat (n + 1)).
Proof. rewrite <- Z2Qc_inj_0. apply (proj1 (Z2Qc_inj_lt 0 _)). lia. Qed.

Lemma spacing_divisor_nonzero (n : nat) : Qc_of_Z (Z.of_nat (n + 1)) ≠ 0.
Proof. apply not_eq_sym, Qclt_not_eq, spacing_divisor_pos. Qed.

Lemma uniform_spacing_heights (nodes nodes' : list LaidNode) :
  height <$> nodes' = height <$> nodes →
  uniform_spacing nodes' = uniform_spacing nodes.
Proof.
  intros Hh. unfold uniform_spacing, occupied. rewrite Hh.
  by rewrite <- (length_fmap height nodes'), Hh, length_fmap.
Qed.

(** The gaps of a placed layer: the spacing before each node, and what is
    left of the canvas after the last node. *)
Lemma placed_gaps (s prev : Qc) (nodes : list LaidNode) :
  placed s prev nodes →
  gaps_from prev nodes =
  replicate (length nodes) s
    ++ [HEIGHT - (prev + Qc_of_Z (Z.of_nat (length nodes)) * s + occupied nodes)].
Proof.
  revert prev. induction nodes as [|node rest IH]; intros prev.
  - intros _. cbn [gaps_from length replicate app].
    change (Z.of_nat 0) with 0%Z. rewrite Z2Qc_inj_0.
    replace (prev + 0 * s + occupied []) with prev; [done|].
    unfold occupied, sum_Qc. simpl. ring.
  - intros [Hy0 Hrest]. cbn [gaps_from length replicate app].
    rewrite (IH _ Hrest).
    replace (y0 node - prev) with s by (rewrite Hy0; ring).
    replace (prev + Qc_of_Z (Z.of_nat (S (length rest))) * s + occupied (node :: rest))
      with (y1 node + Qc_of_Z (Z.of_nat (length rest)) * s + occupied rest);
      [done|].
    replace (S (length rest)) with (length rest + 1)%nat by lia.
    rewrite occupied_cons, spacing_divisor_succ, Hy0. ring.
Qed.

Lemma sum_Qc_replicate (n : nat) (s : Qc) :
  sum_Qc (replicate n s) = Qc_of_Z (Z.of_nat n) * s.
Proof.
  induction n as [|n IH].
  - change (Z.of_nat 0) with 0%Z. rewrite Z2Qc_inj_0.
    unfold sum_Qc. cbn [replicate foldr]. ring.
  - replace (S n) with (n + 1)%nat at 2 by lia.
    rewrite spacing_divisor_succ. unfold sum_Qc in *.
    cbn [replicate foldr]. rewrite IH. ring.
Qed.

(** A layer placed below the top of the canvas with its uniform spacing
    has [k + 1] gaps, each equal to that spacing. *)
Lemma placed_uniform_gaps (nodes : list LaidNode) :
  placed (uniform_spacing nodes) 0 nodes →
  gaps nodes = replicate (S (length nodes)) (uniform_spacing nodes).
Proof.
  intros Hp. unfold gaps. rewrite (placed_gaps _ _ _ Hp), replicate_S_end.
  f_equal. f_equal. unfold uniform_spacing.
  pose proof (spacing_divisor_nonzero (length nodes)) as Hnz.
  rewrite spacing_divisor_succ in *. field. done.
Qed.

Lemma placed_lookup (s prev : Qc) (nodes : list LaidNode) :
  placed s prev nodes →
  (∀ node, nodes !! 0%nat = Some node → y0 node = prev + s) ∧
  (∀ (i : nat) before node,
     nodes !! i = Some before → nodes !! S i = Some node →
     y0 node = y1 before + s).
Proof.
  revert prev. induction nodes as [|n rest IH]; intros prev; simpl.
  - intros _. split; intros; done.
  - intros [Hy0 Hrest]. destruct (IH _ Hrest) as [Hfirst Hnext].
    split; [by intros node [= <-]|].
    intros [|i] before node Hb Hn; simpl in *.
    + injection Hb as <-. by apply Hfirst.
    + by apply (Hnext i).
Qed.

(** *** Balance of the layers *)

Lemma justify_layer_spacing (l l' : Z) (g : Layout) :
  uniform_spacing (layer_of l' (layout_nodes (justify_layer l g)))
  = uniform_spacing (layer_of l' (layout_nodes g)).
Proof.
  apply uniform_spacing_heights.
  apply (kept_layer_heights [l]), justify_layer_kept.
Qed.

Lemma justify_layer_balanced (l : Z) (g : Layout) :
  balanced l (justify_layer l g).
Proof.
  unfold balanced. rewrite justify_layer_spacing, justify_layer_walk. simpl.
  pose proof (walk_layer_placed l
                (uniform_spacing (layer_of l (layout_nodes g))) 0
                (layout_nodes g) (layout_links g)) as Hp.
  by rewrite Qcplus_0_l in Hp.
Qed.

Lemma justify_layer_balanced_other (l l' : Z) (g : Layout) :
  l ≠ l' → balanced l g → balanced l (justify_layer l' g).
Proof.
  intros Hne Hb. unfold balanced.
  rewrite justify_layer_spacing.
  rewrite (kept_layer_other [l'] l (layout_nodes g)
             (layout_nodes (justify_layer l' g))); [done| |].
  - by rewrite list_elem_of_singleton.
  - apply justify_layer_kept.
Qed.

Lemma justify_layer_balanced_id (l : Z) (g : Layout) :
  balanced l g → justify_layer l g = g.
Proof.
  intros Hb. rewrite justify_layer_walk. simpl.
  pose proof (walk_layer_placed_id l _ 0 (layout_nodes g) (layout_links g) Hb)
    as Hid.
  rewrite Qcplus_0_l in Hid. rewrite Hid. by destruct g.
Qed.

Lemma justify_layers_balanced_keep (ls : list Z) (l : Z) (g : Layout) :
  l ∉ ls → balanced l g →
  balanced l (fold_left (λ g l, justify_layer l g) ls g).
Proof.
  revert g. induction ls as [|l' ls IH]; intros g Hl Hb; simpl; [done|].
  apply not_elem_of_cons in Hl as [Hne Hl].
  apply IH; [done|]. by apply justify_layer_balanced_other.
Qed.

Lemma justify_layers_balanced (ls : list Z) (l : Z) (g : Layout) :
  l ∈ ls → balanced l (fold_left (λ g l, justify_layer l g) ls g).
Proof.
  revert g. induction ls as [|l' ls IH]; intros g Hl; simpl.
  - by apply elem_of_nil in Hl.
  - destruct (decide (l ∈ ls)) as [Hin|Hout]; [by apply IH|].
    apply elem_of_cons in Hl as [->|Hl]; [|done].
    apply justify_layers_balanced_keep; [done|].
    apply justify_layer_balanced.
Qed.

Lemma visited_layer (l : Z) : (0 ≤ l < 4)%Z ↔ l ∈ [0; 1; 2; 3]%Z.
Proof. rewrite !elem_of_cons, elem_of_nil. lia. Qed.

Lemma justify_vertically_balanced (l : Z) (g : Layout) :
  (0 ≤ l < 4)%Z → balanced l (justify_vertically g).
Proof. intros Hl. by apply justify_layers_balanced, visited_layer. Qed.
(* ================================================================= *)
(** ** The adjuster on the numbers of the code *)

Module Binary64_facts.
Import Binary64.

Lemma framed_in_refl (ls : list Z) (nodes : list LaidNode) :
  Forall2 (framed_in ls) nodes nodes.
Proof.
  apply Forall2_same_length_lookup_2; [done|]. intros i x y Hx Hy.
  assert (x = y) as -> by congruence. by repeat split.
Qed.

Lemma framed_in_trans (ls ls' : list Z) (a b c : LaidNode) :
  framed_in ls a b → framed_in ls' b c → framed_in (ls ++ ls') a c.
Proof.
  intros (Hl & Hs & Ht & Hid) (Hl' & Hs' & Ht' & Hid').
  split_and!; try congruence.
  intros Hout. apply not_elem_of_app in Hout as [Hout Hout'].
  rewrite <- (Hid Hout). apply Hid'. by rewrite (Hid Hout).
Qed.

(** The first inner loop collects references to nodes of the layer. *)
Lemma collect_layer_refs (l : Z) (nodes : list LaidNode) (start : nat)
    (acc : list nat) (h : float) (i : nat) :
  i ∈ (collect_layer l nodes start acc h).1 →
  i ∈ acc ∨
  ∃ node, (start ≤ i)%nat ∧ nodes !! (i - start)%nat = Some node ∧ layer node = l.
Proof.
  revert start acc h. induction nodes as [|node rest IH]; intros start acc h Hi.
  - by left.
  - cbn [collect_layer] in Hi. case_decide as Hl.
    + apply IH in Hi as [Hi|(node' & Hle & Hn & Hnl)].
      * apply elem_of_app in Hi as [Hi|Hi]; [by left|].
        apply list_elem_of_singleton in Hi as ->. right.
        exists node. by rewrite Nat.sub_diag.
      * right. exists node'. split; [lia|]. split; [|done].
        by replace (i - start)%nat with (S (i - S start)) by lia.
    + apply IH in Hi as [Hi|(node' & Hle & Hn & Hnl)]; [by left|].
      right. exists node'. split; [lia|]. split; [|done].
      by replace (i - start)%nat with (S (i - S start)) by lia.
Qed.

(** The second inner loop keeps the layer and the link references of
    every node, and every node of another layer as it is. *)
Lemma place_layer_framed (l : Z) (spacing : float) (layer_nodes : list nat)
    (y : float) (g : Layout) :
  (∀ i node, i ∈ layer_nodes → layout_nodes g !! i = Some node → layer node = l) →
  Forall2 (framed_in [l]) (layout_nodes g)
    (layout_nodes (place_layer spacing layer_nodes y g)).
Proof.
  revert y g. induction layer_nodes as [|i rest IH]; intros y g Hrefs.
  - apply framed_in_refl.
  - cbn [place_layer].
    destruct (layout_nodes g !! i) as [node|] eqn:Hi.
    + eapply (Forall2_trans (framed_in [l]) (framed_in [l]));
        [| |apply IH].
      * intros a b c Hab Hbc. destruct Hab as (Hl & Hs & Ht & Hid).
        destruct Hbc as (Hl' & Hs' & Ht' & Hid').
        split_and!; try congruence.
        intros Hout. rewrite <- (Hid Hout). apply Hid'. by rewrite (Hid Hout).
      * cbn [layout_nodes].
        apply Forall2_same_length_lookup_2; [by rewrite length_insert|].
        intros j a b Ha Hb.
        destruct (decide (j = i)) as [->|Hne].
        -- rewrite list_lookup_insert_eq in Hb by (by eapply lookup_lt_Some).
           assert (a = node) as -> by congruence.
           injection Hb as <-. split_and!; try done.
           intros Hout. exfalso. apply Hout, list_elem_of_singleton.
           apply (Hrefs i); [by left | done].
        -- rewrite list_lookup_insert_ne in Hb by done.
           assert (a = b) as -> by congruence. by repeat split.
      * cbn [layout_nodes]. intros j a Hj Ha.
        destruct (decide (j = i)) as [->|Hne].
        -- rewrite list_lookup_insert_eq in Ha by (by eapply lookup_lt_Some).
           injection Ha as <-. simpl. apply (Hrefs i); [by left | done].
        -- rewrite list_lookup_insert_ne in Ha by done.
           apply (Hrefs j); [by right | done].
    + apply IH. intros j a Hj. apply Hrefs. by right.
Qed.

Lemma justify_layer_framed (l : Z) (g : Layout) :
  Forall2 (framed_in [l]) (layout_nodes g) (layout_nodes (justify_layer l g)).
Proof.
  unfold justify_layer. apply place_layer_framed.
  intros i node Hi Hn. apply collect_layer_refs in Hi as [Hi|(node' & _ & Hn' & Hl)].
  - by apply elem_of_nil in Hi.
  - rewrite Nat.sub_0_r in Hn'. congruence.
Qed.

Lemma justify_layers_framed (ls : list Z) (g : Layout) :
  Forall2 (framed_in ls) (layout_nodes g)
    (layout_nodes (fold_left (λ g l, justify_layer l g) ls g)).
Proof.
  revert g. induction ls as [|l ls IH]; intros g.
  - apply framed_in_refl.
  - cbn [fold_left].
    eapply (Forall2_trans (framed_in [l]) (framed_in ls));
      [|apply justify_layer_framed|apply IH].
    intros a b c. apply (framed_in_trans [l] ls).
Qed.

(** The adjuster on the numbers keeps the number of nodes and, of every
    node, its layer and its link references; it leaves a node of a layer
    outside 0 to 3 as it is. *)
Lemma justify_vertically_framed (g : Layout) :
  Forall2 framed (layout_nodes g) (layout_nodes (justify_vertically g)).
Proof.
  eapply list.Forall2_impl; [apply (justify_layers_framed [0; 1; 2; 3]%Z)|].
  intros a b (Hl & Hs & Ht & Hid). split_and!; try done.
  intros Hout. apply Hid. rewrite !elem_of_cons, elem_of_nil. lia.
Qed.

End Binary64_facts.


(** *** The claims about the Layout Adjuster *)

(** C5, over exact arithmetic.  For each of the four layers, with [k]
    nodes before the adjustment: the nodes keep their heights; the
    [k + 1] gaps of the layer after the adjustment are all equal to the
    uniform spacing
    (canvas height − occupied height) / (k + 1), and add up to the canvas
    height minus the occupied height; the first node starts at the
    spacing, and every next node at the end of the node before it plus
    the spacing. *)
Theorem justify_vertically_gaps (g : Layout) (l : Z) :
  (0 ≤ l < 4)%Z →
  let before := layer_of l (layout_nodes g) in
  let after := layer_of l (layout_nodes (justify_vertically g)) in
  let k := length before in
  let spacing := (HEIGHT - occupied before) / Qc_of_Z (Z.of_nat (k + 1)) in
  height <$> after = height <$> before ∧
  gaps after = replicate (k + 1) spacing ∧
  sum_Qc (gaps after) = HEIGHT - occupied before ∧
  (∀ node, after !! 0%nat = Some node → y0 node = spacing) ∧
  (∀ (i : nat) previous node,
     after !! i = Some previous → after !! S i = Some node →
     y0 node = y1 previous + spacing).
Proof.
  intros Hl before after k spacing.
  assert (height <$> after = height <$> before) as Hh.
  { apply (kept_layer_heights [0; 1; 2; 3]%Z), justify_layers_kept. }
  assert (length after = k) as Hk.
  { subst k. by rewrite <- (length_fmap height after), Hh, length_fmap. }
  assert (uniform_spacing after = spacing) as Hs.
  { by rewrite (uniform_spacing_heights _ _ Hh). }
  pose proof (justify_vertically_balanced l g Hl) as Hb.
  unfold balanced in Hb. fold after in Hb. rewrite Hs in Hb.
  assert (gaps after = replicate (k + 1) spacing) as Hg.
  { rewrite <- Hs, Nat.add_1_r, <- Hk. apply placed_uniform_gaps.
    by rewrite Hs. }
  split; [done|]. split; [done|]. split.
  - rewrite Hg, sum_Qc_replicate. subst spacing.
    pose proof (spacing_divisor_nonzero k). field. done.
  - destruct (placed_lookup _ _ _ Hb) as [Hfirst Hnext]. split.
    + intros node Hn. rewrite (Hfirst node Hn). ring.
    + done.
Qed.

Lemma justify_vertically_gaps_witness :
  (0 ≤ 1 < 4)%Z ∧
  gaps (layer_of 1 (layout_nodes (justify_vertically two_nodes))) =
  replicate 3
    ((HEIGHT - occupied (layer_of 1 (layout_nodes two_nodes))) / Qc_of_Z 3).
Proof.
  split; [lia|].
  exact (proj1 (proj2 (justify_vertically_gaps two_nodes 1 ltac:(lia)))).
Defined.

(** C5 as stated fails on the numbers of the code.  The two nodes of
    height 100 of layer 1 of [two_nodes] are placed with the spacing
    1240/3 rounded, and every further addition is rounded: the three gaps
    of the layer, 413.33333333333331..., 413.33333333333326... and
    413.33333333333348..., differ from one another. *)
#[warnings="-inexact-float"] Lemma equal_gaps_claim_counterexample :
  (λ node, (Binary64.y0 node, Binary64.y1 node))
    <$> Binary64.layer_of 1
          (Binary64.layout_nodes (Binary64.justify_vertically two_nodes_binary64))
  = [ (413.33333333333331, 513.33333333333326);
      (926.66666666666652, 1026.6666666666665) ]%float ∧
  ¬ Binary64.equal_gaps_claim two_nodes_binary64.
Proof.
  split; [by vm_compute|].
  intros Hclaim. pose proof (Hclaim 1%Z ltac:(lia)) as Hgaps.
  assert (∃ n1 n2,
            Binary64.layer_of 1
              (Binary64.layout_nodes
                 (Binary64.justify_vertically two_nodes_binary64)) = [n1; n2] ∧
            Qeq_bool (rational_of (Binary64.y0 n1))
              (rational_of (Binary64.y0 n2) - rational_of (Binary64.y1 n1))%Qc
            = false)
    as (n1 & n2 & Hlayer & Hne).
  { eexists _, _. split; [by vm_compute | by vm_compute]. }
  rewrite Hlayer in Hgaps. cbn [Binary64.gaps Binary64.gaps_from] in Hgaps.
  assert (rational_of (Binary64.y0 n1) - 0
          = rational_of (Binary64.y0 n2) - rational_of (Binary64.y1 n1)) as Heq.
  { apply Hgaps; [by left | by right; left]. }
  assert (rational_of (Binary64.y0 n1) - 0 = rational_of (Binary64.y0 n1))
    as Hzero by ring.
  rewrite Hzero in Heq. rewrite <- Heq in Hne.
  by rewrite Qeq_bool_refl in Hne.
Qed.

(** The scenario of the specification on the canvas of the code, over
    exact arithmetic: two nodes of height 100 are spaced by
    (1440 − 200) / 3 = 1240/3; the first starts at 1240/3 and the second
    at 1240/3 + 100 + 1240/3. *)
Example justify_vertically_two_nodes :
  (λ node, (y0 node, y1 node))
    <$> layer_of 1 (layout_nodes (justify_vertically two_nodes))
  = [ (Q2Qc (1240 # 3), Q2Qc (1540 # 3)); (Q2Qc (2780 # 3), Q2Qc (3080 # 3)) ].
Proof.
  vm_compute. repeat (f_equal; try (apply Qc_is_canon; reflexivity)).
Qed.

(** C6.  Adjusting an adjusted layout changes nothing: no node, hence no
    [y0] and no [y1], and no link, hence no end ordinate. *)
Theorem justify_vertically_idempotent (g : Layout) :
  justify_vertically (justify_vertically g) = justify_vertically g.
Proof.
  unfold justify_vertically at 1. cbn [fold_left].
  rewrite (justify_layer_balanced_id 0)
    by (apply justify_vertically_balanced; lia).
  rewrite (justify_layer_balanced_id 1)
    by (apply justify_vertically_balanced; lia).
  rewrite (justify_layer_balanced_id 2)
    by (apply justify_vertically_balanced; lia).
  apply justify_layer_balanced_id, justify_vertically_balanced. lia.
Qed.



(** C10, as the code has it.  Over exact arithmetic the adjuster keeps
    the height of every node, its layer and its link references, and it
    leaves a node whose layer is not one of 0 to 3 as it was.  On the
    numbers of the code it keeps the number of nodes, the layer and the
    link references of every node, and it leaves a node whose layer is
    not one of 0 to 3 as it was; the height is not among what it keeps
    there. *)
Theorem justify_vertically_heights (g : Layout) (b : Binary64.Layout) :
  (length (layout_nodes (justify_vertically g)) = length (layout_nodes g) ∧
   ∀ (i : nat) node, layout_nodes g !! i = Some node →
     ∃ node', layout_nodes (justify_vertically g) !! i = Some node' ∧
       y1 node' - y0 node' = y1 node - y0 node ∧
       layer node' = layer node ∧
       sourceLinks node' = sourceLinks node ∧
       targetLinks node' = targetLinks node ∧
       (¬ (0 ≤ layer node < 4)%Z → node' = node)) ∧
  (length (Binary64.layout_nodes (Binary64.justify_vertically b))
   = length (Binary64.layout_nodes b) ∧
   ∀ (i : nat) node, Binary64.layout_nodes b !! i = Some node →
     ∃ node', Binary64.layout_nodes (Binary64.justify_vertically b) !! i
              = Some node' ∧
       Binary64.framed node node').
Proof.
  split.
  - pose proof (justify_layers_kept [0; 1; 2; 3]%Z g) as Hk.
    fold (justify_vertically g) in Hk.
    split; [symmetry; by eapply Forall2_length|].
    intros i node Hi.
    destruct (Forall2_lookup_l _ _ _ _ _ Hk Hi)
      as (node' & Hi' & Hl & Hh & Hs & Ht & Hid).
    exists node'. split_and!; try done.
    intros Hout. apply Hid. by rewrite <- visited_layer.
  - pose proof (Binary64_facts.justify_vertically_framed b) as Hk.
    split; [symmetry; by eapply Forall2_length|].
    intros i node Hi.
    destruct (Forall2_lookup_l _ _ _ _ _ Hk Hi) as (node' & Hi' & Hf).
    by exists node'.
Qed.

Lemma justify_vertically_heights_witness :
  (∃ node', layout_nodes (justify_vertically two_nodes) !! 2%nat = Some node' ∧
     y1 node' - y0 node' = Qc_of_Z 220 - Qc_of_Z 120) ∧
  (∃ node',
     Binary64.layout_nodes (Binary64.justify_vertically two_nodes_binary64)
       !! 3%nat = Some node' ∧
     node' = {| Binary64.layer := 7; Binary64.y0 := 1; Binary64.y1 := 2;
                Binary64.sourceLinks := []; Binary64.targetLinks := [] |}).
Proof.
  split.
  - destruct (proj2 (proj1 (justify_vertically_heights two_nodes
                              two_nodes_binary64)) 2%nat _ eq_refl)
      as (node' & Hi & Hh & _).
    exists node'. split; [exact Hi | exact Hh].
  - destruct (proj2 (proj2 (justify_vertically_heights two_nodes
                              two_nodes_binary64)) 3%nat _ eq_refl)
      as (node' & Hi & _ & _ & _ & Hid).
    exists node'. split; [exact Hi|]. apply Hid. simpl. lia.
Defined.

(** C10 as stated fails on the numbers of the code: the first node of
    layer 1 of [two_nodes] has the height 100 before the adjustment, and
    after it the ordinates 413.33333333333331... and
    513.33333333333326..., each rounded on its own, which are less than
    100 apart. *)
#[warnings="-inexact-float"] Lemma heights_claim_counterexample :
  Binary64.layout_nodes two_nodes_binary64 !! 1%nat =
    Some {| Binary64.layer := 1; Binary64.y0 := 5; Binary64.y1 := 105;
            Binary64.sourceLinks := []; Binary64.targetLinks := [0%nat] |} ∧
  Binary64.layout_nodes (Binary64.justify_vertically two_nodes_binary64) !! 1%nat =
    Some {| Binary64.layer := 1;
            Binary64.y0 := 413.33333333333331;
            Binary64.y1 := 513.33333333333326;
            Binary64.sourceLinks := []; Binary64.targetLinks := [0%nat] |} ∧
  ¬ Binary64.heights_claim two_nodes_binary64.
Proof.
  assert (∃ node',
            Binary64.layout_nodes (Binary64.justify_vertically two_nodes_binary64)
              !! 1%nat = Some node' ∧
            Qeq_bool
              (rational_of (Binary64.y1 node') - rational_of (Binary64.y0 node'))%Qc
              (rational_of 105 - rational_of 5)%Qc = false)
    as (node' & Hi & Hne).
  { eexists. split; [by vm_compute | by vm_compute]. }
  split; [done|]. split; [by vm_compute|].
  intros Hclaim. pose proof (Hclaim 1%nat _ node' eq_refl Hi) as Heq.
  unfold Binary64.height in Heq. cbn [Binary64.y0 Binary64.y1] in Heq.
  rewrite Heq in Hne. by rewrite Qeq_bool_refl in Hne.
Qed.

(* ================================================================= *)
(** ** More on the Category Loader *)

(** The inner loop throws on the first non-zero result of an unknown
    type, whatever has been collected. *)
Lemma collect_results_type_error (results : list ApiResult)
    (c : Categories (Z * string)) :
  ¬ well_typed results → collect_results results c = Err TypeError.
Proof.
  revert c. induction results as [|r rs IH]; intros c Hbad.
  - exfalso. apply Hbad. intros r Hr. by apply elem_of_nil in Hr.
  - simpl. destruct (decide (nonzero (r_amount r))) as [Ha|Ha].
    + destruct (decide (r_type r ∈ category_types)) as [Hin|Hout].
      * unfold category_types in Hin.
        rewrite !elem_of_cons, elem_of_nil in Hin.
        assert (¬ well_typed rs) as Hrs.
        { intros Hrs. apply Hbad. intros r' Hr' Ha'.
          apply elem_of_cons in Hr' as [->|Hr']; [|by apply Hrs].
          unfold category_types. rewrite !elem_of_cons. tauto. }
        unfold push_category.
        destruct Hin as [Hc|[Hc|[Hc|[]]]]; rewrite Hc; simpl; by apply IH.
      * unfold category_types in Hout.
        rewrite !elem_of_cons, elem_of_nil in Hout.
        unfold push_category.
        rewrite !decide_False by tauto. done.
    + apply IH. intros Hrs. apply Hbad. intros r' Hr' Ha'.
      apply elem_of_cons in Hr' as [->|Hr']; [done | by apply Hrs].
Qed.

Lemma well_typed_dec (results : list ApiResult) :
  well_typed results ∨ ¬ well_typed results.
Proof.
  induction results as [|r rs [IH|IH]].
  - left. intros r Hr. by apply elem_of_nil in Hr.
  - destruct (decide (nonzero (r_amount r) → r_type r ∈ category_types)) as [Hr|Hr].
    + left. intros r' Hr' Ha.
      apply elem_of_cons in Hr' as [->|Hr']; [by apply Hr | by apply IH].
    + right. intros Hall. apply Hr. intros Ha. apply Hall; [by left | done].
  - right. intros Hall. apply IH. intros r' Hr'. apply Hall. by right.
Qed.

Lemma well_typed_app (rs1 rs2 : list ApiResult) :
  well_typed (rs1 ++ rs2) ↔ well_typed rs1 ∧ well_typed rs2.
Proof.
  unfold well_typed. setoid_rewrite elem_of_app. split.
  - intros H. split; intros r Hr; apply H; tauto.
  - intros [H1 H2] r [Hr|Hr]; [by apply H1 | by apply H2].
Qed.

(** X1.  The loader returns a table exactly when the three requests
    succeed and every result with a non-zero amount carries one of the
    three category types. *)
Theorem download_categories_succeeds_iff (post : string → Result (list ApiResult)) :
  (∃ cats, download_categories post = Ok cats) ↔
  ∃ oc bf ag,
    post "object_class" = Ok oc ∧ post "budget_function" = Ok bf ∧
    post "agency" = Ok ag ∧ well_typed (oc ++ bf ++ ag).
Proof.
  unfold download_categories. simpl. split.
  - intros [cats Hok].
    destruct (post "object_class") as [oc|] eqn:Hoc; [|done].
    destruct (post "budget_function") as [bf|] eqn:Hbf.
    2:{ simpl in Hok. by destruct (collect_results oc empty_categories). }
    destruct (post "agency") as [ag|] eqn:Hag.
    2:{ simpl in Hok. destruct (collect_results oc empty_categories); [|done].
        simpl in Hok. by destruct (collect_results bf _). }
    exists oc, bf, ag. split_and!; try done.
    simpl in Hok.
    destruct (well_typed_dec oc) as [Woc|Woc];
      [|by rewrite collect_results_type_error in Hok].
    rewrite collect_results_ok in Hok by done. simpl in Hok.
    destruct (well_typed_dec bf) as [Wbf|Wbf];
      [|by rewrite collect_results_type_error in Hok].
    rewrite collect_results_ok in Hok by done. simpl in Hok.
    destruct (well_typed_dec ag) as [Wag|Wag];
      [|by rewrite collect_results_type_error in Hok].
    by rewrite !well_typed_app.
  - intros (oc & bf & ag & -> & -> & -> & Hty).
    apply well_typed_app in Hty as [Woc Hty].
    apply well_typed_app in Hty as [Wbf Wag]. simpl.
    rewrite collect_results_ok by done. simpl.
    rewrite collect_results_ok by done. simpl.
    rewrite collect_results_ok by done. by eexists.
Qed.

(** X2.  When the three requests succeed and some result with a non-zero
    amount carries an unknown type, the loader throws the type error of
    [push] on [undefined]; a result with the amount 0 is passed over
    before its type is looked at. *)
Theorem download_categories_type_error (post : string → Result (list ApiResult))
    (oc bf ag : list ApiResult) :
  post "object_class" = Ok oc →
  post "budget_function" = Ok bf →
  post "agency" = Ok ag →
  ¬ well_typed (oc ++ bf ++ ag) →
  download_categories post = Err TypeError.
Proof.
  intros Hoc Hbf Hag Hbad. unfold download_categories. simpl.
  rewrite Hoc, Hbf, Hag. simpl.
  destruct (well_typed_dec oc) as [Woc|Woc];
    [|by rewrite collect_results_type_error].
  rewrite collect_results_ok by done. simpl.
  destruct (well_typed_dec bf) as [Wbf|Wbf];
    [|by rewrite collect_results_type_error].
  rewrite collect_results_ok by done. simpl.
  destruct (well_typed_dec ag) as [Wag|Wag];
    [|by rewrite collect_results_type_error].
  exfalso. apply Hbad. by rewrite !well_typed_app.
Qed.

(* ================================================================= *)
(** ** Amount Loader *)

Lemma amount_requests_bind (post : Z → Z → Result (list ApiResult))
    (cats : Categories (Z * string)) :
  amount_requests post cats =
  object_class cats ≫= λ oc, budget_function cats ≫= λ bf,
    [{| q_object_class := oc; q_budget_function := bf;
        q_request := post oc.1 bf.1 |}].
Proof.
  unfold amount_requests.
  rewrite (fold_left_push _
             (λ oc, budget_function cats ≫= λ bf,
                [{| q_object_class := oc; q_budget_function := bf;
                    q_request := post oc.1 bf.1 |}])); [done|].
  intros acc oc. by apply fold_left_push.
Qed.

Lemma push_amount_records (request : AmountRequest) (response : list ApiResult)
    (amounts : list AmountRecord) :
  fold_left (λ amounts result, amounts ++ [amount_record request result])
    response amounts
  = amounts ++ records_of (q_object_class request) (q_budget_function request) response.
Proof.
  revert amounts. induction response as [|r rs IH]; intros amounts; simpl.
  - by rewrite app_nil_r.
  - rewrite IH. unfold records_of. simpl. by rewrite <- app_assoc.
Qed.

(** The second loop when every request of a list of pairs succeeds. *)
Lemma await_amounts_ok (post : Z → Z → Result (list ApiResult))
    (resp : Z → Z → list ApiResult) (pairs : list ((Z * string) * (Z * string)))
    (amounts : list AmountRecord) :
  (∀ p, p ∈ pairs → post p.1.1 p.2.1 = Ok (resp p.1.1 p.2.1)) →
  await_amounts
    ((λ p, {| q_object_class := p.1; q_budget_function := p.2;
              q_request := post p.1.1 p.2.1 |}) <$> pairs) amounts
  = Ok (amounts ++ (pairs ≫= λ p, records_of p.1 p.2 (resp p.1.1 p.2.1))).
Proof.
  revert amounts. induction pairs as [|p pairs IH]; intros amounts Hok.
  - simpl. by rewrite app_nil_r.
  - rewrite fmap_cons. cbn [await_amounts q_request].
    rewrite (Hok p) by (by left). simpl.
    rewrite push_amount_records, IH by (intros; apply Hok; by right).
    simpl. by rewrite <- app_assoc.
Qed.

(** The second loop stops at the first rejected request. *)
Lemma await_amounts_rejected (requests : list AmountRequest)
    (amounts : list AmountRecord) (request : AmountRequest) (e : Error) :
  request ∈ requests → q_request request = Err e →
  ∃ e', await_amounts requests amounts = Err e'.
Proof.
  revert amounts. induction requests as [|rq rest IH]; intros amounts Hin He.
  - by apply elem_of_nil in Hin.
  - simpl. destruct (q_request rq) as [response|e0] eqn:Hrq; [|by eexists].
    simpl. apply elem_of_cons in Hin as [->|Hin]; [congruence|].
    by apply IH.
Qed.

(** The pairs of entries in the order of the requests. *)
Lemma amount_requests_pairs (post : Z → Z → Result (list ApiResult))
    (cats : Categories (Z * string)) :
  amount_requests post cats =
  (λ p, {| q_object_class := p.1; q_budget_function := p.2;
           q_request := post p.1.1 p.2.1 |})
  <$> (object_class cats ≫= λ oc, budget_function cats ≫= λ bf, [(oc, bf)]).
Proof.
  rewrite amount_requests_bind.
  generalize (budget_function cats) as bfs. intros bfs.
  induction (object_class cats) as [|oc ocs IH]; [done|].
  rewrite !bind_cons, fmap_app, IH. f_equal.
  clear IH. induction bfs as [|bf bfs IHb]; [done|].
  rewrite !bind_cons, fmap_app, IHb. done.
Qed.

Lemma elem_of_pairs (cats : Categories (Z * string)) (p : (Z * string) * (Z * string)) :
  p ∈ (object_class cats ≫= λ oc, budget_function cats ≫= λ bf, [(oc, bf)])
  ↔ p.1 ∈ object_class cats ∧ p.2 ∈ budget_function cats.
Proof.
  rewrite list_elem_of_bind. setoid_rewrite list_elem_of_bind.
  setoid_rewrite list_elem_of_singleton. destruct p as [oc bf]. simpl. split.
  - intros (oc' & (bf' & [= -> ->] & Hbf) & Hoc). done.
  - intros [Hoc Hbf]. exists oc. split; [|done]. by exists bf.
Qed.

Lemma pairs_bind_records (cats : Categories (Z * string))
    (resp : Z → Z → list ApiResult) :
  ((object_class cats ≫= λ oc, budget_function cats ≫= λ bf, [(oc, bf)])
     ≫= λ p, records_of p.1 p.2 (resp p.1.1 p.2.1))
  = object_class cats ≫= λ oc, budget_function cats ≫= λ bf,
      records_of oc bf (resp oc.1 bf.1).
Proof.
  generalize (budget_function cats) as bfs. intros bfs.
  induction (object_class cats) as [|oc ocs IH]; [done|].
  rewrite !bind_cons, bind_app, IH. f_equal.
  clear IH. induction bfs as [|bf bfs IHb]; [done|].
  rewrite !bind_cons, bind_app, IHb. simpl. by rewrite app_nil_r.
Qed.

Lemma download_amounts_records (post : Z → Z → Result (list ApiResult))
    (resp : Z → Z → list ApiResult) (cats : Categories (Z * string))
    (amounts : list AmountRecord) :
  (∀ oc bf, oc ∈ object_class cats → bf ∈ budget_function cats →
     post oc.1 bf.1 = Ok (resp oc.1 bf.1)) →
  download_amounts post cats amounts =
  Ok (amounts ++
      (object_class cats ≫= λ oc, budget_function cats ≫= λ bf,
         records_of oc bf (resp oc.1 bf.1))).
Proof.
  intros Hok. unfold download_amounts.
  rewrite amount_requests_pairs, (await_amounts_ok post resp).
  - by rewrite pairs_bind_records.
  - intros p Hp. apply elem_of_pairs in Hp as [Hoc Hbf]. by apply Hok.
Qed.

(** X3.  When every request succeeds, the loader appends to [amounts],
    object class by object class and budget function by budget function
    in the order of the category lists, one record for every result of
    every response: none is filtered out, a result with the amount 0
    included, and each record carries the names, not the identifiers, of
    its pair. *)
Theorem download_amounts_ok (post : Z → Z → Result (list ApiResult))
    (resp : Z → Z → list ApiResult) (cats : Categories (Z * string))
    (amounts : list AmountRecord) :
  (∀ oc bf, oc ∈ object_class cats → bf ∈ budget_function cats →
     post oc.1 bf.1 = Ok (resp oc.1 bf.1)) →
  download_amounts post cats amounts =
  Ok (amounts ++
      (object_class cats ≫= λ oc, budget_function cats ≫= λ bf,
         records_of oc bf (resp oc.1 bf.1))).
Proof. apply download_amounts_records. Qed.

Lemma download_amounts_all_ok (post : Z → Z → Result (list ApiResult))
    (cats : Categories (Z * string)) (amounts amounts' : list AmountRecord) :
  download_amounts post cats amounts = Ok amounts' →
  ∀ oc bf, oc ∈ object_class cats → bf ∈ budget_function cats →
    ∃ response, post oc.1 bf.1 = Ok response.
Proof.
  intros Hok oc bf Hoc Hbf.
  destruct (post oc.1 bf.1) as [response|e] eqn:Hpost; [by eexists|].
  exfalso. unfold download_amounts in Hok.
  destruct (await_amounts_rejected (amount_requests post cats) amounts
              {| q_object_class := oc; q_budget_function := bf;
                 q_request := post oc.1 bf.1 |} e) as [e' He']; [|done|congruence].
  rewrite amount_requests_pairs. apply list_elem_of_fmap.
  exists (oc, bf). split; [done|]. by apply elem_of_pairs.
Qed.

(** The response of a request, empty for a rejected one. *)
Lemma download_amounts_responses (post : Z → Z → Result (list ApiResult))
    (cats : Categories (Z * string)) (amounts amounts' : list AmountRecord) :
  download_amounts post cats amounts = Ok amounts' →
  amounts' =
  amounts ++
  (object_class cats ≫= λ oc, budget_function cats ≫= λ bf,
     records_of oc bf (match post oc.1 bf.1 with Ok r => r | Err _ => [] end)).
Proof.
  intros Hok. pose proof (download_amounts_all_ok _ _ _ _ Hok) as Hall.
  rewrite (download_amounts_records post
             (λ oc bf, match post oc bf with Ok r => r | Err _ => [] end)) in Hok.
  - by injection Hok as <-.
  - intros oc bf Hoc Hbf. by destruct (Hall oc bf Hoc Hbf) as [r ->].
Qed.

(** X4.  The loader succeeds exactly when the request of every pair of a
    listed object class and a listed budget function succeeds; with no
    object class or no budget function listed it asks nothing and leaves
    [amounts] as it is. *)
Theorem download_amounts_succeeds_iff (post : Z → Z → Result (list ApiResult))
    (cats : Categories (Z * string)) (amounts : list AmountRecord) :
  ((∃ amounts', download_amounts post cats amounts = Ok amounts') ↔
   ∀ oc bf, oc ∈ object_class cats → bf ∈ budget_function cats →
     ∃ response, post oc.1 bf.1 = Ok response) ∧
  (object_class cats = [] ∨ budget_function cats = [] →
   download_amounts post cats amounts = Ok amounts).
Proof.
  split; [split|].
  - intros [amounts' Hok]. by eapply download_amounts_all_ok.
  - intros Hall.
    rewrite (download_amounts_records post
               (λ oc bf, match post oc bf with Ok r => r | Err _ => [] end)).
    + by eexists.
    + intros oc bf Hoc Hbf. by destruct (Hall oc bf Hoc Hbf) as [r ->].
  - intros Hempty. unfold download_amounts. rewrite amount_requests_bind.
    destruct Hempty as [-> | ->]; simpl.
    + done.
    + induction (object_class cats) as [|oc ocs IH]; [done|].
      by rewrite bind_cons.
Qed.

(** X5.  Every record that the loader appends carries the name of a
    listed object class and the name of a listed budget function. *)
Theorem download_amounts_names (post : Z → Z → Result (list ApiResult))
    (cats : Categories (Z * string)) (amounts amounts' : list AmountRecord) :
  download_amounts post cats amounts = Ok amounts' →
  ∃ added, amounts' = amounts ++ added ∧
    ∀ a, a ∈ added →
      a_object_class a ∈ remove_ids (object_class cats) ∧
      a_budget_function a ∈ remove_ids (budget_function cats).
Proof.
  intros Hok. eexists. split; [by apply download_amounts_responses in Hok|].
  intros a Ha.
  apply list_elem_of_bind in Ha as (oc & Ha & Hoc).
  apply list_elem_of_bind in Ha as (bf & Ha & Hbf).
  apply list_elem_of_fmap in Ha as (r & -> & _). simpl.
  unfold remove_ids. split; apply list_elem_of_fmap; eauto.
Qed.

(** *** Sums over the appended records *)

Lemma filter_bind_single {A B} (P : B → Prop) `{!∀ y, Decision (P y)}
    (l : list A) (f : A → list B) (x : A) :
  NoDup l → x ∈ l →
  (∀ y, y ∈ l → y ≠ x → ∀ e, e ∈ f y → ¬ P e) →
  filter P (l ≫= f) = filter P (f x).
Proof.
  induction l as [|y l IH]; intros Hnd Hx Hother.
  - by apply elem_of_nil in Hx.
  - apply list.NoDup_cons in Hnd as [Hy Hnd].
    rewrite bind_cons, list.filter_app.
    apply elem_of_cons in Hx as [->|Hx].
    + rewrite (filter_none P (l ≫= f)); [by rewrite app_nil_r|].
      intros e He. apply list_elem_of_bind in He as (z & He & Hz).
      apply (Hother z); [by right | by intros -> | done].
    + rewrite (filter_none P (f y)).
      * apply IH; [done | done |]. intros z Hz. apply Hother. by right.
      * apply Hother; [by left | by intros ->].
Qed.

Lemma filter_all {A} (P : A → Prop) `{!∀ x, Decision (P x)} (l : list A) :
  (∀ x, x ∈ l → P x) → filter P l = l.
Proof.
  induction l as [|x l IH]; intros Hl; [done|].
  rewrite filter_cons_True by (apply Hl; left).
  f_equal. apply IH. intros y Hy. apply Hl. by right.
Qed.

Lemma NoDup_fmap_elem_inj {A B} (f : A → B) (l : list A) (x y : A) :
  NoDup (f <$> l) → x ∈ l → y ∈ l → f x = f y → x = y.
Proof.
  induction l as [|z l IH]; intros Hnd Hx Hy Hf.
  - by apply elem_of_nil in Hx.
  - rewrite fmap_cons in Hnd. apply list.NoDup_cons in Hnd as [Hz Hnd].
    apply elem_of_cons in Hx as [->|Hx]; apply elem_of_cons in Hy as [->|Hy].
    + done.
    + exfalso. apply Hz. rewrite Hf. apply list_elem_of_fmap. eauto.
    + exfalso. apply Hz. rewrite <- Hf. apply list_elem_of_fmap. eauto.
    + by apply IH.
Qed.

Lemma sum_records_of (oc bf : Z * string) (response : list ApiResult) :
  a_amount <$> records_of oc bf response = r_amount <$> response.
Proof. unfold records_of. rewrite <- list_fmap_compose. done. Qed.

(** The records that match a listed pair are the records made of the
    response for that pair, in the order of the response: the sum that
    [sum_filter] takes is the sum of the amounts of the response, added in
    that order. *)
Lemma pair_total_response (post : Z → Z → Result (list ApiResult))
    (cats : Categories (Z * string)) (amounts : list AmountRecord)
    (oc bf : Z * string) (response : list ApiResult) :
  NoDup (remove_ids (object_class cats)) →
  NoDup (remove_ids (budget_function cats)) →
  download_amounts post cats [] = Ok amounts →
  oc ∈ object_class cats → bf ∈ budget_function cats →
  post oc.1 bf.1 = Ok response →
  sum_filter amounts [(Kobject_class, oc.2); (Kbudget_function, bf.2)]
  = float_sum (r_amount <$> response).
Proof.
  intros Hndo Hndb Hok Hoc Hbf Hpost.
  apply download_amounts_responses in Hok. simpl in Hok. subst amounts.
  rewrite sum_filter_2. unfold total_where.
  rewrite (filter_bind_single _ _ _ oc); [|by eapply NoDup_fmap_1 | done |].
  - rewrite (filter_bind_single _ _ _ bf); [|by eapply NoDup_fmap_1 | done |].
    + rewrite Hpost, filter_all, sum_records_of; [done|].
      intros a Ha. by apply list_elem_of_fmap in Ha as (r & -> & _).
    + intros bf' Hbf' Hne a Ha [_ Hb].
      apply list_elem_of_fmap in Ha as (r & -> & _).
      simpl in Hb. apply Hne.
      by apply (NoDup_fmap_elem_inj snd (budget_function cats)).
  - intros oc' Hoc' Hne a Ha [Ho _].
    apply list_elem_of_bind in Ha as (bf' & Ha & _).
    apply list_elem_of_fmap in Ha as (r & -> & _).
    simpl in Ho. apply Hne.
    by apply (NoDup_fmap_elem_inj snd (object_class cats)).
Qed.

(** X6.  When the names of the object classes and of the budget functions
    are pairwise distinct, the sum that [sum_filter] finds for a listed
    pair in the records loaded into an empty [amounts] is the sum of the
    amounts of the response for that pair as a loop over the response
    takes it: added from 0 in the order of the response, every addition
    rounded.  The records of the other pairs, which lie before and after,
    leave the running total as it is. *)
Theorem download_amounts_pair_total (post : Z → Z → Result (list ApiResult))
    (cats : Categories (Z * string)) (amounts : list AmountRecord)
    (oc bf : Z * string) (response : list ApiResult) :
  NoDup (remove_ids (object_class cats)) →
  NoDup (remove_ids (budget_function cats)) →
  download_amounts post cats [] = Ok amounts →
  oc ∈ object_class cats → bf ∈ budget_function cats →
  post oc.1 bf.1 = Ok response →
  sum_filter amounts [(Kobject_class, oc.2); (Kbudget_function, bf.2)]
  = float_sum (r_amount <$> response).
Proof. apply pair_total_response. Qed.

(* ================================================================= *)
(** ** More on the Data Cleaner *)

Lemma indexOf_from_lower (l : list string) (x : string) (i : Z) :
  indexOf_from l x i = (-1)%Z ∨ (i ≤ indexOf_from l x i)%Z.
Proof.
  revert i. induction l as [|y l IH]; intros i; simpl; [by left|].
  case_decide; [right; lia|]. destruct (IH (i + 1)%Z); [by left | right; lia].
Qed.

Lemma indexOf_found (l : list string) (x : string) :
  (0 ≤ indexOf l x)%Z → x ∈ l.
Proof.
  intros Hge. destruct (decide (x ∈ l)) as [|Hout]; [done|].
  rewrite (indexOf_absent _ _ Hout) in Hge. lia.
Qed.

Lemma indexOf_from_app_l (l1 l2 : list string) (x : string) (i : Z) :
  x ∈ l1 → indexOf_from (l1 ++ l2) x i = indexOf_from l1 x i.
Proof.
  revert i. induction l1 as [|y l1 IH]; intros i Hx; simpl.
  - by apply elem_of_nil in Hx.
  - case_decide as Hy; [done|].
    apply elem_of_cons in Hx as [->|Hx]; [done | by apply IH].
Qed.

Lemma indexOf_from_take (l : list string) (x : string) (i : Z) (n : nat) :
  (0 ≤ i)%Z →
  (0 ≤ indexOf_from l x i - i < Z.of_nat n)%Z →
  indexOf_from (take n l) x i = indexOf_from l x i.
Proof.
  revert i n. induction l as [|y l IH]; intros i n Hi Hk.
  - by destruct n.
  - destruct n as [|n]; [lia|]. cbn [take indexOf_from] in *.
    destruct (decide (y = x)); [done|]. apply IH; [lia|].
    destruct (indexOf_from_lower l x (i + 1)); lia.
Qed.

Lemma total_where_fmap (P : AmountRecord → Prop) `{!∀ a, Decision (P a)}
    (g : AmountRecord → AmountRecord) (l : list AmountRecord) :
  (∀ a, a_amount (g a) = a_amount a) →
  total_where P (g <$> l) = total_where (λ a, P (g a)) l.
Proof.
  intros Hg. unfold total_where. f_equal.
  induction l as [|a l IH]; [done|].
  rewrite fmap_cons, !filter_cons.
  case_decide; [rewrite !fmap_cons, Hg, IH|]; done.
Qed.

Lemma satisfies_without_agency (cs : list (Key * string))
    (a : AmountRecord) (name : string) :
  (∀ k v, (k, v) ∈ cs → k ≠ Kagency) →
  satisfies (set_agency a name) cs = satisfies a cs.
Proof.
  induction cs as [|[k v] cs IH]; intros Hcs; [done|]. simpl.
  assert (get_field (set_agency a name) k = get_field a k) as ->.
  { destruct k; try done. by destruct (Hcs Kagency v); [left|]. }
  rewrite IH; [done|]. intros k' v' Hin. apply (Hcs k' v'). by right.
Qed.

Lemma sum_filter_consolidated (n : Z) (st : State) (cs : list (Key * string)) :
  (∀ k v, (k, v) ∈ cs → k ≠ Kagency) →
  sum_filter (amounts (consolidate_agencies n st)) cs = sum_filter (amounts st) cs.
Proof.
  intros Hcs. rewrite !sum_filter_total. simpl.
  rewrite total_where_fmap by (intros a; by destruct (_ >=? _)%Z).
  apply total_where_ext. intros a.
  destruct (_ >=? _)%Z; [|done]. by rewrite satisfies_without_agency.
Qed.

(** X7.  Consolidation, with any cutoff, changes no sum that
    [sum_filter] takes under constraints that do not name the agency: the
    sums of an object class and of a pair of an object class and a budget
    function are the same before and after. *)
Theorem consolidate_agencies_sums (n : Z) (st : State) (cs : list (Key * string)) :
  (∀ k v, (k, v) ∈ cs → k ≠ Kagency) →
  sum_filter (amounts (consolidate_agencies n st)) cs = sum_filter (amounts st) cs.
Proof. apply sum_filter_consolidated. Qed.

(** X8.  With a negative cutoff every record is rewritten to ["Other"],
    the agency of an unlisted name included, and [splice] counts the
    cutoff from the end of the list: the list loses its last [-n] names,
    all of them when it has fewer, before ["Other"] is appended. *)
Theorem consolidate_agencies_negative (n : Z) (st : State) :
  (n < 0)%Z →
  let st' := consolidate_agencies n st in
  let old := agency (categories st) in
  agency (categories st') =
    take (Z.to_nat (Z.of_nat (length old) + n)) old ++ ["Other"] ∧
  ∀ a, a ∈ amounts st' → a_agency a = "Other".
Proof.
  intros Hn st' old. split.
  - subst st' old. simpl. unfold splice.
    destruct (Z.ltb_spec n 0) as [_|?]; [|lia].
    f_equal. f_equal. lia.
  - intros a Ha. subst st'. simpl in Ha.
    apply list_elem_of_fmap in Ha as (a0 & -> & _).
    destruct (Z.geb_spec (indexOf (agency (categories st)) (a_agency a0)) n)
      as [_|Hlt]; [done|].
    unfold indexOf in Hlt.
    destruct (indexOf_from_lower (agency (categories st)) (a_agency a0) 0); lia.
Qed.

(** What the cutoff test does to a record that has been through it. *)
Lemma consolidated_again (n : nat) (old : list string) (a : AmountRecord) :
  let step l a :=
    if (indexOf l (a_agency a) >=? Z.of_nat n)%Z then set_agency a "Other" else a in
  step (take n old ++ ["Other"]) (step old a) = step old a.
Proof.
  intros step.
  assert (∀ x, ((indexOf (take n old ++ ["Other"]) (a_agency x) >=? Z.of_nat n)%Z
                = true → a_agency x = "Other") →
               step (take n old ++ ["Other"]) x = x) as Hfix.
  { intros x Hx. unfold step. destruct (_ >=? _)%Z; [|done].
    destruct x as [o b g v]. simpl in *. unfold set_agency. simpl.
    by rewrite Hx. }
  apply Hfix. unfold step.
  destruct (Z.geb_spec (indexOf old (a_agency a)) (Z.of_nat n))
    as [_|Hlt]; [done|].
  intros Hge. apply Z.geb_le in Hge.
  destruct (decide (a_agency a ∈ old)) as [Hin|Hout].
  - exfalso.
    destruct (indexOf_from_present old _ 0 Hin) as (k & Hk & Hl).
    unfold indexOf in *.
    assert (a_agency a ∈ take n old) as Hin'.
    { apply list_elem_of_lookup. exists k. rewrite lookup_take_lt by lia. done. }
    rewrite indexOf_from_app_l, indexOf_from_take in Hge by (done || lia). lia.
  - assert (a_agency a ∈ take n old ++ ["Other"]) as Hin.
    { apply indexOf_found. lia. }
    apply elem_of_app in Hin as [Hin|Hin].
    + exfalso. apply Hout. rewrite <- (take_drop n old). apply elem_of_app. by left.
    + by apply list_elem_of_singleton in Hin.
Qed.

(** X9.  Consolidating a second time with the same cutoff [0 ≤ n] that
    does not exceed the number of listed agencies changes nothing. *)
Theorem consolidate_agencies_idempotent (n : Z) (st : State) :
  (0 ≤ n ≤ Z.of_nat (length (agency (categories st))))%Z →
  consolidate_agencies n (consolidate_agencies n st) = consolidate_agencies n st.
Proof.
  intros [Hn Hlen]. unfold consolidate_agencies at 1 3. simpl.
  f_equal.
  - f_equal. rewrite !splice_nonneg by done.
    f_equal. rewrite take_app_le by (rewrite length_take; lia).
    by rewrite take_take, Nat.min_id.
  - rewrite <- list_fmap_compose. apply list_fmap_ext. intros _ a _. simpl.
    rewrite !splice_nonneg by done.
    pose proof (consolidated_again (Z.to_nat n) (agency (categories st)) a) as H.
    simpl in H. rewrite Z2Nat.id in H by done. exact H.
Qed.

(** With a cutoff beyond the end of the list the second consolidation
    appends a second ["Other"]. *)
Example consolidate_agencies_twice_short :
  agency (categories (consolidate_agencies 18 (consolidate_agencies 18 one_agency)))
  = ["Defense"; "Other"; "Other"].
Proof. reflexivity. Qed.

(** X10.  [clean_data] keeps the names of the object classes and of the
    budget functions in their order, and leaves at most 19 agencies: the
    names of the first 18 followed by ["Other"]; it keeps the number of
    records. *)
Theorem clean_data_categories (raw : Categories (Z * string))
    (amounts0 : list AmountRecord) :
  let st := clean_data raw amounts0 in
  object_class (categories st) = snd <$> object_class raw ∧
  budget_function (categories st) = snd <$> budget_function raw ∧
  agency (categories st) = (snd <$> take 18 (agency raw)) ++ ["Other"] ∧
  (1 ≤ length (agency (categories st)) ≤ 19)%nat ∧
  length (amounts st) = length amounts0.
Proof.
  intros st. subst st. unfold clean_data. simpl.
  rewrite splice_nonneg by lia. unfold remove_ids.
  change (Z.to_nat 18) with 18%nat. rewrite <- fmap_take.
  split_and!; try done.
  - rewrite length_app. cbn [length]. lia.
  - rewrite length_app, length_fmap, length_take. cbn [length]. lia.
  - by rewrite length_fmap.
Qed.

(** *** Sums by agency *)

Lemma indexOf_in_take (l : list string) (x : string) (n : nat) :
  x ∈ take n l → (0 ≤ indexOf l x < Z.of_nat n)%Z.
Proof.
  intros Hin. unfold indexOf.
  assert (indexOf_from l x 0 = indexOf_from (take n l) x 0) as ->.
  { rewrite <- (take_drop n l) at 1. by rewrite indexOf_from_app_l. }
  destruct (indexOf_from_present (take n l) x 0 Hin) as (k & -> & Hk).
  apply lookup_lt_Some in Hk. rewrite length_take in Hk. lia.
Qed.

Lemma indexOf_in_drop (l : list string) (x : string) (n : nat) :
  NoDup l → x ∈ drop n l → (Z.of_nat n ≤ indexOf l x)%Z.
Proof.
  intros Hnd Hin.
  rewrite <- (take_drop n l) in Hnd.
  apply list.NoDup_app in Hnd as (_ & Hdis & _).
  assert (x ∈ l) as Hl.
  { rewrite <- (take_drop n l). apply elem_of_app. by right. }
  destruct (indexOf_from_present l x 0 Hl) as (k & Hk & Hlk).
  unfold indexOf. rewrite Hk.
  destruct (decide (k < n)%nat) as [Hlt|]; [|lia].
  exfalso. apply (Hdis x); [|done].
  apply list_elem_of_lookup. exists k. by rewrite lookup_take_lt.
Qed.

(** X11.  With a cutoff [n ≥ 0] and ["Other"] not a listed name, the
    sum that [sum_filter] takes for an object class, a budget function and
    one of the first [n] agencies is the same before and after the
    consolidation. *)
Theorem consolidate_agencies_kept_sum (n : Z) (st : State) (oc bf ag : string) :
  (0 ≤ n)%Z →
  "Other" ∉ agency (categories st) →
  ag ∈ take (Z.to_nat n) (agency (categories st)) →
  sum_filter (amounts (consolidate_agencies n st))
    [(Kobject_class, oc); (Kbudget_function, bf); (Kagency, ag)]
  = sum_filter (amounts st)
      [(Kobject_class, oc); (Kbudget_function, bf); (Kagency, ag)].
Proof.
  intros Hn Hother Hag. rewrite !sum_filter_3. simpl.
  rewrite total_where_fmap by (intros a; by destruct (_ >=? _)%Z).
  apply total_where_ext. intros a.
  assert (ag ≠ "Other") as Hne.
  { intros ->. apply Hother. rewrite <- (take_drop (Z.to_nat n)).
    apply elem_of_app. by left. }
  destruct (Z.geb_spec (indexOf (agency (categories st)) (a_agency a)) n)
    as [Hge|Hlt]; [|done].
  simpl. split.
  - intros (_ & _ & Heq). congruence.
  - intros (_ & _ & Heq). exfalso. rewrite Heq in Hge.
    apply indexOf_in_take in Hag. lia.
Qed.

(** X12.  With a cutoff [n ≥ 0] and pairwise distinct agency names, the
    records that [sum_filter] counts for an object class, a budget
    function and ["Other"] after the consolidation are the records of
    that pair whose agency was ["Other"] or one of the excluded names,
    those after the first [n]: the sum is the sum of their amounts, added
    in the order of the records.  No record is lost or counted twice. *)
Theorem consolidate_agencies_other_sum (n : Z) (st : State) (oc bf : string) :
  (0 ≤ n)%Z →
  NoDup (agency (categories st)) →
  sum_filter (amounts (consolidate_agencies n st))
    [(Kobject_class, oc); (Kbudget_function, bf); (Kagency, "Other")]
  = total_where
      (λ a, a_object_class a = oc ∧ a_budget_function a = bf ∧
            (a_agency a = "Other" ∨
             a_agency a ∈ drop (Z.to_nat n) (agency (categories st))))
      (amounts st).
Proof.
  intros Hn Hnd.
  set (old := agency (categories st)) in *.
  rewrite sum_filter_3. simpl. fold old.
  rewrite total_where_fmap by (intros a; by destruct (_ >=? _)%Z).
  apply total_where_ext. intros a.
  destruct (Z.geb_spec (indexOf old (a_agency a)) n) as [Hge|Hlt]; simpl.
  - assert (a_agency a ∈ old) as Hin by (apply indexOf_found; lia).
    assert (a_agency a ∈ drop (Z.to_nat n) old) as Hdrop.
    { rewrite <- (take_drop (Z.to_nat n) old) in Hin.
      apply elem_of_app in Hin as [Hin|Hin]; [|done].
      apply indexOf_in_take in Hin. lia. }
    tauto.
  - split; [tauto|]. intros (Ho & Hb & [Hother|Hin]); [tauto|].
    apply (indexOf_in_drop old _ _ Hnd) in Hin. lia.
Qed.
(* ================================================================= *)
(** ** More on the Graph Builder *)

(** X13.  What a read of [ids[c]] gives on the object that [gen_ids]
    returns.  For ["__proto__"], listed or not, it is the prototype: the
    assignment under that name has stored nothing.  For any other name
    that is not listed it is [undefined], unless [Object.prototype] has a
    property of that name, which is then what the read gives.  For a
    listed name other than ["__proto__"] it is the index of the node
    appended for its last occurrence: the number of nodes before the call
    plus the position of that occurrence. *)
Theorem gen_ids_index (cats : list string) (nodes : list GraphNode) (c : string) :
  let ids := (gen_ids cats nodes).1 in
  (c = "__proto__" → get_property ids c = Inherited c) ∧
  (c ≠ "__proto__" → c ∉ cats →
   get_property ids c =
   if decide (c ∈ object_prototype) then Inherited c else Undefined) ∧
  (c ≠ "__proto__" →
   ∀ k : nat, cats !! k = Some c →
     (∀ k' : nat, (k < k')%nat → cats !! k' ≠ Some c) →
     get_property ids c = Index (length nodes + k)%nat).
Proof.
  intros ids. subst ids. split_and!.
  - intros ->. apply gen_ids_proto.
  - intros _ Hout. unfold get_property.
    by rewrite (gen_ids_own_unlisted _ _ _ Hout).
  - intros Hp k Hk Hlast. apply get_property_Index.
    by apply gen_ids_own_last.
Qed.

(** The ranges of the indices that the three [ids] objects give for the
    listed names other than ["__proto__"]. *)
Lemma ids_ranges (st : State) :
  let cats := categories st in
  let no := length (object_class cats) in
  let nb := length (budget_function cats) in
  let na := length (agency cats) in
  let g := create_graph st in
  length (nodes g) = (1 + no + nb + na)%nat ∧
  (∀ oc, oc ∈ object_class cats → oc ≠ "__proto__" →
     ∃ i : nat, get_property (object_class_ids st) oc = Index i ∧
       (1 ≤ i < 1 + no)%nat ∧ nodes g !! i = Some {| name := oc |}) ∧
  (∀ bf, bf ∈ budget_function cats → bf ≠ "__proto__" →
     ∃ i : nat, get_property (budget_function_ids st) bf = Index i ∧
       (1 + no ≤ i < 1 + no + nb)%nat ∧ nodes g !! i = Some {| name := bf |}) ∧
  (∀ ag, ag ∈ agency cats → ag ≠ "__proto__" →
     ∃ i : nat, get_property (agency_ids st) ag = Index i ∧
       (1 + no + nb ≤ i < 1 + no + nb + na)%nat ∧
       nodes g !! i = Some {| name := ag |}).
Proof.
  intros cats no nb na g. subst g no nb na cats. split_and!.
  - rewrite create_graph_nodes. cbn [length].
    rewrite !length_app, !length_fmap. lia.
  - intros oc Hoc Hp.
    destruct (gen_ids_lookup _ [root_node] oc Hoc Hp) as (i & Hi & Hr & _).
    destruct (object_class_ids_lookup st oc Hoc Hp) as (i' & Hi' & _ & Hn).
    unfold object_class_ids in Hi'. rewrite Hi in Hi'. injection Hi' as <-.
    exists i. split; [done|]. split; [|done]. simpl in Hr. lia.
  - intros bf Hbf Hp.
    destruct (gen_ids_lookup _
                (gen_ids (object_class (categories st)) [root_node]).2 bf Hbf Hp)
      as (i & Hi & Hr & _).
    destruct (budget_function_ids_lookup st bf Hbf Hp) as (i' & Hi' & _ & Hn).
    unfold budget_function_ids in Hi'. rewrite Hi in Hi'. injection Hi' as <-.
    exists i. split; [done|]. split; [|done].
    rewrite gen_ids_nodes, length_app, length_fmap in Hr. simpl in Hr. lia.
  - intros ag Hag Hp.
    destruct (gen_ids_lookup _
                (gen_ids (budget_function (categories st))
                   (gen_ids (object_class (categories st)) [root_node]).2).2 ag Hag Hp)
      as (i & Hi & Hr & _).
    destruct (agency_ids_lookup st ag Hag Hp) as (i' & Hi' & _ & Hn).
    unfold agency_ids in Hi'. rewrite Hi in Hi'. injection Hi' as <-.
    exists i. split; [done|]. split; [|done].
    rewrite !gen_ids_nodes, !length_app, !length_fmap in Hr. simpl in Hr. lia.
Qed.

(** X14.  The graph has one node for the root and one for every entry of
    the three category lists, in that order.  When no listed name is
    ["__proto__"], every link runs from a node to a node of a higher
    index, both in the node list: a root link from node 0 to a node that
    bears the object class, a pair link from a node that bears the object
    class to one that bears the budget function, a triple link from a
    node that bears the budget function to one that bears the agency; no
    link has an end that is not a node. *)
Theorem links_run_forward (st : State) (e : GraphLink) :
  let g := create_graph st in
  let cats := categories st in
  nodes g =
    root_node :: (Build_GraphNode <$>
      object_class cats ++ budget_function cats ++ agency cats) ∧
  (("__proto__" ∉ object_class cats ++ budget_function cats ++ agency cats) →
   e ∈ links g →
   ∃ i j : nat, source e = Index i ∧ target e = Index j ∧
     (i < j < length (nodes g))%nat ∧
     ((∃ oc, names e = [oc] ∧ i = 0%nat ∧ nodes g !! j = Some {| name := oc |}) ∨
      (∃ oc bf, names e = [oc; bf] ∧
         nodes g !! i = Some {| name := oc |} ∧
         nodes g !! j = Some {| name := bf |}) ∨
      (∃ oc bf ag, names e = [oc; bf; ag] ∧
         nodes g !! i = Some {| name := bf |} ∧
         nodes g !! j = Some {| name := ag |}))).
Proof.
  intros g cats. subst g cats. split.
  - by rewrite create_graph_nodes, !fmap_app.
  - intros Hp He.
    assert (∀ c, c ∈ object_class (categories st) ++
                   budget_function (categories st) ++ agency (categories st) →
                 c ≠ "__proto__") as Hne by (by intros c Hc ->).
    destruct (ids_ranges st) as (Hlen & Hoc & Hbf & Hag). simpl in *.
    apply elem_of_links in He as (oc & Hoc' & He).
    destruct (Hoc oc Hoc') as (io & Hio & Hro & Hno).
    { apply Hne. rewrite !elem_of_app. by left. }
    destruct He as [->|(bf & Hbf' & He)].
    { exists 0%nat, io. simpl. split_and!; try done; try lia.
      left. by exists oc. }
    destruct (Hbf bf Hbf') as (ib & Hib & Hrb & Hnb).
    { apply Hne. rewrite !elem_of_app. right. by left. }
    destruct He as [[_ ->]|(ag & Hag' & _ & ->)].
    { exists io, ib. simpl. split_and!; try done; try lia.
      right; left. by exists oc, bf. }
    destruct (Hag ag Hag') as (ia & Hia & Hra & Hna).
    { apply Hne. rewrite !elem_of_app. right. by right. }
    exists ib, ia. simpl. split_and!; try done; try lia.
    right; right. by exists oc, bf, ag.
Qed.

(** The values of the agency links of a pair need not add up to the value
    of the pair link: the pair link carries the amounts added in the
    order of the records, the agency links the amounts added agency by
    agency. *)
#[warnings="-inexact-float"] Example create_graph_order_records :
  value <$> links (create_graph order_records)
  = [1957.9300000000001; 1957.9300000000001; 719.68; 1238.25]%float ∧
  (719.68 + 1238.25)%float = 1957.9299999999998%float.
Proof. split; by vm_compute. Qed.

(* ================================================================= *)
(** ** The sums over exact arithmetic *)

Lemma exact_total_where_cons (P : AmountRecord → Prop) `{!∀ a, Decision (P a)}
    (a : AmountRecord) (amounts : list AmountRecord) :
  exact_total_where P (a :: amounts) =
  if decide (P a) then rational_of (a_amount a) + exact_total_where P amounts
  else exact_total_where P amounts.
Proof.
  unfold exact_total_where, exact_sum, sum_Qc. rewrite filter_cons.
  by case_decide.
Qed.

Lemma exact_total_where_nil (P : AmountRecord → Prop) `{!∀ a, Decision (P a)} :
  exact_total_where P [] = 0.
Proof. done. Qed.

Lemma exact_sum_filter_acc (amounts : list AmountRecord)
    (cs : list (Key * string)) (acc : Qc) :
  fold_left
    (λ total amount,
       if satisfies amount cs then total + rational_of (a_amount amount)
       else total)
    amounts acc
  = acc + exact_total_where (λ a, satisfies a cs = true) amounts.
Proof.
  revert acc. induction amounts as [|a amounts IH]; intros acc.
  - rewrite exact_total_where_nil. cbn [fold_left]. ring.
  - cbn [fold_left]. rewrite IH, exact_total_where_cons.
    destruct (satisfies a cs) eqn:Ha.
    + rewrite decide_True by done. ring.
    + rewrite decide_False by done. done.
Qed.

Lemma exact_total_where_ext (P Q : AmountRecord → Prop)
    `{!∀ a, Decision (P a)} `{!∀ a, Decision (Q a)} (amounts : list AmountRecord) :
  (∀ a, a ∈ amounts → P a ↔ Q a) →
  exact_total_where P amounts = exact_total_where Q amounts.
Proof.
  intros HPQ. induction amounts as [|a amounts IH]; [done|].
  rewrite !exact_total_where_cons, IH by (intros; apply HPQ; by right).
  pose proof (HPQ a ltac:(left)) as Ha.
  destruct (decide (P a)); [rewrite decide_True by tauto
                           |rewrite decide_False by tauto]; done.
Qed.

(** Over exact arithmetic [sum_filter] gives the sum of the amounts of
    the records that satisfy the constraints. *)
Lemma exact_sum_filter_total (amounts : list AmountRecord)
    (cs : list (Key * string)) :
  exact_sum_filter amounts cs
  = exact_total_where (λ a, satisfies a cs = true) amounts.
Proof. unfold exact_sum_filter. rewrite exact_sum_filter_acc. ring. Qed.

Lemma exact_sum_filter_1 (amounts : list AmountRecord) (oc : string) :
  exact_sum_filter amounts [(Kobject_class, oc)]
  = exact_total_where (λ a, a_object_class a = oc) amounts.
Proof.
  rewrite exact_sum_filter_total. apply exact_total_where_ext. intros a _.
  rewrite satisfies_cons. simpl. tauto.
Qed.

Lemma exact_sum_filter_2 (amounts : list AmountRecord) (oc bf : string) :
  exact_sum_filter amounts [(Kobject_class, oc); (Kbudget_function, bf)]
  = exact_total_where
      (λ a, a_object_class a = oc ∧ a_budget_function a = bf) amounts.
Proof.
  rewrite exact_sum_filter_total. apply exact_total_where_ext. intros a _.
  rewrite !satisfies_cons. simpl. tauto.
Qed.

Lemma exact_sum_filter_3 (amounts : list AmountRecord) (oc bf ag : string) :
  exact_sum_filter amounts
    [(Kobject_class, oc); (Kbudget_function, bf); (Kagency, ag)]
  = exact_total_where
      (λ a, a_object_class a = oc ∧ a_budget_function a = bf ∧ a_agency a = ag)
      amounts.
Proof.
  rewrite exact_sum_filter_total. apply exact_total_where_ext. intros a _.
  rewrite !satisfies_cons. simpl. tauto.
Qed.

Lemma exact_total_where_none (P : AmountRecord → Prop) `{!∀ a, Decision (P a)}
    (l : list AmountRecord) :
  (∀ a, a ∈ l → ¬ P a) → exact_total_where P l = 0.
Proof.
  intros Hl. unfold exact_total_where. by rewrite filter_none.
Qed.

Lemma exact_total_where_or (P Q : AmountRecord → Prop)
    `{!∀ a, Decision (P a)} `{!∀ a, Decision (Q a)} (l : list AmountRecord) :
  (∀ a, P a → Q a → False) →
  exact_total_where (λ a, P a ∨ Q a) l
  = exact_total_where P l + exact_total_where Q l.
Proof.
  intros Hdis. induction l as [|a l IH].
  - rewrite !exact_total_where_nil. ring.
  - rewrite !exact_total_where_cons, IH.
    destruct (decide (P a)) as [HP|HP]; destruct (decide (Q a)) as [HQ|HQ].
    + by destruct (Hdis a).
    + rewrite decide_True by (by left). ring.
    + rewrite decide_True by (by right). ring.
    + rewrite decide_False by tauto. done.
Qed.

(** The sums taken key by key over a duplicate-free list of keys add up
    to the sum of the records whose key is in the list. *)
Lemma exact_total_where_keys (P : AmountRecord → Prop) `{!∀ a, Decision (P a)}
    (f : AmountRecord → string) (keys : list string) (l : list AmountRecord) :
  NoDup keys →
  sum_Qc ((λ k, exact_total_where (λ a, P a ∧ f a = k) l) <$> keys)
  = exact_total_where (λ a, P a ∧ f a ∈ keys) l.
Proof.
  induction keys as [|k keys IH]; intros Hnd.
  - unfold sum_Qc. simpl. symmetry. apply exact_total_where_none.
    intros a _ [_ Hin]. by apply elem_of_nil in Hin.
  - apply list.NoDup_cons in Hnd as [Hk Hnd].
    rewrite fmap_cons. unfold sum_Qc in *. cbn [foldr]. rewrite IH by done.
    rewrite <- exact_total_where_or.
    + apply exact_total_where_ext. intros a _. rewrite elem_of_cons. tauto.
    + intros a [_ <-] [_ Hin]. done.
Qed.

(** X15.  Over exact arithmetic, and over a duplicate-free list of
    agencies that holds the agency of every record of an object class and
    a budget function, the sums that [sum_filter] takes agency by agency
    add up to the sum that it takes for the object class and the budget
    function. *)
Theorem sum_filter_by_agency (amounts : list AmountRecord) (oc bf : string)
    (agencies : list string) :
  NoDup agencies →
  (∀ a, a ∈ amounts → a_object_class a = oc → a_budget_function a = bf →
     a_agency a ∈ agencies) →
  sum_Qc
    ((λ ag, exact_sum_filter amounts
              [(Kobject_class, oc); (Kbudget_function, bf); (Kagency, ag)])
     <$> agencies)
  = exact_sum_filter amounts [(Kobject_class, oc); (Kbudget_function, bf)].
Proof.
  intros Hnd Hlisted. rewrite exact_sum_filter_2.
  rewrite (exact_total_where_ext
             (λ a, a_object_class a = oc ∧ a_budget_function a = bf)
             (λ a, (a_object_class a = oc ∧ a_budget_function a = bf) ∧
                   a_agency a ∈ agencies) amounts).
  - rewrite <- (exact_total_where_keys _ a_agency) by done.
    f_equal. apply list_fmap_ext. intros _ ag _. rewrite exact_sum_filter_3.
    apply exact_total_where_ext. intros a _. tauto.
  - intros a Ha. split; [|tauto]. intros [Ho Hb]. split; [done|].
    by apply Hlisted.
Qed.

(** X16.  Over exact arithmetic, and over a duplicate-free list of budget
    functions that holds the budget function of every record of an object
    class, the sums that [sum_filter] takes for the pairs add up to the
    sum that it takes for the object class. *)
Theorem sum_filter_by_budget_function (amounts : list AmountRecord) (oc : string)
    (budget_functions : list string) :
  NoDup budget_functions →
  (∀ a, a ∈ amounts → a_object_class a = oc →
     a_budget_function a ∈ budget_functions) →
  sum_Qc
    ((λ bf, exact_sum_filter amounts
              [(Kobject_class, oc); (Kbudget_function, bf)])
     <$> budget_functions)
  = exact_sum_filter amounts [(Kobject_class, oc)].
Proof.
  intros Hnd Hlisted. rewrite exact_sum_filter_1.
  rewrite (exact_total_where_ext
             (λ a, a_object_class a = oc)
             (λ a, a_object_class a = oc ∧
                   a_budget_function a ∈ budget_functions) amounts).
  - rewrite <- (exact_total_where_keys _ a_budget_function) by done.
    f_equal. apply list_fmap_ext. intros _ bf _. by rewrite exact_sum_filter_2.
  - intros a Ha. split; [|tauto]. intros Ho. split; [done|]. by apply Hlisted.
Qed.

(* ================================================================= *)
(** ** Renderer: colours *)

Lemma color_of_listed (cats : Categories string) (e : GraphLink)
    (oc : string) (rest : list string) :
  names e = oc :: rest → oc ∈ object_class cats →
  ∃ k : nat, indexOf (object_class cats) oc = Z.of_nat k ∧
    object_class cats !! k = Some oc ∧ color cats e = palette !! k.
Proof.
  intros Hn Hoc.
  destruct (indexOf_from_present _ oc 0 Hoc) as (k & Hk & Hl).
  exists k. unfold color, indexOf. rewrite Hn, Hk. split; [lia|]. split; [done|].
  destruct (Z.ltb_spec (0 + Z.of_nat k) 0) as [?|_]; [lia|].
  f_equal. lia.
Qed.

Lemma link_object_class (st : State) (e : GraphLink) :
  e ∈ links (create_graph st) →
  ∃ oc rest, names e = oc :: rest ∧ oc ∈ object_class (categories st).
Proof.
  intros He. apply elem_of_links in He as (oc & Hoc & He).
  destruct He as [->|(bf & _ & [[_ ->]|(ag & _ & _ & ->)])]; simpl; eauto.
Qed.

(** X18.  A link of the built graph has a colour exactly when the first
    position of its object class in the object class list is below 6,
    the size of the palette; so every link has one when at most six
    object classes are listed, and otherwise the colour is undefined. *)
Theorem color_defined (st : State) (e : GraphLink) :
  e ∈ links (create_graph st) →
  ∃ oc rest, names e = oc :: rest ∧
    (is_Some (color (categories st) e) ↔
     (indexOf (object_class (categories st)) oc < 6)%Z) ∧
    ((length (object_class (categories st)) ≤ 6)%nat →
     is_Some (color (categories st) e)).
Proof.
  intros He. destruct (link_object_class st e He) as (oc & rest & Hn & Hoc).
  exists oc, rest. split; [done|].
  destruct (color_of_listed _ e oc rest Hn Hoc) as (k & Hk & Hl & ->).
  rewrite Hk, lookup_lt_is_Some. change (length palette) with 6%nat.
  split; [lia|]. intros Hlen. apply lookup_lt_Some in Hl. lia.
Qed.

(** X19.  Two links of the built graph that get the same colour bear the
    same object class: the palette has no colour twice, and the colour is
    found by the first position of the object class. *)
Theorem color_injective (st : State) (e1 e2 : GraphLink) (c : string) :
  e1 ∈ links (create_graph st) → e2 ∈ links (create_graph st) →
  color (categories st) e1 = Some c → color (categories st) e2 = Some c →
  head (names e1) = head (names e2).
Proof.
  intros He1 He2 Hc1 Hc2.
  destruct (link_object_class st e1 He1) as (oc1 & rest1 & Hn1 & Hoc1).
  destruct (link_object_class st e2 He2) as (oc2 & rest2 & Hn2 & Hoc2).
  destruct (color_of_listed _ e1 oc1 rest1 Hn1 Hoc1) as (k1 & _ & Hl1 & Hk1).
  destruct (color_of_listed _ e2 oc2 rest2 Hn2 Hoc2) as (k2 & _ & Hl2 & Hk2).
  rewrite Hk1 in Hc1. rewrite Hk2 in Hc2.
  assert (NoDup palette) as Hnd.
  { apply (bool_decide_unpack _). by vm_compute. }
  assert (k1 = k2) as -> by (by eapply NoDup_lookup).
  rewrite Hn1, Hn2. simpl. congruence.
Qed.

(* ================================================================= *)
(** ** The run up to the graph *)

Lemma main_graph_ok (post : string → Result (list ApiResult))
    (post_amounts : Z → Z → Result (list ApiResult))
    (raw : Categories (Z * string)) (amounts : list AmountRecord) :
  download_categories post = Ok raw →
  download_amounts post_amounts raw [] = Ok amounts →
  main_graph post post_amounts = Ok (create_graph (clean_data raw amounts)).
Proof. intros Hraw Ham. unfold main_graph. by rewrite Hraw; simpl; rewrite Ham. Qed.

(** X20.  The run reaches the graph exactly when the three category
    requests give a table and the amount request of every pair of a
    listed object class and a listed budget function succeeds. *)
Theorem main_graph_succeeds_iff (post : string → Result (list ApiResult))
    (post_amounts : Z → Z → Result (list ApiResult)) :
  (∃ g, main_graph post post_amounts = Ok g) ↔
  ∃ raw, download_categories post = Ok raw ∧
    ∀ oc bf, oc ∈ object_class raw → bf ∈ budget_function raw →
      ∃ response, post_amounts oc.1 bf.1 = Ok response.
Proof.
  split.
  - intros [g Hg]. unfold main_graph in Hg.
    destruct (download_categories post) as [raw|] eqn:Hraw; [|done].
    simpl in Hg.
    destruct (download_amounts post_amounts raw []) as [amounts|] eqn:Ham; [|done].
    exists raw. split; [done|]. by eapply download_amounts_all_ok.
  - intros (raw & Hraw & Hall).
    eexists. apply (main_graph_ok _ _ raw); [done|].
    apply (download_amounts_records post_amounts
             (λ oc bf, match post_amounts oc bf with Ok r => r | Err _ => [] end)).
    intros oc bf Hoc Hbf. by destruct (Hall oc bf Hoc Hbf) as [r ->].
Qed.

(** X21.  In the graph of a run, when the names of the object classes and
    of the budget functions are pairwise distinct, the link of a listed
    pair exists exactly when the amounts of the response for that pair,
    added from 0 in the order of the response with every addition
    rounded, give a number above 0, and its value is that number:
    consolidation of the agencies does not touch it. *)
Theorem main_graph_pair_link (post : string → Result (list ApiResult))
    (post_amounts : Z → Z → Result (list ApiResult))
    (raw : Categories (Z * string)) (g : Graph)
    (oc bf : Z * string) (response : list ApiResult) :
  download_categories post = Ok raw →
  main_graph post post_amounts = Ok g →
  NoDup (remove_ids (object_class raw)) →
  NoDup (remove_ids (budget_function raw)) →
  oc ∈ object_class raw → bf ∈ budget_function raw →
  post_amounts oc.1 bf.1 = Ok response →
  let total := float_sum (r_amount <$> response) in
  (positive total →
   ∃ e, e ∈ links g ∧ names e = [oc.2; bf.2] ∧ value e = total) ∧
  (∀ e, e ∈ links g → names e = [oc.2; bf.2] →
   value e = total ∧ positive total).
Proof.
  intros Hraw Hg Hndo Hndb Hoc Hbf Hresp total.
  unfold main_graph in Hg. rewrite Hraw in Hg. simpl in Hg.
  destruct (download_amounts post_amounts raw []) as [loaded|] eqn:Ham; [|done].
  injection Hg as <-.
  set (st := clean_data raw loaded).
  assert (value (budget_function_link st oc.2 bf.2) = total) as Hval.
  { unfold budget_function_link. cbn [value]. unfold st, clean_data.
    rewrite sum_filter_consolidated.
    - cbn [amounts]. by eapply pair_total_response.
    - intros k v. rewrite !elem_of_cons, elem_of_nil.
      intros [[= -> _]|[[= -> _]|[]]]; done. }
  assert (oc.2 ∈ object_class (categories st)) as Hoc'.
  { simpl. unfold remove_ids. apply list_elem_of_fmap. eauto. }
  assert (bf.2 ∈ budget_function (categories st)) as Hbf'.
  { simpl. unfold remove_ids. apply list_elem_of_fmap. eauto. }
  split.
  - intros Hpos. exists (budget_function_link st oc.2 bf.2).
    split; [|done]. apply elem_of_links. exists oc.2. split; [done|].
    right. exists bf.2. split; [done|]. left. by rewrite Hval.
  - intros e He Hn. apply elem_of_links in He as (oc' & _ & He).
    destruct He as [->|(bf' & _ & [[Hpos ->]|(ag & _ & _ & ->)])];
      simpl in Hn; try done.
    injection Hn as -> ->. rewrite <- Hval. done.
Qed.

(** X22.  The graph of a run has the root node, one node for every
    retained object class and budget function, and at most 19 agency
    nodes, of which the last of all nodes is ["Other"]. *)
Theorem main_graph_nodes (post : string → Result (list ApiResult))
    (post_amounts : Z → Z → Result (list ApiResult))
    (raw : Categories (Z * string)) (g : Graph) :
  download_categories post = Ok raw →
  main_graph post post_amounts = Ok g →
  nodes g =
    root_node ::
    (Build_GraphNode <$>
       remove_ids (object_class raw) ++ remove_ids (budget_function raw)
       ++ remove_ids (take 18 (agency raw)) ++ ["Other"]) ∧
  length (nodes g) =
    (2 + length (object_class raw) + length (budget_function raw)
     + 18 `min` length (agency raw))%nat.
Proof.
  intros Hraw Hg.
  unfold main_graph in Hg. rewrite Hraw in Hg. simpl in Hg.
  destruct (download_amounts post_amounts raw []) as [amounts|] eqn:Ham; [|done].
  injection Hg as <-.
  assert (nodes (create_graph (clean_data raw amounts)) =
    root_node ::
    (Build_GraphNode <$>
       remove_ids (object_class raw) ++ remove_ids (budget_function raw)
       ++ remove_ids (take 18 (agency raw)) ++ ["Other"])) as Hnodes.
  { rewrite create_graph_nodes. unfold clean_data. simpl.
    rewrite splice_nonneg by lia. change (Z.to_nat 18) with 18%nat.
    unfold remove_ids. by rewrite !fmap_app, !fmap_take. }
  split; [done|]. rewrite Hnodes. cbn [length].
  unfold remove_ids.
  rewrite length_fmap, !length_app, !length_fmap, length_take. cbn [length]. lia.
Qed.

(* ================================================================= *)
(** ** More on the Layout Adjuster *)

(** A layer that the adjuster visits: heights kept, nodes placed with the
    uniform spacing of the layer, gaps all equal to it. *)
Lemma adjusted_layer (g : Layout) (l : Z) :
  (0 ≤ l < 4)%Z →
  let before := layer_of l (layout_nodes g) in
  let after := layer_of l (layout_nodes (justify_vertically g)) in
  height <$> after = height <$> before ∧
  placed (uniform_spacing before) 0 after ∧
  gaps after = replicate (S (length after)) (uniform_spacing before).
Proof.
  intros Hl before after.
  assert (height <$> after = height <$> before) as Hh.
  { apply (kept_layer_heights [0; 1; 2; 3]%Z), justify_layers_kept. }
  pose proof (justify_vertically_balanced l g Hl) as Hb.
  unfold balanced in Hb. fold after in Hb.
  rewrite (uniform_spacing_heights _ _ Hh) in Hb.
  split; [done|]. split; [done|].
  rewrite <- (uniform_spacing_heights _ _ Hh).
  apply placed_uniform_gaps. by rewrite (uniform_spacing_heights _ _ Hh).
Qed.

Lemma uniform_spacing_sign (layer_nodes : list LaidNode) :
  0 ≤ uniform_spacing layer_nodes ↔ occupied layer_nodes ≤ HEIGHT.
Proof.
  pose proof (spacing_divisor_pos (length layer_nodes)) as Hpos.
  pose proof (spacing_divisor_nonzero (length layer_nodes)) as Hnz.
  assert (uniform_spacing layer_nodes
            * Qc_of_Z (Z.of_nat (length layer_nodes + 1))
          = HEIGHT + - occupied layer_nodes) as Hmul.
  { unfold uniform_spacing. field. done. }
  rewrite (Qcle_minus_iff (occupied layer_nodes)), <- Hmul. split.
  - intros Hs.
    rewrite <- (Qcmult_0_l (Qc_of_Z (Z.of_nat (length layer_nodes + 1)))).
    apply Qcmult_le_compat_r; [done | by apply Qclt_le_weak].
  - intros Hs. apply (Qcmult_lt_0_le_reg_r _ _ _ Hpos).
    by rewrite Qcmult_0_l.
Qed.

Lemma gaps_from_last (prev : Qc) (layer_nodes : list LaidNode) (node : LaidNode) :
  layer_nodes !! (length layer_nodes - 1)%nat = Some node →
  gaps_from prev layer_nodes !! length layer_nodes = Some (HEIGHT - y1 node).
Proof.
  revert prev. induction layer_nodes as [|n rest IH]; intros prev Hlast.
  - by rewrite lookup_nil in Hlast.
  - cbn [gaps_from length]. rewrite lookup_cons.
    destruct rest as [|m rest].
    + simpl in *. by injection Hlast as ->.
    + apply IH. cbn [length] in *.
      replace (S (S (length rest)) - 1)%nat with (S (length rest)) in Hlast by lia.
      rewrite lookup_cons in Hlast.
      by replace (S (length rest) - 1)%nat with (length rest) by lia.
Qed.

(** X23.  In each of the four layers the spacing is not negative exactly
    when the nodes of the layer fit into the canvas height.  Then the
    first node of the adjusted layer starts at or below the top of the
    canvas, every next node starts at or below the end of the node before
    it, and the last node ends at or above the bottom.  When the nodes
    do not fit, the spacing is negative and every next node starts above
    the end of the node before it. *)
Theorem justify_vertically_fits (g : Layout) (l : Z) :
  (0 ≤ l < 4)%Z →
  let before := layer_of l (layout_nodes g) in
  let after := layer_of l (layout_nodes (justify_vertically g)) in
  (0 ≤ uniform_spacing before ↔ occupied before ≤ HEIGHT) ∧
  (occupied before ≤ HEIGHT →
   (∀ node, after !! 0%nat = Some node → 0 ≤ y0 node) ∧
   (∀ (i : nat) previous node,
      after !! i = Some previous → after !! S i = Some node →
      y1 previous ≤ y0 node) ∧
   (∀ node, after !! (length after - 1)%nat = Some node → y1 node ≤ HEIGHT)) ∧
  (HEIGHT < occupied before →
   uniform_spacing before < 0 ∧
   ∀ (i : nat) previous node,
     after !! i = Some previous → after !! S i = Some node →
     y0 node < y1 previous).
Proof.
  intros Hl before after.
  destruct (adjusted_layer g l Hl) as (Hh & Hp & Hg).
  fold before after in Hh, Hp, Hg.
  destruct (placed_lookup _ _ _ Hp) as [Hfirst Hnext].
  split; [apply uniform_spacing_sign|]. split.
  - intros Hfit. apply uniform_spacing_sign in Hfit. split_and!.
    + intros node Hn. rewrite (Hfirst node Hn). by rewrite Qcplus_0_l.
    + intros i previous node Hp' Hn. rewrite (Hnext i previous node Hp' Hn).
      rewrite <- (Qcplus_0_r (y1 previous)) at 1.
      by apply Qcplus_le_mono_l.
    + intros node Hn.
      pose proof (gaps_from_last 0 after node Hn) as Hlast.
      fold (gaps after) in Hlast. rewrite Hg in Hlast.
      rewrite lookup_replicate_2 in Hlast by lia.
      assert (uniform_spacing before = HEIGHT - y1 node) as Heq by congruence.
      apply Qcle_minus_iff. change (0 ≤ HEIGHT - y1 node). by rewrite <- Heq.
  - intros Hover.
    assert (uniform_spacing before < 0) as Hneg.
    { apply Qcnot_le_lt. intros Hs. apply uniform_spacing_sign in Hs.
      by apply (Qcle_not_lt _ _ Hs). }
    split; [done|].
    intros i previous node Hp' Hn. rewrite (Hnext i previous node Hp' Hn).
    rewrite <- (Qcplus_0_r (y1 previous)) at 2.
    by apply Qcplus_lt_mono_l.
Qed.

(** *** The links follow their nodes *)

Lemma fold_alter_notin {A} (f : A → A) (refs : list nat) (l : list A) (j : nat) :
  j ∉ refs → fold_left (λ l r, alter f r l) refs l !! j = l !! j.
Proof.
  revert l. induction refs as [|r refs IH]; intros l Hj; [done|].
  apply not_elem_of_cons in Hj as [Hne Hj]. simpl.
  rewrite IH by done. by apply list_lookup_alter_ne.
Qed.

Lemma fold_alter_in {A} (f : A → A) (refs : list nat) (l : list A) (j : nat) :
  NoDup refs → j ∈ refs →
  fold_left (λ l r, alter f r l) refs l !! j = f <$> l !! j.
Proof.
  revert l. induction refs as [|r refs IH]; intros l Hnd Hj.
  - by apply elem_of_nil in Hj.
  - apply list.NoDup_cons in Hnd as [Hr Hnd]. simpl.
    apply elem_of_cons in Hj as [->|Hj].
    + rewrite fold_alter_notin by done. apply list_lookup_alter_eq.
    + rewrite IH by done. rewrite list_lookup_alter_ne; [done|].
      by intros ->.
Qed.

Lemma fold_alter_proj {A B} (f : A → A) (proj : A → B) (refs : list nat)
    (l : list A) (j : nat) :
  (∀ x, proj (f x) = proj x) →
  proj <$> fold_left (λ l r, alter f r l) refs l !! j = proj <$> l !! j.
Proof.
  intros Hproj. revert l. induction refs as [|r refs IH]; intros l; [done|].
  simpl. rewrite IH. destruct (decide (r = j)) as [->|Hne].
  - rewrite list_lookup_alter_eq. destruct (l !! j); simpl; [|done].
    by rewrite Hproj.
  - by rewrite list_lookup_alter_ne.
Qed.

(** The two inner loops over the links of one node. *)
Lemma node_links_other (side : bool) (offset : Qc) (node : LaidNode)
    (links : list LaidLink) (j : nat) :
  j ∉ link_refs side node →
  link_end side <$>
    shift_targets offset (targetLinks node)
      (shift_sources offset (sourceLinks node) links) !! j
  = link_end side <$> links !! j.
Proof.
  intros Hj. unfold shift_targets, shift_sources. destruct side; simpl in *.
  - rewrite (fold_alter_proj _ link_y0) by done. by rewrite fold_alter_notin.
  - rewrite fold_alter_notin by done. by rewrite (fold_alter_proj _ link_y1).
Qed.

Lemma node_links_owner (side : bool) (offset : Qc) (node : LaidNode)
    (links : list LaidLink) (j : nat) :
  NoDup (link_refs side node) → j ∈ link_refs side node →
  link_end side <$>
    shift_targets offset (targetLinks node)
      (shift_sources offset (sourceLinks node) links) !! j
  = (λ v, v + offset) <$> (link_end side <$> links !! j).
Proof.
  intros Hnd Hj. unfold shift_targets, shift_sources. destruct side; simpl in *.
  - rewrite (fold_alter_proj _ link_y0) by done.
    rewrite fold_alter_in by done. by destruct (links !! j).
  - rewrite fold_alter_in by done.
    pose proof (fold_alter_proj (shift_link_y0 offset) link_y1
                  (sourceLinks node) links j (λ x, eq_refl)) as Hp.
    destruct (fold_left _ (sourceLinks node) links !! j) as [moved|];
      destruct (links !! j) as [link|]; simpl in *; try done.
    f_equal. congruence.
Qed.

(** The walk does not move the end of a link that no node of the layer
    refers to at that end. *)
Lemma walk_layer_end_other (side : bool) (l : Z) (s y : Qc)
    (nodes : list LaidNode) (links : list LaidLink) (j : nat) :
  (∀ node, node ∈ nodes → layer node = l → j ∉ link_refs side node) →
  link_end side <$> (walk_layer l s y nodes links).2 !! j
  = link_end side <$> links !! j.
Proof.
  revert y links. induction nodes as [|node rest IH]; intros y links Hj; [done|].
  simpl. case_decide as Hl; simpl.
  - rewrite IH by (intros; apply Hj; [by right | done]).
    apply node_links_other. apply Hj; [by left | done].
  - apply IH. intros. apply Hj; [by right | done].
Qed.

(** The walk moves the end of a link by the offset of the one node of
    the layer that refers to it. *)
Lemma walk_layer_end_owner (side : bool) (l : Z) (s y : Qc)
    (pre post : list LaidNode) (node : LaidNode) (links : list LaidLink) (j : nat) :
  layer node = l →
  NoDup (link_refs side node) → j ∈ link_refs side node →
  (∀ other, other ∈ pre ++ post → layer other = l → j ∉ link_refs side other) →
  ∃ node', (walk_layer l s y (pre ++ node :: post) links).1 !! length pre
           = Some node' ∧
    link_end side <$> (walk_layer l s y (pre ++ node :: post) links).2 !! j
    = (λ v, v + (y0 node' - y0 node)) <$> (link_end side <$> links !! j).
Proof.
  intros Hl Hnd Hj. revert y links.
  induction pre as [|m pre IH]; intros y links Hother.
  - simpl. rewrite decide_True by done. simpl. eexists. split; [done|].
    rewrite walk_layer_end_other by (intros; apply Hother; done).
    rewrite node_links_owner by done.
    simpl. replace (y0 node + (y - y0 node) - y0 node) with (y - y0 node) by ring.
    done.
  - simpl. case_decide as Hm; simpl.
    + destruct (IH (y + (y1 m - y0 m) + s)
                  (shift_targets (y - y0 m) (targetLinks m)
                     (shift_sources (y - y0 m) (sourceLinks m) links)))
        as (node' & Hnode' & Hend).
      { intros other Hin. apply Hother. by right. }
      exists node'. split; [done|]. rewrite Hend.
      rewrite node_links_other; [done|]. apply Hother; [by left | done].
    + destruct (IH y links) as (node' & Hnode' & Hend).
      { intros other Hin. apply Hother. by right. }
      exists node'. split; done.
Qed.

Lemma kept_sole_end (side : bool) (ls : list Z) (g g' : Layout) (i j : nat) :
  Forall2 (kept ls) (layout_nodes g) (layout_nodes g') →
  sole_end side g i j → sole_end side g' i j.
Proof.
  intros Hk [(node & Hi & Hj & Hnd) Hothers].
  assert (∀ n n', kept ls n n' → link_refs side n' = link_refs side n) as Hrefs.
  { intros n n' (_ & _ & Hs & Ht & _). by destruct side. }
  split.
  - destruct (Forall2_lookup_l _ _ _ _ _ Hk Hi) as (node' & Hi' & Hkn).
    exists node'. rewrite (Hrefs _ _ Hkn). done.
  - intros i' node' Hi' Hne.
    destruct (Forall2_lookup_r _ _ _ _ _ Hk Hi') as (node0 & Hi0 & Hkn).
    rewrite (Hrefs _ _ Hkn). by eapply Hothers.
Qed.

(** One pass keeps the distance between the end of a link and the start
    of the one node that refers to it. *)
Lemma justify_layer_attached (side : bool) (l : Z) (g : Layout) (i j : nat)
    (node : LaidNode) (link : LaidLink) :
  sole_end side g i j →
  layout_nodes g !! i = Some node → layout_links g !! j = Some link →
  ∃ node' link',
    layout_nodes (justify_layer l g) !! i = Some node' ∧
    layout_links (justify_layer l g) !! j = Some link' ∧
    link_end side link' - y0 node' = link_end side link - y0 node.
Proof.
  intros [(node0 & Hi0 & Hj & Hnd) Hothers] Hi Hlink.
  assert (node0 = node) as -> by congruence.
  rewrite justify_layer_walk. simpl.
  set (s := uniform_spacing (layer_of l (layout_nodes g))).
  destruct (decide (layer node = l)) as [Hl|Hl].
  - pose proof (take_drop_middle _ _ _ Hi) as Hsplit.
    assert (length (take i (layout_nodes g)) = i) as Hlen.
    { rewrite length_take. apply lookup_lt_Some in Hi. lia. }
    destruct (walk_layer_end_owner side l s s (take i (layout_nodes g))
                (drop (S i) (layout_nodes g)) node (layout_links g) j Hl Hnd Hj)
      as (node' & Hnode' & Hend).
    { intros other Hin _. apply elem_of_app in Hin as [Hin|Hin];
        apply list_elem_of_lookup in Hin as [i' Hi'].
      - apply lookup_take_Some in Hi' as [Hi' Hlt].
        apply (Hothers i'); [done | lia].
      - rewrite lookup_drop in Hi'. apply (Hothers (S i + i')%nat); [done | lia]. }
    rewrite Hsplit, Hlen in Hnode'. rewrite Hsplit in Hend.
    rewrite Hlink in Hend. simpl in Hend.
    destruct ((walk_layer l s s (layout_nodes g) (layout_links g)).2 !! j)
      as [link'|] eqn:Hlink'; [|done].
    exists node', link'. split; [done|]. split; [done|].
    assert (link_end side link' = link_end side link + (y0 node' - y0 node))
      as -> by (simpl in Hend; congruence).
    ring.
  - destruct (Forall2_lookup_l _ _ _ _ _
                (walk_layer_kept l s s (layout_nodes g) (layout_links g)) Hi)
      as (node' & Hi' & (_ & _ & _ & _ & Hid)).
    rewrite Hid in Hi' by (by rewrite list_elem_of_singleton).
    pose proof (walk_layer_end_other side l s s (layout_nodes g)
                  (layout_links g) j) as Hend.
    rewrite Hlink in Hend. simpl in Hend.
    destruct ((walk_layer l s s (layout_nodes g) (layout_links g)).2 !! j)
      as [link'|] eqn:Hlink'.
    + exists node, link'. split; [done|]. split; [done|].
      assert (link_end side link' = link_end side link) as ->; [|done].
      assert (Some (link_end side link') = Some (link_end side link)) as Heq;
        [|congruence].
      apply Hend. intros other Hin Hlo.
      apply list_elem_of_lookup in Hin as [i' Hi''].
      apply (Hothers i'); [done|]. intros ->. congruence.
    + exfalso. assert (None = Some (link_end side link)) as Heq; [|done].
      apply Hend. intros other Hin Hlo.
      apply list_elem_of_lookup in Hin as [i' Hi''].
      apply (Hothers i'); [done|]. intros ->. congruence.
Qed.

Lemma justify_layers_attached (side : bool) (ls : list Z) (g : Layout) (i j : nat)
    (node : LaidNode) (link : LaidLink) :
  sole_end side g i j →
  layout_nodes g !! i = Some node → layout_links g !! j = Some link →
  ∃ node' link',
    layout_nodes (fold_left (λ g l, justify_layer l g) ls g) !! i = Some node' ∧
    layout_links (fold_left (λ g l, justify_layer l g) ls g) !! j = Some link' ∧
    link_end side link' - y0 node' = link_end side link - y0 node.
Proof.
  revert g node link. induction ls as [|l ls IH]; intros g node link Hsole Hi Hj.
  - exists node, link. done.
  - simpl.
    destruct (justify_layer_attached side l g i j node link Hsole Hi Hj)
      as (node1 & link1 & Hi1 & Hj1 & Heq1).
    destruct (IH (justify_layer l g) node1 link1) as (node' & link' & ? & ? & Heq);
      [|done|done|].
    + by eapply kept_sole_end; [apply justify_layer_kept|].
    + exists node', link'. split; [done|]. split; [done|]. congruence.
Qed.

(** X24.  A link stays attached to its node.  When link [j] is referred
    to by exactly one node [i], once, in its [sourceLinks], the adjuster
    keeps the distance between the link's [y0] and the node's [y0]; the
    same holds for [targetLinks] and the link's [y1]. *)
Theorem justify_vertically_attached (source_side : bool) (g : Layout) (i j : nat)
    (node : LaidNode) (link : LaidLink) :
  sole_end source_side g i j →
  layout_nodes g !! i = Some node → layout_links g !! j = Some link →
  ∃ node' link',
    layout_nodes (justify_vertically g) !! i = Some node' ∧
    layout_links (justify_vertically g) !! j = Some link' ∧
    link_end source_side link' - y0 node'
    = link_end source_side link - y0 node.
Proof. apply justify_layers_attached. Qed.

(** *** What the positions depend on *)

Lemma placed_determined (s prev : Qc) (nodes nodes' : list LaidNode) :
  placed s prev nodes → placed s prev nodes' →
  height <$> nodes = height <$> nodes' →
  (λ node, (y0 node, y1 node)) <$> nodes = (λ node, (y0 node, y1 node)) <$> nodes'.
Proof.
  revert prev nodes'. induction nodes as [|n rest IH]; intros prev [|n' rest'];
    try done.
  intros [Hy0 Hp] [Hy0' Hp'] Hh. rewrite !fmap_cons in Hh.
  assert (height n = height n') as Hn by congruence.
  assert (height <$> rest = height <$> rest') as Hrest by congruence.
  unfold height in Hn.
  assert (y1 n = y1 n') as Hy1.
  { replace (y1 n) with (y1 n - y0 n + y0 n) by ring.
    rewrite Hn, Hy0, <- Hy0'. ring. }
  rewrite !fmap_cons. f_equal; [congruence|].
  apply (IH (y1 n)); [done | by rewrite Hy1 | done].
Qed.

(** X25.  In each of the four layers the adjusted positions depend only
    on the heights of the nodes of the layer and their order, not on the
    positions that the layout library gave them: two layouts whose layer
    has the same heights get the same [y0] and [y1] there. *)
Theorem justify_vertically_heights_only (g g' : Layout) (l : Z) :
  (0 ≤ l < 4)%Z →
  height <$> layer_of l (layout_nodes g) = height <$> layer_of l (layout_nodes g') →
  (λ node, (y0 node, y1 node)) <$> layer_of l (layout_nodes (justify_vertically g))
  = (λ node, (y0 node, y1 node)) <$> layer_of l (layout_nodes (justify_vertically g')).
Proof.
  intros Hl Hh.
  destruct (adjusted_layer g l Hl) as (Hh1 & Hp1 & _).
  destruct (adjusted_layer g' l Hl) as (Hh2 & Hp2 & _).
  rewrite (uniform_spacing_heights _ _ Hh) in Hp1.
  apply (placed_determined _ _ _ _ Hp1 Hp2). congruence.
Qed.

(** One pass does not move the end of a link that no node refers to at
    that end. *)
Lemma justify_layer_end_unreferenced (side : bool) (l : Z) (g : Layout) (j : nat) :
  (∀ node, node ∈ layout_nodes g → j ∉ link_refs side node) →
  link_end side <$> layout_links (justify_layer l g) !! j
  = link_end side <$> layout_links g !! j.
Proof.
  intros Hj. rewrite justify_layer_walk. simpl.
  apply walk_layer_end_other. intros node Hin _. by apply Hj.
Qed.

(** X26.  The adjuster does not move the [y0] of a link that is in no
    node's [sourceLinks], nor the [y1] of a link that is in no node's
    [targetLinks]. *)
Theorem justify_vertically_unreferenced (source_side : bool) (g : Layout) (j : nat) :
  (∀ node, node ∈ layout_nodes g → j ∉ link_refs source_side node) →
  link_end source_side <$> layout_links (justify_vertically g) !! j
  = link_end source_side <$> layout_links g !! j.
Proof.
  unfold justify_vertically.
  generalize [0; 1; 2; 3]%Z as ls. intros ls. revert g.
  induction ls as [|l ls IH]; intros g Hj; [done|].
  simpl. rewrite IH.
  - by apply justify_layer_end_unreferenced.
  - intros node' Hin. apply list_elem_of_lookup in Hin as [i Hi].
    destruct (Forall2_lookup_r _ _ _ _ _ (justify_layer_kept l g) Hi)
      as (node & Hi0 & (_ & _ & Hs & Ht & _)).
    assert (link_refs source_side node' = link_refs source_side node) as ->
      by (by destruct source_side).
    apply Hj. apply list_elem_of_lookup. eauto.
Qed.

(* ================================================================= *)
(** ** Instances of the further properties *)

Lemma download_categories_type_error_witness :
  download_categories post_unknown_type = Err TypeError.
Proof.
  apply (download_categories_type_error post_unknown_type _ [] [] eq_refl eq_refl eq_refl).
  intros Hty.
  pose proof (Hty _ ltac:(left) ltac:(by vm_compute)) as Hin.
  unfold category_types in Hin. rewrite !elem_of_cons, elem_of_nil in Hin.
  by destruct Hin as [?|[?|[?|[]]]].
Defined.

Lemma raw_ab_pairs (oc bf : Z * string) :
  oc ∈ object_class raw_ab → bf ∈ budget_function raw_ab →
  oc = (10%Z, "A") ∧ bf = (20%Z, "B").
Proof.
  unfold raw_ab. simpl. rewrite !list_elem_of_singleton. done.
Qed.

Lemma download_amounts_ok_witness :
  download_amounts post_amounts_ab raw_ab [] =
  Ok [ {| a_object_class := "A"; a_budget_function := "B";
          a_agency := "X"; a_amount := 50%float |};
       {| a_object_class := "A"; a_budget_function := "B";
          a_agency := "Y"; a_amount := 30%float |} ].
Proof.
  apply (download_amounts_ok post_amounts_ab (λ _ _, xy_results) raw_ab []).
  intros oc bf Hoc Hbf. by destruct (raw_ab_pairs oc bf Hoc Hbf) as [-> ->].
Defined.

Lemma download_amounts_succeeds_iff_witness :
  download_amounts post_amounts_ab
    {| object_class := []; budget_function := [(20%Z, "B")]; agency := [] |}
    (amounts two_records)
  = Ok (amounts two_records).
Proof.
  apply (proj2 (download_amounts_succeeds_iff post_amounts_ab _ _)). by left.
Defined.

Lemma download_amounts_names_witness :
  ∃ added, amounts two_records = [] ++ added ∧
    ∀ a, a ∈ added →
      a_object_class a ∈ remove_ids (object_class raw_ab) ∧
      a_budget_function a ∈ remove_ids (budget_function raw_ab).
Proof.
  apply (download_amounts_names post_amounts_ab raw_ab [] (amounts two_records)).
  reflexivity.
Defined.

Lemma raw_ab_names_NoDup :
  NoDup (remove_ids (object_class raw_ab)) ∧
  NoDup (remove_ids (budget_function raw_ab)).
Proof. split; apply (bool_decide_unpack _); by vm_compute. Qed.

Lemma download_amounts_pair_total_witness :
  sum_filter (amounts two_records)
    [(Kobject_class, "A"); (Kbudget_function, "B")]
  = float_sum (r_amount <$> xy_results).
Proof.
  apply (download_amounts_pair_total post_amounts_ab raw_ab (amounts two_records)
           (10%Z, "A") (20%Z, "B") xy_results);
    try apply raw_ab_names_NoDup; try reflexivity; by left.
Defined.

Lemma consolidate_agencies_sums_witness :
  sum_filter (amounts (consolidate_agencies 2 three_agencies))
    [(Kobject_class, "Pay"); (Kbudget_function, "Health")]
  = sum_filter (amounts three_agencies)
      [(Kobject_class, "Pay"); (Kbudget_function, "Health")].
Proof.
  apply (consolidate_agencies_sums 2 three_agencies).
  intros k v. rewrite !elem_of_cons, elem_of_nil.
  intros [[= -> _]|[[= -> _]|[]]]; discriminate.
Defined.

Lemma consolidate_agencies_negative_witness :
  (-1 < 0)%Z ∧
  agency (categories (consolidate_agencies (-1) three_agencies))
  = ["Defense"; "Energy"; "Other"].
Proof.
  split; [lia|].
  apply (consolidate_agencies_negative (-1) three_agencies). lia.
Defined.

Lemma consolidate_agencies_idempotent_witness :
  consolidate_agencies 2 (consolidate_agencies 2 three_agencies)
  = consolidate_agencies 2 three_agencies.
Proof.
  apply (consolidate_agencies_idempotent 2 three_agencies). simpl. lia.
Defined.

Lemma three_agencies_listed :
  NoDup (agency (categories three_agencies)) ∧
  ("Other" ∉ agency (categories three_agencies)).
Proof. split; apply (bool_decide_unpack _); by vm_compute. Qed.

Lemma consolidate_agencies_kept_sum_witness :
  sum_filter (amounts (consolidate_agencies 2 three_agencies))
    [(Kobject_class, "Pay"); (Kbudget_function, "Health"); (Kagency, "Defense")]
  = sum_filter (amounts three_agencies)
      [(Kobject_class, "Pay"); (Kbudget_function, "Health"); (Kagency, "Defense")].
Proof.
  apply (consolidate_agencies_kept_sum 2 three_agencies);
    [lia | apply three_agencies_listed | by left].
Defined.

Lemma consolidate_agencies_other_sum_witness :
  sum_filter (amounts (consolidate_agencies 2 three_agencies))
    [(Kobject_class, "Pay"); (Kbudget_function, "Health"); (Kagency, "Other")]
  = total_where
      (λ a, a_object_class a = "Pay" ∧ a_budget_function a = "Health" ∧
            (a_agency a = "Other" ∨ a_agency a ∈ ["Labor"]))
      (amounts three_agencies).
Proof.
  apply (consolidate_agencies_other_sum 2 three_agencies);
    [lia | apply three_agencies_listed].
Defined.

Lemma gen_ids_index_witness :
  get_property (gen_ids ["A"; "B"; "A"] [root_node]).1 "A" = Index 3 ∧
  get_property (gen_ids ["A"; "B"; "A"] [root_node]).1 "C" = Undefined ∧
  get_property (gen_ids ["A"; "B"; "A"] [root_node]).1 "constructor"
    = Inherited "constructor" ∧
  get_property (gen_ids ["A"; "__proto__"] [root_node]).1 "__proto__"
    = Inherited "__proto__".
Proof.
  split_and!.
  - apply (proj2 (proj2 (gen_ids_index ["A"; "B"; "A"] [root_node] "A"))
             ltac:(discriminate) 2%nat eq_refl).
    intros [|[|[|k']]] Hk; try lia; discriminate.
  - apply (proj1 (proj2 (gen_ids_index ["A"; "B"; "A"] [root_node] "C"))
             ltac:(discriminate)).
    apply (bool_decide_unpack _). by vm_compute.
  - apply (proj1 (proj2 (gen_ids_index ["A"; "B"; "A"] [root_node] "constructor"))
             ltac:(discriminate)).
    apply (bool_decide_unpack _). by vm_compute.
  - apply (proj1 (gen_ids_index ["A"; "__proto__"] [root_node] "__proto__")).
    reflexivity.
Defined.

Lemma two_records_pair_link :
  budget_function_link two_records "A" "B" ∈ links (create_graph two_records).
Proof.
  apply elem_of_links. exists "A". split; [by left|].
  right. exists "B". split; [by left|]. left. split; reflexivity.
Qed.

Lemma two_records_no_proto :
  "__proto__" ∉ object_class (categories two_records)
    ++ budget_function (categories two_records) ++ agency (categories two_records).
Proof. apply (bool_decide_unpack _). by vm_compute. Qed.

Lemma links_run_forward_witness :
  ∃ i j : nat,
    source (budget_function_link two_records "A" "B") = Index i ∧
    target (budget_function_link two_records "A" "B") = Index j ∧
    (i < j < length (nodes (create_graph two_records)))%nat.
Proof.
  destruct (proj2 (links_run_forward two_records _) two_records_no_proto
              two_records_pair_link)
    as (i & j & Hi & Hj & Hlt & _).
  exists i, j. split; [exact Hi|]. split; [exact Hj | exact Hlt].
Defined.

Lemma two_records_listed (a : AmountRecord) :
  a ∈ amounts two_records →
  a_budget_function a ∈ ["B"] ∧ a_agency a ∈ ["X"; "Y"].
Proof.
  unfold two_records. simpl. rewrite !elem_of_cons, elem_of_nil.
  intros [->|[->|[]]]; simpl; split; rewrite ?elem_of_cons; auto.
Qed.

Lemma sum_filter_by_agency_witness :
  sum_Qc
    ((λ ag, exact_sum_filter (amounts two_records)
              [(Kobject_class, "A"); (Kbudget_function, "B"); (Kagency, ag)])
     <$> ["X"; "Y"])
  = exact_sum_filter (amounts two_records)
      [(Kobject_class, "A"); (Kbudget_function, "B")].
Proof.
  apply (sum_filter_by_agency (amounts two_records) "A" "B" ["X"; "Y"]).
  - apply (bool_decide_unpack _). by vm_compute.
  - intros a Ha _ _. by apply two_records_listed.
Defined.

Lemma sum_filter_by_budget_function_witness :
  sum_Qc
    ((λ bf, exact_sum_filter (amounts two_records)
              [(Kobject_class, "A"); (Kbudget_function, bf)])
     <$> ["B"])
  = exact_sum_filter (amounts two_records) [(Kobject_class, "A")].
Proof.
  apply (sum_filter_by_budget_function (amounts two_records) "A" ["B"]).
  - apply (bool_decide_unpack _). by vm_compute.
  - intros a Ha _. by apply two_records_listed.
Defined.

Lemma color_defined_witness :
  ∃ oc rest, names (budget_function_link two_records "A" "B") = oc :: rest ∧
    (is_Some (color (categories two_records)
                (budget_function_link two_records "A" "B")) ↔
     (indexOf (object_class (categories two_records)) oc < 6)%Z) ∧
    ((length (object_class (categories two_records)) ≤ 6)%nat →
     is_Some (color (categories two_records)
                (budget_function_link two_records "A" "B"))).
Proof. apply (color_defined two_records), two_records_pair_link. Defined.

Lemma two_records_root_link :
  root_link two_records "A" ∈ links (create_graph two_records).
Proof. apply elem_of_links. exists "A". split; [by left | by left]. Qed.

Lemma color_injective_witness :
  head (names (root_link two_records "A"))
  = head (names (budget_function_link two_records "A" "B")).
Proof.
  apply (color_injective two_records _ _ "#4285f4");
    [apply two_records_root_link | apply two_records_pair_link
    | reflexivity | reflexivity].
Defined.

Lemma post_ab_table : download_categories post_ab = Ok raw_ab.
Proof. reflexivity. Qed.

Lemma main_graph_ab :
  main_graph post_ab post_amounts_ab
  = Ok (create_graph (clean_data raw_ab (amounts two_records))).
Proof. reflexivity. Qed.

Lemma main_graph_pair_link_witness :
  ∃ e, e ∈ links (create_graph (clean_data raw_ab (amounts two_records))) ∧
    names e = ["A"; "B"] ∧ value e = float_sum (r_amount <$> xy_results).
Proof.
  apply (main_graph_pair_link post_ab post_amounts_ab raw_ab _
           (10%Z, "A") (20%Z, "B") xy_results post_ab_table main_graph_ab);
    try apply raw_ab_names_NoDup; try reflexivity; by left.
Defined.

Lemma main_graph_nodes_witness :
  length (nodes (create_graph (clean_data raw_ab (amounts two_records)))) = 6%nat.
Proof.
  apply (main_graph_nodes post_ab post_amounts_ab raw_ab _ post_ab_table
           main_graph_ab).
Defined.

Lemma justify_vertically_fits_witness :
  (0 ≤ 1 < 4)%Z ∧
  (0 ≤ uniform_spacing (layer_of 1 (layout_nodes two_nodes)) ↔
   occupied (layer_of 1 (layout_nodes two_nodes)) ≤ HEIGHT).
Proof.
  split; [lia | apply (justify_vertically_fits two_nodes 1); lia].
Defined.

Lemma two_nodes_sole_source : sole_end true two_nodes 0 0.
Proof.
  split.
  - eexists. split; [reflexivity|]. split; [by left|].
    apply (bool_decide_unpack _). by vm_compute.
  - intros [|[|[|[|i']]]] node' Hi Hne; try done;
      injection Hi as <-; simpl; apply not_elem_of_nil.
Qed.

Lemma justify_vertically_attached_witness :
  ∃ node' link',
    layout_nodes (justify_vertically two_nodes) !! 0%nat = Some node' ∧
    layout_links (justify_vertically two_nodes) !! 0%nat = Some link' ∧
    link_y0 link' - y0 node' = Qc_of_Z 55 - Qc_of_Z 5.
Proof.
  apply (justify_vertically_attached true two_nodes 0 0 _ _
           two_nodes_sole_source eq_refl eq_refl).
Defined.

Lemma justify_vertically_heights_only_witness :
  (λ node, (y0 node, y1 node))
    <$> layer_of 1 (layout_nodes (justify_vertically two_nodes))
  = (λ node, (y0 node, y1 node))
      <$> layer_of 1 (layout_nodes (justify_vertically (justify_vertically two_nodes))).
Proof.
  apply (justify_vertically_heights_only two_nodes (justify_vertically two_nodes) 1);
    [lia|].
  symmetry. apply (kept_layer_heights [0; 1; 2; 3]%Z), justify_layers_kept.
Defined.

Lemma justify_vertically_unreferenced_witness :
  link_y0 <$> layout_links (justify_vertically one_node_one_link) !! 0%nat
  = Some (Qc_of_Z 40).
Proof.
  apply (justify_vertically_unreferenced true one_node_one_link 0).
  intros node Hin. unfold one_node_one_link in Hin. simpl in Hin.
  apply list_elem_of_singleton in Hin as ->. simpl. apply not_elem_of_nil.
Defined.
